(** * Classical shadow tomography: the estimation pipeline of
    [quantum/shadow_tomography_linear.ipynb]

    The notebook computes with numpy arrays of doubles.  This development
    embeds the algorithmic cells (bitToVector, invM, getSnapshot, chunks,
    n_pauli_circuit, the snapshot loops of get_clifford_shadow and
    get_pauli_shadow, get_estimators, get_fidelity_prediction) twice where the
    difference matters.

    - The matrices the formulas denote: a complex number is a pair of reals,
      a 2-D array is a list of rows.  Theorems over these definitions say
      which expression a cell evaluates and what that expression is worth in
      exact arithmetic.
    - The doubles the code holds: module [F64] evaluates the snapshot cells
      on binary64 floats, one rounding per operation, and shows where an
      exact identity is lost to rounding.

    What decides control flow is modelled as the code computes it: the draws
    of [np.random] and the thresholds [1/3] and [2/3] are doubles, and [N/K]
    is Python's true division of integers, the correctly rounded double of
    the quotient, with its ZeroDivisionError and OverflowError; [int(N/K)]
    and [np.floor(N/K)] act on that double.  Python integers are [Z] or
    [nat].

    The random Clifford, the simulator and [state_fidelity] belong to qiskit;
    what they return is an input of the functions below: the [(Udg, memory)]
    or [(qbases, memory)] of each shot, the stream of draws of [np.random],
    and the functional applied to an estimator. *)

From Stdlib Require Import List Arith ZArith Reals Lra Lia Bool.
From Stdlib Require Import Ascii Permutation Sorted.
From Stdlib Require Floats.
Import ListNotations.

Set Implicit Arguments.

(** ** Complex scalars

    The exact complex numbers: the value a formula over complex128 denotes
    before any rounding.  The doubles themselves are in [F64] below. *)

Record C : Type := mkC { real : R; imag : R }.

Declare Scope C_scope.
Delimit Scope C_scope with C.
Bind Scope C_scope with C.

Definition RtoC (x : R) : C := mkC x 0.
Definition C0 : C := RtoC 0.
Definition C1 : C := RtoC 1.
(** Python's [1j]. *)
Definition Ci : C := mkC 0 1.

Definition Cadd (a b : C) : C := mkC (real a + real b) (imag a + imag b).
Definition Copp (a : C) : C := mkC (- real a) (- imag a).
Definition Csub (a b : C) : C := mkC (real a - real b) (imag a - imag b).
Definition Cmul (a b : C) : C :=
  mkC (real a * real b - imag a * imag b) (real a * imag b + imag a * real b).
Definition Cconj (a : C) : C := mkC (real a) (- imag a).
(** Division of a complex number by a real one, as in [array / np.sqrt(2)]
    and [array / np.floor(N/K)]. *)
Definition Cdivr (a : C) (r : R) : C := mkC (real a / r) (imag a / r).

Infix "+" := Cadd : C_scope.
Infix "-" := Csub : C_scope.
Infix "*" := Cmul : C_scope.
Notation "- x" := (Copp x) : C_scope.

(** Finite sums [f 0 + ... + f (n-1)]. *)
Fixpoint Csum (f : nat -> C) (n : nat) : C :=
  match n with
  | O => C0
  | S k => (Csum f k + f k)%C
  end.


(** ** Python exceptions

    A call that can raise returns [inl e]; a normal return is [inr v]. *)

Inductive exn : Type :=
  | ZeroDivisionError
  | ValueError
  | TypeError
  | KeyError
  | IndexError
  | OverflowError.

Definition result (A : Type) : Type := (exn + A)%type.

Definition ret {A : Type} (a : A) : result A := inr a.
Definition raise {A : Type} (e : exn) : result A := inl e.
Definition bind {A B : Type} (m : result A) (k : A -> result B) : result B :=
  match m with
  | inl e => inl e
  | inr a => k a
  end.

Notation "x <- m ;; k" := (bind m (fun x => k))
  (at level 61, m at next level, right associativity).

(** ** numpy arrays

    A 2-D array is the list of its rows.  The operations below are the numpy
    primitives the notebook calls, defined as numpy documents them on arrays of
    matching shapes.  On other shapes numpy broadcasts or raises ValueError;
    that is not modelled, and every statement that a call raises nothing
    carries the hypothesis that its arrays have matching shapes. *)

Definition matrix : Type := list (list C).

Definition nrows (M : matrix) : nat := length M.
Definition ncols (M : matrix) : nat := length (hd [] M).

(** [M[i, j]] *)
Definition entry (M : matrix) (i j : nat) : C := nth j (nth i M []) C0.

Definition mk_matrix (r c : nat) (f : nat -> nat -> C) : matrix :=
  map (fun i => map (fun j => f i j) (seq 0 c)) (seq 0 r).

Definition shape (r c : nat) (M : matrix) : Prop :=
  length M = r /\ Forall (fun row => length row = c) M.

Fixpoint map2 {A B D : Type} (f : A -> B -> D) (l1 : list A) (l2 : list B)
  : list D :=
  match l1, l2 with
  | a :: l1', b :: l2' => f a b :: map2 f l1' l2'
  | _, _ => []
  end.

(** [np.zeros(d)], a 1-D array. *)
Definition np_zeros (d : nat) : list C := repeat C0 d.

(** [np.eye(d)] *)
Definition np_eye (d : nat) : matrix :=
  mk_matrix d d (fun i j => if i =? j then C1 else C0).

(** [np.add(A, B)], also written [A + B], for [A] and [B] of one shape. *)
Definition np_add (A B : matrix) : matrix := map2 (map2 Cadd) A B.

(** [A - B] *)
Definition np_subtract (A B : matrix) : matrix := map2 (map2 Csub) A B.

(** [c * A] for a scalar [c]. *)
Definition scale (c : C) (A : matrix) : matrix := map (map (Cmul c)) A.

(** [A / r] for a real scalar [r]. *)
Definition divide (A : matrix) (r : R) : matrix :=
  map (map (fun z => Cdivr z r)) A.

(** [A.conj()] *)
Definition conj (A : matrix) : matrix := map (map Cconj) A.

(** [A.T] *)
Definition transpose (A : matrix) : matrix :=
  mk_matrix (ncols A) (nrows A) (fun i j => entry A j i).

(** [A.dot(B)]: [A.dot(B)[i, j] = sum over k of A[i, k] * B[k, j]]. *)
Definition dot (A B : matrix) : matrix :=
  mk_matrix (nrows A) (ncols B)
    (fun i j => Csum (fun k => (entry A i k * entry B k j)%C) (ncols A)).

(** [np.kron(A, B)]: the block matrix whose block [(i, j)] is [A[i, j] * B]. *)
Definition np_kron (A B : matrix) : matrix :=
  mk_matrix (nrows A * nrows B) (ncols A * ncols B)
    (fun i j => (entry A (i / nrows B) (j / ncols B)
                 * entry B (i mod nrows B) (j mod ncols B))%C).

(** [np.trace(A)] and the conjugate transpose; the notebook writes the latter
    [A.conj().T]. *)
Definition trace (A : matrix) : C := Csum (fun i => entry A i i) (nrows A).
Definition adjoint (A : matrix) : matrix := transpose (conj A).
Definition hermitian (A : matrix) : Prop := adjoint A = A.

(** ** Bitstrings *)

Definition str : Type := list ascii.

Definition digit2 (c : ascii) : option nat :=
  if Ascii.eqb c "0"%char then Some 0
  else if Ascii.eqb c "1"%char then Some 1
  else None.

(** [int(bitstring, 2)] on a string of binary digits: ValueError on the empty
    string and on any other character.  (Signs, blanks, underscores and a
    [0b] prefix, which Python also accepts, do not occur in measurement
    outcomes and are rejected here.) *)
Fixpoint int2_digits (s : str) (acc : nat) : result nat :=
  match s with
  | [] => ret acc
  | c :: s' =>
      match digit2 c with
      | Some b => int2_digits s' (2 * acc + b)
      | None => raise ValueError
      end
  end.

Definition int2 (s : str) : result nat :=
  match s with
  | [] => raise ValueError
  | _ => int2_digits s 0
  end.

(** [b[k] = v] on a 1-D array. *)
Definition setitem (b : list C) (k : nat) (v : C) : result (list C) :=
  if k <? length b then ret (firstn k b ++ v :: skipn (Datatypes.S k) b)
  else raise IndexError.

(** [b.shape = (d, 1)] *)
Definition as_column (b : list C) : matrix := map (fun x => [x]) b.

Definition bitToVector (bitstring : str) : result matrix :=
  let n := length bitstring in
  k <- int2 bitstring ;;
  b <- setitem (np_zeros (2 ^ n)) k C1 ;;
  ret (as_column b).

(** ** The inverse channel and the snapshots *)

Definition invM (rho : matrix) (n : nat) : matrix :=
  np_subtract (scale (RtoC (INR (2 ^ n + 1))) rho) (np_eye (2 ^ n)).

Definition getSnapshot (state Udg : matrix) (n : nat) : matrix :=
  let snapshot := dot Udg state in
  let snapshot := dot snapshot (transpose (conj snapshot)) in
  let snapshot := invM snapshot n in
  snapshot.

(** One iteration of the loop of [get_clifford_shadow], from the bitstring
    [memory] the backend returned and the [Udg] of [n_clifford_circuit]. *)
Definition clifford_snapshot (memory : str) (Udg : matrix) (nqubits : nat)
  : result matrix :=
  b <- bitToVector memory ;;
  ret (getSnapshot b Udg nqubits).

(** [get_clifford_shadow]: the random Clifford and the simulator are external,
    so the loop runs over the [(Udg, memory)] pairs they produced, one per
    shot. *)
Fixpoint get_clifford_shadow_loop (shots : list (matrix * str)) (nqubits : nat)
  (shadow_clifford : list matrix) : result (list matrix) :=
  match shots with
  | [] => ret shadow_clifford
  | (Udg, memory) :: shots' =>
      snapshot <- clifford_snapshot memory Udg nqubits ;;
      get_clifford_shadow_loop shots' nqubits (shadow_clifford ++ [snapshot])
  end.

Definition get_clifford_shadow (shots : list (matrix * str)) (nqubits : nat)
  : result (list matrix) :=
  get_clifford_shadow_loop shots nqubits [].

(** ** Random Pauli measurements *)

(** The dict [qbases] of [n_pauli_circuit], from qubit indices to the
    basis_ids 0, 1, 2 it writes: keys and values are non-negative integers,
    and the latest binding of a key is the one found.  (A negative value,
    which would index [Udgs] from its end, is no basis_id and is outside this
    type.) *)
Definition dict : Type := list (nat * nat).

Definition dict_set (k v : nat) (d : dict) : dict := (k, v) :: d.

Fixpoint dict_get (d : dict) (k : nat) : result nat :=
  match d with
  | [] => raise KeyError
  | (k', v) :: d' => if k' =? k then ret v else dict_get d' k
  end.

(** [l[i]] on a Python list, for [i >= 0]. *)
Definition getitem {A : Type} (l : list A) (i : nat) : result A :=
  match nth_error l i with
  | Some a => ret a
  | None => raise IndexError
  end.

(** ** Double precision

    [F64] holds the same cells over the binary64 floats of the kernel, one
    rounding per arithmetic operation, as numpy applies them elementwise; the
    sums of [dot] and [trace] run from the first index to the last.  A
    [float64] array is held as a [complex128] array of zero imaginary parts:
    sums, differences and products of such numbers are those of their real
    parts.  (A linear-algebra backend may fuse a product and a sum of [dot]
    into one rounding.  In the matrices evaluated in this development every
    entry is real or purely imaginary and every vector is one-hot, so one of
    the two products of each component is zero and both ways give the same
    doubles.)  The definitions above give the matrices the formulas denote;
    those of this module give the arrays of doubles the notebook holds. *)

Module F64.

Import Floats.
Local Open Scope float_scope.

Definition float64 : Type := float.

(** [x < y], [x <= y] and [x >= y] on doubles. *)
Definition lt (x y : float64) : bool := x <? y.
Definition le (x y : float64) : bool := x <=? y.
Definition ge (x y : float64) : bool := y <=? x.

(** Python's constants [1/3] and [2/3]: the doubles nearest to the two
    fractions. *)
Definition third : float64 := 1 / 3.
Definition two_thirds : float64 := 2 / 3.

(** The double of a Python [int] below [2^63]. *)
Definition of_int (z : Z) : float64 := of_uint63 (Uint63.of_Z z).

Record complex128 : Type := mk_complex { re : float64; im : float64 }.

Definition of_float (x : float64) : complex128 := mk_complex x 0.
Definition zero : complex128 := of_float 0.
Definition one : complex128 := of_float 1.
(** [1j] *)
Definition j : complex128 := mk_complex 0 1.

Definition add (a b : complex128) : complex128 :=
  mk_complex (re a + re b) (im a + im b).
Definition sub (a b : complex128) : complex128 :=
  mk_complex (re a - re b) (im a - im b).
Definition mul (a b : complex128) : complex128 :=
  mk_complex (re a * re b - im a * im b) (re a * im b + im a * re b).
Definition conjugate (a : complex128) : complex128 :=
  mk_complex (re a) (- im a).

Fixpoint sum (f : nat -> complex128) (n : nat) : complex128 :=
  match n with
  | O => zero
  | Datatypes.S k => add (sum f k) (f k)
  end.

Definition array : Type := list (list complex128).

Definition entry (M : array) (i k : nat) : complex128 :=
  nth k (nth i M []) zero.

Definition mk_array (r c : nat) (f : nat -> nat -> complex128) : array :=
  map (fun i => map (fun k => f i k) (seq 0 c)) (seq 0 r).

Definition np_zeros (d : nat) : list complex128 := repeat zero d.

Definition np_eye (d : nat) : array :=
  mk_array d d (fun i k => if (i =? k)%nat then one else zero).

Definition np_subtract (A B : array) : array := map2 (map2 sub) A B.

Definition scale (c : complex128) (A : array) : array := map (map (mul c)) A.

Definition conj (A : array) : array := map (map conjugate) A.

Definition transpose (A : array) : array :=
  mk_array (length (hd [] A)) (length A) (fun i k => entry A k i).

Definition dot (A B : array) : array :=
  mk_array (length A) (length (hd [] B))
    (fun i k => sum (fun l => mul (entry A i l) (entry B l k))
                    (length (hd [] A))).

Definition np_kron (A B : array) : array :=
  mk_array (length A * length B) (length (hd [] A) * length (hd [] B))
    (fun i k => mul (entry A (i / length B) (k / length (hd [] B)))
                    (entry B (i mod length B) (k mod length (hd [] B)))).

Definition trace (A : array) : complex128 :=
  sum (fun i => entry A i i) (length A).

Definition setitem (b : list complex128) (k : nat) (v : complex128)
  : result (list complex128) :=
  if (k <? length b)%nat
  then ret (firstn k b ++ v :: skipn (Datatypes.S k) b)
  else raise IndexError.

Definition bitToVector (bitstring : str) : result array :=
  let n := length bitstring in
  k <- int2 bitstring ;;
  b <- setitem (np_zeros (2 ^ n)) k one ;;
  ret (map (fun x => [x]) b).

Definition invM (rho : array) (n : nat) : array :=
  np_subtract (scale (of_float (of_int (2 ^ Z.of_nat n + 1))) rho)
    (np_eye (2 ^ n)).

Definition getSnapshot (state Udg : array) (n : nat) : array :=
  let snapshot := dot Udg state in
  let snapshot := dot snapshot (transpose (conj snapshot)) in
  let snapshot := invM snapshot n in
  snapshot.

Definition clifford_snapshot (memory : str) (Udg : array) (nqubits : nat)
  : result array :=
  b <- bitToVector memory ;;
  ret (getSnapshot b Udg nqubits).

(** [np.array([[1,1],[1,-1]])/np.sqrt(2)], a division of doubles. *)
Definition Hmat : array :=
  map (map (fun x => of_float (x / sqrt 2))) [[1; 1]; [1; -1]].
Definition Smat : array := [[one; zero]; [zero; j]].
Definition Imat : array := np_eye 2.

Definition Udgs : list array := [Hmat; dot Smat Hmat; Imat].

Definition pauli_body (memory : str) (qbases : dict) (snapshot : array)
  (bit : nat) : result array :=
  c <- getitem memory bit ;;
  b <- bitToVector [c] ;;
  basis <- dict_get qbases bit ;;
  Udg <- getitem Udgs basis ;;
  let subsnapshot := getSnapshot b Udg 1 in
  ret (np_kron snapshot subsnapshot).

Fixpoint pauli_loop (memory : str) (qbases : dict) (bits : list nat)
  (snapshot : array) : result array :=
  match bits with
  | [] => ret snapshot
  | bit :: bits' =>
      snapshot' <- pauli_body memory qbases snapshot bit ;;
      pauli_loop memory qbases bits' snapshot'
  end.

Definition pauli_snapshot (memory : str) (qbases : dict) : result array :=
  let memory := rev memory in
  pauli_loop memory qbases (seq 0 (length memory)) [[one]].

(** A double that is a number: neither [nan] nor an infinity. *)
Definition finite (x : float64) : Prop :=
  match Prim2SF x with
  | S754_zero _ | S754_finite _ _ _ => True
  | _ => False
  end.

(** The rational number a finite double stands for. *)
Definition to_R (x : float64) : R :=
  match Prim2SF x with
  | S754_finite s m e =>
      let z := if s then Z.neg m else Z.pos m in
      if (0 <=? e)%Z then (IZR z * IZR (2 ^ e))%R
      else (IZR z / IZR (2 ^ (- e)))%R
  | _ => 0%R
  end.

(** Every finite double is a multiple of [2^-1074]; [scaled x] is the
    integer [x / 2^-1074]. *)
Definition scaled_of (f : spec_float) : Z :=
  match f with
  | S754_finite s m e => ((if s then Z.neg m else Z.pos m) * 2 ^ (e + 1074))%Z
  | _ => 0%Z
  end.

Definition scaled (x : float64) : Z := scaled_of (Prim2SF x).

End F64.

(** The gates [n_pauli_circuit] appends to its circuit. *)
Inductive instr : Type :=
  | h (qbit : nat)
  | sdg (qbit : nat)
  | measure_all.

(** The state of [np.random]: the stream of the draws to come, doubles. *)
Definition rng : Type := nat -> F64.float64.

(** [np.random.rand(1,1)] returns the next draw and advances the stream. *)
Definition rand (g : rng) : F64.float64 * rng :=
  (g 0, fun k => g (Datatypes.S k)).

Definition Rltb (x y : R) : bool := if Rlt_dec x y then true else false.
Definition Rleb (x y : R) : bool := if Rle_dec x y then true else false.
Definition Reqb (x y : R) : bool := if Req_dec_T x y then true else false.

Definition n_pauli_body (st : dict * list instr * rng) (qbit : nat)
  : dict * list instr * rng :=
  let '(qbases, qc, g) := st in
  let '(which_measure, g') := rand g in
  if F64.lt which_measure F64.third then
    (dict_set qbit 0 qbases, qc ++ [h qbit], g')
  else if F64.ge which_measure F64.third
          && F64.lt which_measure F64.two_thirds then
    (dict_set qbit 1 qbases, qc ++ [sdg qbit; h qbit], g')
  else
    (dict_set qbit 2 qbases, qc, g').

Definition n_pauli_circuit (n : nat) (g : rng) : dict * list instr * rng :=
  let '(qbases, qc, g') := fold_left n_pauli_body (seq 0 n) ([], [], g) in
  (qbases, qc ++ [measure_all], g').

(** The matrices [H], [S] and [I] of [get_pauli_shadow] (renamed: [S] and [I]
    are constructors of the standard library). *)
Definition Hmat : matrix := divide [[C1; C1]; [C1; Copp C1]] (sqrt 2).
Definition Smat : matrix := [[C1; C0]; [C0; Ci]].
Definition Imat : matrix := np_eye 2.

Definition Udgs : list matrix := [Hmat; dot Smat Hmat; Imat].

(** The body of the inner loop of [get_pauli_shadow]. *)
Definition pauli_body (memory : str) (qbases : dict) (snapshot : matrix)
  (bit : nat) : result matrix :=
  c <- getitem memory bit ;;
  b <- bitToVector [c] ;;
  basis <- dict_get qbases bit ;;
  Udg <- getitem Udgs basis ;;
  let subsnapshot := getSnapshot b Udg 1 in
  ret (np_kron snapshot subsnapshot).

Fixpoint pauli_loop (memory : str) (qbases : dict) (bits : list nat)
  (snapshot : matrix) : result matrix :=
  match bits with
  | [] => ret snapshot
  | bit :: bits' =>
      snapshot' <- pauli_body memory qbases snapshot bit ;;
      pauli_loop memory qbases bits' snapshot'
  end.

(** One iteration of the outer loop of [get_pauli_shadow], from the bitstring
    [memory] the backend returned and the [qbases] of [n_pauli_circuit].  The
    initial [snapshot = 1] is the 1-by-1 array [np.kron] promotes it to. *)
Definition pauli_snapshot (memory : str) (qbases : dict) : result matrix :=
  let memory := rev memory in
  pauli_loop memory qbases (seq 0 (length memory)) [[C1]].

Fixpoint get_pauli_shadow_loop (shots : list (dict * str))
  (shadow_pauli : list matrix) : result (list matrix) :=
  match shots with
  | [] => ret shadow_pauli
  | (qbases, memory) :: shots' =>
      snapshot <- pauli_snapshot memory qbases ;;
      get_pauli_shadow_loop shots' (shadow_pauli ++ [snapshot])
  end.

Definition get_pauli_shadow (shots : list (dict * str)) : result (list matrix) :=
  get_pauli_shadow_loop shots [].

(** ** Batches and estimators *)

(** [range(0, stop, step)] for [stop >= 0]. *)
Definition range0 (stop : nat) (step : Z) : result (list nat) :=
  if (step =? 0)%Z then raise ValueError
  else if (step <? 0)%Z then ret []
  else
    let n := Z.to_nat step in
    ret (map (fun j => j * n) (seq 0 ((stop + n - 1) / n))).

(** [lst[i:j]] for [0 <= i <= j]. *)
Definition slice {A : Type} (lst : list A) (i j : nat) : list A :=
  firstn (j - i) (skipn i lst).

(** [list(chunks(lst, n))] *)
Definition chunks {A : Type} (lst : list A) (n : Z) : result (list (list A)) :=
  idx <- range0 (length lst) n ;;
  ret (map (fun i => slice lst i (i + Z.to_nat n)) idx).

(** [reduce(f, l)] of functools, without an initial value. *)
Definition reduce {A : Type} (f : A -> A -> A) (l : list A) : result A :=
  match l with
  | [] => raise TypeError
  | x :: xs => ret (fold_left f xs x)
  end.

(** *** True division of integers

    Python's [N / K] on two [int]s is the double nearest to the exact
    quotient, ties going to the even significand; it raises ZeroDivisionError
    when [K] is zero and OverflowError when the rounded quotient leaves the
    range of the doubles.  [N] and [K] may exceed every double, so the
    quotient is rounded on the integers: a finite double is written here as
    the pair [(m, s)] that stands for [m / 2^s], with [|m| <= 2^53] and
    [s <= 1074]. *)

(** The integer nearest to [num / den], for [den > 0]; a tie goes to the even
    one. *)
Definition round_half_even (num den : Z) : Z :=
  let q := (num / den)%Z in
  let r := (num mod den)%Z in
  if (2 * r <? den)%Z then q
  else if (den <? 2 * r)%Z then (q + 1)%Z
  else if Z.even q then q else (q + 1)%Z.

(** [floor(log2(a / b))] for positive [a] and [b]. *)
Definition log2_quot (a b : Z) : Z :=
  let d := (Z.log2 a - Z.log2 b)%Z in
  if (if (0 <=? d)%Z then (b * 2 ^ d <=? a)%Z else (b <=? a * 2 ^ (- d))%Z)
  then d else (d - 1)%Z.

(** The significand and the scale of the double nearest to [a / b], for
    [a >= 0] and [b > 0]: 53 significant bits, or fewer below [2^-1022], where
    the doubles stand [2^-1074] apart. *)
Definition div_magnitude (a b : Z) : Z * Z :=
  if (a =? 0)%Z then (0%Z, 0%Z)
  else
    let s := Z.min 1074 (52 - log2_quot a b) in
    let m := if (0 <=? s)%Z then round_half_even (a * 2 ^ s) b
             else round_half_even a (b * 2 ^ (- s)) in
    (m, s).

(** [N / K] *)
Definition truediv (N K : Z) : result (Z * Z) :=
  if (K =? 0)%Z then raise ZeroDivisionError
  else
    let '(m, s) := div_magnitude (Z.abs N) (Z.abs K) in
    if (s <=? 0)%Z && (2 ^ 1024 <=? m * 2 ^ (- s))%Z then raise OverflowError
    else ret ((Z.sgn N * Z.sgn K * m)%Z, s).

(** [int(x)] of a finite double: truncation toward zero. *)
Definition py_int (x : Z * Z) : Z :=
  let '(m, s) := x in
  if (0 <=? s)%Z then Z.quot m (2 ^ s) else (m * 2 ^ (- s))%Z.

(** [np.floor(x)] of a finite double, an integer-valued double. *)
Definition np_floor (x : Z * Z) : Z :=
  let '(m, s) := x in
  if (0 <=? s)%Z then (m / 2 ^ s)%Z else (m * 2 ^ (- s))%Z.

(** [int(N/K)] *)
Definition int_truediv (N K : Z) : result Z :=
  x <- truediv N K ;;
  ret (py_int x).

(** [np.floor(N/K)], which the loop evaluates after [int(N/K)] has
    returned, hence where [N/K] raises nothing. *)
Definition floor_truediv (N K : Z) : R :=
  match truediv N K with
  | inr x => IZR (np_floor x)
  | inl _ => 0%R
  end.

Fixpoint estimators_loop (shades : list (list matrix)) (N K : Z)
  (estimators : list matrix) : result (list matrix) :=
  match shades with
  | [] => ret estimators
  | shade :: shades' =>
      total <- reduce np_add shade ;;
      estimators_loop shades' N K
        (estimators ++ [divide total (floor_truediv N K)])
  end.

Definition get_estimators (shadow : list matrix) (N K : Z)
  : result (list matrix) :=
  size <- int_truediv N K ;;
  shades <- chunks shadow size ;;
  estimators_loop shades N K [].

(** ** Median of means *)

Fixpoint insert_by {A : Type} (leb : A -> A -> bool) (x : A) (l : list A)
  : list A :=
  match l with
  | [] => [x]
  | y :: l' => if leb x y then x :: y :: l' else y :: insert_by leb x l'
  end.

Fixpoint sort_by {A : Type} (leb : A -> A -> bool) (l : list A) : list A :=
  match l with
  | [] => []
  | x :: l' => insert_by leb x (sort_by leb l')
  end.

(** numpy orders complex numbers by real part, then by imaginary part. *)
Definition Cleb (a b : C) : bool :=
  Rltb (real a) (real b) || (Reqb (real a) (real b) && Rleb (imag a) (imag b)).

Definition np_sort (a : list C) : list C := sort_by Cleb a.

(** [np.mean] of a 1-D array. *)
Definition np_mean (a : list C) : C :=
  Cdivr (fold_left Cadd a C0) (INR (length a)).

(** [np.median] of a 1-D array: the mean of the middle element, or of the two
    middle elements, of the array in sorted order; [None] is the [nan] numpy
    returns for an empty array. *)
Definition np_median (a : list C) : option C :=
  let sz := length a in
  if sz =? 0 then None
  else
    let part := np_sort a in
    let index := sz / 2 in
    if sz mod 2 =? 1 then Some (np_mean (slice part index (index + 1)))
    else Some (np_mean (slice part (index - 1) (index + 1))).

(** [np.real] *)
Definition np_real (z : option C) : option R := option_map real z.

Section Prediction.

(** [state_fidelity(psi, rho, validate=False)] of qiskit: the functional the
    notebook applies to every estimator. *)
Variable state : Type.
Variable state_fidelity : state -> matrix -> C.

Definition get_fidelity_prediction (estimators : list matrix) (psi : state)
  : option R :=
  let predictions := map (fun rho => state_fidelity psi rho) estimators in
  let prediction := np_real (np_median predictions) in
  prediction.

End Prediction.

(** ** The notions the specification is written in *)

(** An outcome: every character is ['0'] or ['1']. *)
Definition is_bitstring (outcome : str) : Prop :=
  Forall (fun c => c = "0"%char \/ c = "1"%char) outcome.

(** The integer value of a bitstring read in binary, most significant bit
    first. *)
Definition bit_value (c : ascii) : nat :=
  if Ascii.eqb c "1"%char then 1 else 0.

Fixpoint binary_value (outcome : str) : nat :=
  match outcome with
  | [] => 0
  | c :: rest => bit_value c * 2 ^ length rest + binary_value rest
  end.

(** The one-hot column vector of length [d] whose single 1 is at index [k]. *)
Definition one_hot (d k : nat) : matrix :=
  mk_matrix d 1 (fun i _ => if i =? k then C1 else C0).

(** A unitary [d]-by-[d] matrix. *)
Definition unitary (d : nat) (U : matrix) : Prop :=
  shape d d U /\ dot (adjoint U) U = np_eye d /\ dot U (adjoint U) = np_eye d.

(** A basis assignment for [n] qubits gives every qubit [0..n-1] a basis_id
    among X = 0, Y = 1, Z = 2. *)
Definition basis_assignment (n : nat) (qbases : dict) : Prop :=
  forall q, q < n -> exists basis, dict_get qbases q = inr basis /\ basis <= 2.

Definition basis_id (qbases : dict) (q : nat) : nat :=
  match dict_get qbases q with
  | inr basis => basis
  | inl _ => 0
  end.

(** The fixed conjugate-transpose unitary of a basis_id: Hadamard for X, the
    conjugate transpose of the composite S-dagger-then-Hadamard for Y,
    identity for Z. *)
Definition basis_unitary_dagger (basis : nat) : matrix :=
  match basis with
  | 0 => Hmat
  | 1 => adjoint (dot Hmat (adjoint Smat))
  | _ => np_eye 2
  end.

(** The per-qubit matrix [3 (Udg b) (Udg b)^dagger - I_2]. *)
Definition qubit_factor (basis bit : nat) : matrix :=
  let u := dot (basis_unitary_dagger basis) (one_hot 2 bit) in
  np_subtract (scale (RtoC 3) (dot u (adjoint u))) (np_eye 2).

(** The Kronecker product [M1 (x) M2 (x) ... (x) Mn] of a sequence. *)
Fixpoint kron_all (Ms : list matrix) : matrix :=
  match Ms with
  | [] => [[C1]]
  | [M] => M
  | M :: Ms' => np_kron M (kron_all Ms')
  end.

(** The per-qubit matrices of an outcome, in the order of the bits of the
    reversed outcome. *)
Definition qubit_factors (outcome : str) (qbases : dict) : list matrix :=
  map (fun i =>
         qubit_factor (basis_id qbases i)
           (bit_value (nth i (rev outcome) "0"%char)))
      (seq 0 (length outcome)).

(** The basis a draw selects: X if the draw is below the double [1/3], Y if
    it lies from the double [1/3] up to, and not reaching, the double [2/3],
    Z otherwise; and the gates that basis puts on the qubit. *)
Definition basis_of_draw (r : F64.float64) : nat :=
  if F64.lt r F64.third then 0
  else if F64.le F64.third r && F64.lt r F64.two_thirds then 1
  else 2.

Definition basis_gates (qbit basis : nat) : list instr :=
  match basis with
  | 0 => [h qbit]
  | 1 => [sdg qbit; h qbit]
  | _ => []
  end.

(** The gates of a circuit that act on one qubit, in order. *)
Definition acts_on (qbit : nat) (i : instr) : bool :=
  match i with
  | h q | sdg q => q =? qbit
  | measure_all => false
  end.

Definition gates_on (qbit : nat) (qc : list instr) : list instr :=
  filter (acts_on qbit) qc.

(** The arithmetic mean of a batch of snapshots: their elementwise sum
    divided by their number. *)
Definition matrix_sum (batch : list matrix) : matrix :=
  fold_left np_add (tl batch) (hd [] batch).

Definition batch_mean (batch : list matrix) : matrix :=
  divide (matrix_sum batch) (INR (length batch)).

(** Whether a call raised. *)
Definition raises {A : Type} (r : result A) : Prop := exists e, r = inl e.

(** The standard median of [K] values sorted by real part: the middle value
    for odd [K], the average of the two middle values for even [K]. *)
Definition sort_by_real (vals : list C) : list C :=
  sort_by (fun a b => Rleb (real a) (real b)) vals.

Definition median_by_real (vals : list C) : option C :=
  let K := length vals in
  let s := sort_by_real vals in
  if K =? 0 then None
  else if Nat.even K then
    Some (Cdivr (nth (K / 2 - 1) s C0 + nth (K / 2) s C0) 2)
  else Some (nth (K / 2) s C0).

(** The same on real numbers. *)
Definition Rsort (l : list R) : list R := sort_by Rleb l.

Definition median_R (l : list R) : option R :=
  let K := length l in
  let s := Rsort l in
  if K =? 0 then None
  else if Nat.even K then
    Some ((nth (K / 2 - 1) s 0 + nth (K / 2) s 0) / 2)%R
  else Some (nth (K / 2) s 0%R).

(** Corruption of batch values: [mask] marks the replaced entries.  The
    uncorrupted values are those the mask leaves alone. *)
Definition count_if {A : Type} (f : A -> bool) (l : list A) : nat :=
  length (filter f l).

Definition count_true (mask : list bool) : nat := count_if (fun b => b) mask.

Definition corrupted_variant (vals corrupted : list C) (mask : list bool)
  : Prop :=
  length corrupted = length vals /\ length mask = length vals /\
  forall i, i < length vals -> nth i mask true = false ->
            nth i corrupted C0 = nth i vals C0.

Definition uncorrupted (vals : list C) (mask : list bool) : list C :=
  map fst (filter (fun p => negb (snd p)) (combine vals mask)).

Fixpoint Rmaximum (l : list R) : R :=
  match l with
  | [] => 0
  | x :: l' =>
      match l' with
      | [] => x
      | _ => Rmax x (Rmaximum l')
      end
  end.

Fixpoint Rminimum (l : list R) : R :=
  match l with
  | [] => 0
  | x :: l' =>
      match l' with
      | [] => x
      | _ => Rmin x (Rminimum l')
      end
  end.

(** The measurement instruction of a circuit. *)
Definition is_measure (i : instr) : bool :=
  match i with
  | measure_all => true
  | _ => false
  end.

(** A decimal digit from 2 to 9: a character [int(_, 2)] rejects wherever it
    stands. *)
Definition is_other_digit (c : ascii) : bool :=
  (50 <=? nat_of_ascii c) && (nat_of_ascii c <=? 57).

(** A Hermitian [d]-by-[d] matrix. *)
Definition hermitian_matrix (d : nat) (M : matrix) : Prop :=
  shape d d M /\ hermitian M.

(** * Properties *)

Lemma C_eq (a b : C) : real a = real b -> imag a = imag b -> a = b.
Proof. destruct a, b; simpl; intros -> ->; reflexivity. Qed.

Ltac csolve :=
  intros;
  repeat match goal with z : C |- _ => destruct z end;
  apply C_eq; simpl; try ring; try lra.

Lemma C_ring_theory : ring_theory C0 C1 Cadd Cmul Csub Copp (@eq C).
Proof. constructor; csolve. Qed.

Add Ring C_ring : C_ring_theory.

Lemma Cconj_mul (a b : C) : Cconj (a * b) = (Cconj a * Cconj b)%C.
Proof. csolve. Qed.

Lemma Cconj_sub (a b : C) : Cconj (a - b) = (Cconj a - Cconj b)%C.
Proof. csolve. Qed.

Lemma Cconj_involutive (a : C) : Cconj (Cconj a) = a.
Proof. csolve. Qed.

Lemma Cconj_RtoC (x : R) : Cconj (RtoC x) = RtoC x.
Proof. unfold RtoC, Cconj; simpl. apply C_eq; simpl; lra. Qed.

Lemma RtoC_add (x y : R) : RtoC (x + y) = (RtoC x + RtoC y)%C.
Proof. apply C_eq; simpl; lra. Qed.

Lemma RtoC_mul (x y : R) : RtoC (x * y) = (RtoC x * RtoC y)%C.
Proof. apply C_eq; simpl; lra. Qed.

Lemma Csum_S (f : nat -> C) (n : nat) : Csum f (S n) = (Csum f n + f n)%C.
Proof. reflexivity. Qed.

Lemma Csum_ext (f g : nat -> C) (n : nat) :
  (forall i, i < n -> f i = g i) -> Csum f n = Csum g n.
Proof.
  induction n as [|n IH]; intros H; simpl; [reflexivity|].
  rewrite IH by (intros; apply H; lia).
  rewrite (H n) by lia. reflexivity.
Qed.

Lemma Csum_zero (n : nat) : Csum (fun _ => C0) n = C0.
Proof. induction n as [|n IH]; simpl; [reflexivity|rewrite IH; ring]. Qed.

Lemma Csum_add (f g : nat -> C) (n : nat) :
  Csum (fun i => (f i + g i)%C) n = (Csum f n + Csum g n)%C.
Proof. induction n as [|n IH]; simpl; [ring|rewrite IH; ring]. Qed.

Lemma Csum_sub (f g : nat -> C) (n : nat) :
  Csum (fun i => (f i - g i)%C) n = (Csum f n - Csum g n)%C.
Proof. induction n as [|n IH]; simpl; [ring|rewrite IH; ring]. Qed.

Lemma Csum_scale_l (c : C) (f : nat -> C) (n : nat) :
  Csum (fun i => (c * f i)%C) n = (c * Csum f n)%C.
Proof. induction n as [|n IH]; simpl; [ring|rewrite IH; ring]. Qed.

Lemma Csum_scale_r (c : C) (f : nat -> C) (n : nat) :
  Csum (fun i => (f i * c)%C) n = (Csum f n * c)%C.
Proof. induction n as [|n IH]; simpl; [ring|rewrite IH; ring]. Qed.

Lemma Csum_const_one (n : nat) : Csum (fun _ => C1) n = RtoC (INR n).
Proof.
  induction n as [|n IH]; [reflexivity|].
  change (Csum (fun _ => C1) (S n)) with (Csum (fun _ => C1) n + C1)%C.
  rewrite IH, S_INR. unfold C1. rewrite <- RtoC_add. reflexivity.
Qed.

(** A sum against an indicator keeps the single selected term. *)
Lemma Csum_indicator (f : nat -> C) (k n : nat) :
  k < n ->
  Csum (fun i => (f i * (if i =? k then C1 else C0))%C) n = f k.
Proof.
  induction n as [|n IH]; intros Hk; [lia|]. simpl.
  destruct (Nat.eq_dec k n) as [->|Hne].
  - rewrite Nat.eqb_refl.
    rewrite (Csum_ext (fun i => (f i * (if i =? n then C1 else C0))%C)
                      (fun _ => C0)).
    + rewrite Csum_zero. ring.
    + intros i Hi. destruct (Nat.eqb_spec i n); [lia|ring].
  - rewrite IH by lia. destruct (Nat.eqb_spec n k); [lia|ring].
Qed.

(** Re-indexing a sum over [m*p] indices as a product of two sums: the
    arithmetic behind the trace of a Kronecker product. *)
Lemma Csum_product (f g : nat -> C) (m p : nat) :
  Csum (fun i => (f (i / p) * g (i mod p))%C) (m * p) =
  (Csum f m * Csum g p)%C.
Proof.
  destruct p as [|p'].
  - rewrite Nat.mul_0_r. simpl. ring.
  - set (p := S p'). induction m as [|m IH]; [simpl; ring|].
    assert (Hshift : forall q,
      q <= p ->
      Csum (fun i => (f (i / p) * g (i mod p))%C) (m * p + q) =
      (Csum f m * Csum g p + f m * Csum g q)%C).
    { induction q as [|q IHq]; intros Hq.
      - rewrite Nat.add_0_r, IH. simpl. ring.
      - rewrite Nat.add_succ_r, Csum_S, IHq by lia.
        assert (Hd : (m * p + q) / p = m).
        { rewrite Nat.add_comm, Nat.div_add by (unfold p; lia).
          rewrite Nat.div_small by lia. reflexivity. }
        assert (Hm : (m * p + q) mod p = q).
        { rewrite Nat.add_comm, Nat.Div0.mod_add.
          apply Nat.mod_small. lia. }
        rewrite Hd, Hm, Csum_S. ring. }
    replace (S m * p) with (m * p + p) by lia.
    rewrite Hshift by lia. rewrite Csum_S. ring.
Qed.

(** ** Arrays: shapes and entries *)

Lemma mk_matrix_nrows (r c : nat) (f : nat -> nat -> C) :
  nrows (mk_matrix r c f) = r.
Proof. unfold nrows, mk_matrix. rewrite length_map, length_seq. reflexivity. Qed.

Lemma mk_matrix_shape (r c : nat) (f : nat -> nat -> C) :
  shape r c (mk_matrix r c f).
Proof.
  split; [apply mk_matrix_nrows|].
  unfold mk_matrix. apply Forall_forall. intros row Hin.
  apply in_map_iff in Hin. destruct Hin as [i [<- _]].
  rewrite length_map, length_seq. reflexivity.
Qed.

Lemma shape_nrows (r c : nat) (M : matrix) : shape r c M -> nrows M = r.
Proof. intros [H _]. exact H. Qed.

Lemma shape_ncols (r c : nat) (M : matrix) :
  shape r c M -> 0 < r -> ncols M = c.
Proof.
  intros [Hr Hc] Hpos. unfold ncols. destruct M as [|row M]; simpl in *.
  - lia.
  - inversion Hc; assumption.
Qed.

Lemma shape_row (r c : nat) (M : matrix) (i : nat) :
  shape r c M -> i < r -> length (nth i M []) = c.
Proof.
  intros [Hr Hc] Hi. rewrite Forall_forall in Hc.
  apply Hc. apply nth_In. lia.
Qed.

Lemma entry_mk_matrix (r c : nat) (f : nat -> nat -> C) (i j : nat) :
  i < r -> j < c -> entry (mk_matrix r c f) i j = f i j.
Proof.
  intros Hi Hj. unfold entry, mk_matrix.
  rewrite (nth_indep _ [] (map (fun j => f 0 j) (seq 0 c)))
    by (rewrite length_map, length_seq; exact Hi).
  rewrite (map_nth (fun i => map (fun j => f i j) (seq 0 c)) (seq 0 r) 0 i).
  rewrite seq_nth by exact Hi. simpl.
  rewrite (nth_indep _ C0 (f i 0))
    by (rewrite length_map, length_seq; exact Hj).
  rewrite (map_nth (fun j => f i j) (seq 0 c) 0 j).
  rewrite seq_nth by exact Hj. reflexivity.
Qed.

Lemma list_ext (A : Type) (d : A) (l1 l2 : list A) :
  length l1 = length l2 ->
  (forall i, i < length l1 -> nth i l1 d = nth i l2 d) ->
  l1 = l2.
Proof.
  revert l2. induction l1 as [|a l1 IH]; intros [|b l2] Hlen Hnth;
    simpl in Hlen; try discriminate; [reflexivity|].
  f_equal.
  - apply (Hnth 0). simpl. lia.
  - apply IH; [lia|]. intros i Hi. apply (Hnth (Datatypes.S i)). simpl. lia.
Qed.

(** Two arrays of one shape with the same entries are the same array. *)
Lemma matrix_ext (r c : nat) (A B : matrix) :
  shape r c A -> shape r c B ->
  (forall i j, i < r -> j < c -> entry A i j = entry B i j) ->
  A = B.
Proof.
  intros HA HB Hent.
  apply (list_ext []).
  - destruct HA as [-> _], HB as [-> _]. reflexivity.
  - intros i Hi. assert (Hir : i < r) by (destruct HA as [<- _]; exact Hi).
    apply (list_ext C0).
    + rewrite (shape_row HA Hir), (shape_row HB Hir). reflexivity.
    + intros j Hj. rewrite (shape_row HA Hir) in Hj.
      apply (Hent i j Hir Hj).
Qed.

Lemma mk_matrix_ext (r c : nat) (f g : nat -> nat -> C) :
  (forall i j, i < r -> j < c -> f i j = g i j) ->
  mk_matrix r c f = mk_matrix r c g.
Proof.
  intros Hfg. apply (@matrix_ext r c); try apply mk_matrix_shape.
  intros i j Hi Hj. rewrite !entry_mk_matrix by assumption. auto.
Qed.

Lemma mk_matrix_entry (r c : nat) (M : matrix) :
  shape r c M -> mk_matrix r c (entry M) = M.
Proof.
  intros HM. apply (@matrix_ext r c); [apply mk_matrix_shape|exact HM|].
  intros i j Hi Hj. apply entry_mk_matrix; assumption.
Qed.

(** Elementwise operations. *)

Lemma map2_length (A B D : Type) (f : A -> B -> D) (l1 : list A) (l2 : list B) :
  length l1 = length l2 -> length (map2 f l1 l2) = length l1.
Proof.
  revert l2. induction l1 as [|a l1 IH]; intros [|b l2] H; simpl in *;
    try discriminate; [reflexivity|]. f_equal. apply IH. lia.
Qed.

Lemma map2_nth (A B D : Type) (f : A -> B -> D) (l1 : list A) (l2 : list B)
  (da : A) (db : B) (dd : D) (i : nat) :
  length l1 = length l2 -> i < length l1 ->
  nth i (map2 f l1 l2) dd = f (nth i l1 da) (nth i l2 db).
Proof.
  revert l2 i. induction l1 as [|a l1 IH]; intros [|b l2] i Hlen Hi;
    simpl in *; try discriminate; try lia.
  destruct i as [|i]; [reflexivity|]. apply IH; lia.
Qed.

Lemma shape_map (f : C -> C) (r c : nat) (M : matrix) :
  shape r c M -> shape r c (map (map f) M).
Proof.
  intros [Hr Hc]. split; [rewrite length_map; exact Hr|].
  apply Forall_forall. intros row Hin. apply in_map_iff in Hin.
  destruct Hin as [row' [<- Hin']]. rewrite length_map.
  rewrite Forall_forall in Hc. auto.
Qed.

Lemma entry_map (f : C -> C) (r c : nat) (M : matrix) (i j : nat) :
  shape r c M -> i < r -> j < c ->
  entry (map (map f) M) i j = f (entry M i j).
Proof.
  intros HM Hi Hj. unfold entry.
  rewrite (nth_indep _ [] (map f [])) by (rewrite length_map; destruct HM; lia).
  rewrite (map_nth (map f) M [] i).
  rewrite (nth_indep _ C0 (f C0))
    by (rewrite length_map, (shape_row HM Hi); exact Hj).
  apply map_nth.
Qed.

Lemma shape_map2 (f : C -> C -> C) (r c : nat) (A B : matrix) :
  shape r c A -> shape r c B -> shape r c (map2 (map2 f) A B).
Proof.
  intros HA HB. split.
  - rewrite map2_length; destruct HA, HB; congruence.
  - apply Forall_forall. intros row Hin.
    apply (In_nth _ _ []) in Hin. destruct Hin as [i [Hi <-]].
    rewrite map2_length in Hi by (destruct HA, HB; congruence).
    assert (Hir : i < r) by (destruct HA as [<- _]; exact Hi).
    rewrite (map2_nth (map2 f) A B [] [] [] ) by
      (destruct HA, HB; congruence || lia).
    rewrite map2_length; rewrite (shape_row HA Hir); [reflexivity|].
    rewrite (shape_row HB Hir). reflexivity.
Qed.

Lemma entry_map2 (f : C -> C -> C) (r c : nat) (A B : matrix) (i j : nat) :
  shape r c A -> shape r c B -> i < r -> j < c ->
  entry (map2 (map2 f) A B) i j = f (entry A i j) (entry B i j).
Proof.
  intros HA HB Hi Hj. unfold entry.
  rewrite (map2_nth (map2 f) A B [] [] []) by
    (destruct HA, HB; congruence || lia).
  apply map2_nth.
  - rewrite (shape_row HA Hi), (shape_row HB Hi). reflexivity.
  - rewrite (shape_row HA Hi). exact Hj.
Qed.

Lemma np_eye_shape (d : nat) : shape d d (np_eye d).
Proof. apply mk_matrix_shape. Qed.

Lemma entry_np_eye (d i j : nat) :
  i < d -> j < d -> entry (np_eye d) i j = if i =? j then C1 else C0.
Proof. intros. unfold np_eye. rewrite entry_mk_matrix by assumption. reflexivity. Qed.

Lemma conj_shape (r c : nat) (A : matrix) : shape r c A -> shape r c (conj A).
Proof. apply shape_map. Qed.

Lemma entry_conj (r c : nat) (A : matrix) (i j : nat) :
  shape r c A -> i < r -> j < c -> entry (conj A) i j = Cconj (entry A i j).
Proof. apply entry_map. Qed.

Lemma transpose_shape (r c : nat) (A : matrix) :
  shape r c A -> 0 < r -> shape c r (transpose A).
Proof.
  intros HA Hr. unfold transpose.
  rewrite (shape_ncols HA Hr), (shape_nrows HA). apply mk_matrix_shape.
Qed.

Lemma entry_transpose (r c : nat) (A : matrix) (i j : nat) :
  shape r c A -> i < c -> j < r -> entry (transpose A) i j = entry A j i.
Proof.
  intros HA Hi Hj. unfold transpose.
  rewrite (shape_ncols HA) by lia. rewrite (shape_nrows HA).
  rewrite entry_mk_matrix by assumption. reflexivity.
Qed.

Lemma adjoint_shape (r c : nat) (A : matrix) :
  shape r c A -> 0 < r -> shape c r (adjoint A).
Proof. intros HA Hr. apply transpose_shape; [apply conj_shape; exact HA|exact Hr]. Qed.

Lemma entry_adjoint (r c : nat) (A : matrix) (i j : nat) :
  shape r c A -> i < c -> j < r ->
  entry (adjoint A) i j = Cconj (entry A j i).
Proof.
  intros HA Hi Hj. unfold adjoint.
  rewrite (entry_transpose (conj_shape HA)) by assumption.
  apply (entry_conj HA); assumption.
Qed.

Lemma dot_shape (r m c : nat) (A B : matrix) :
  shape r m A -> shape m c B -> 0 < m -> shape r c (dot A B).
Proof.
  intros HA HB Hm. unfold dot.
  rewrite (shape_nrows HA), (shape_ncols HB Hm). apply mk_matrix_shape.
Qed.

Lemma entry_dot (r m c : nat) (A B : matrix) (i j : nat) :
  shape r m A -> shape m c B -> 0 < m -> i < r -> j < c ->
  entry (dot A B) i j = Csum (fun k => (entry A i k * entry B k j)%C) m.
Proof.
  intros HA HB Hm Hi Hj. unfold dot.
  rewrite (shape_nrows HA), (shape_ncols HB Hm), (shape_ncols HA) by lia.
  rewrite entry_mk_matrix by assumption. reflexivity.
Qed.

Lemma np_kron_shape (r c r' c' : nat) (A B : matrix) :
  shape r c A -> shape r' c' B -> 0 < r -> 0 < r' ->
  shape (r * r') (c * c') (np_kron A B).
Proof.
  intros HA HB Hr Hr'. unfold np_kron.
  rewrite (shape_nrows HA), (shape_nrows HB),
    (shape_ncols HA Hr), (shape_ncols HB Hr').
  apply mk_matrix_shape.
Qed.

Lemma entry_np_kron (r c r' c' : nat) (A B : matrix) (i j : nat) :
  shape r c A -> shape r' c' B -> 0 < r -> 0 < r' ->
  i < r * r' -> j < c * c' ->
  entry (np_kron A B) i j =
  (entry A (i / r') (j / c') * entry B (i mod r') (j mod c'))%C.
Proof.
  intros HA HB Hr Hr' Hi Hj. unfold np_kron.
  rewrite (shape_nrows HA), (shape_nrows HB),
    (shape_ncols HA Hr), (shape_ncols HB Hr').
  rewrite entry_mk_matrix by assumption. reflexivity.
Qed.

(** ** bitToVector *)

Lemma is_bitstring_digit2 (c : ascii) :
  c = "0"%char \/ c = "1"%char -> digit2 c = Some (bit_value c).
Proof. intros [-> | ->]; reflexivity. Qed.

Lemma int2_digits_value (s : str) (acc : nat) :
  is_bitstring s ->
  int2_digits s acc = inr (acc * 2 ^ length s + binary_value s).
Proof.
  revert acc. induction s as [|c s IH]; intros acc Hs.
  - simpl. unfold ret. f_equal. lia.
  - inversion Hs as [|? ? Hc Hs']; subst.
    cbn [int2_digits]. rewrite (is_bitstring_digit2 Hc), (IH _ Hs').
    f_equal. cbn [length binary_value]. rewrite Nat.pow_succ_r'. lia.
Qed.

Lemma int2_value (s : str) :
  is_bitstring s -> s <> [] -> int2 s = inr (binary_value s).
Proof.
  intros Hs Hne. destruct s as [|c s]; [congruence|].
  unfold int2. rewrite (int2_digits_value 0 Hs). f_equal.
Qed.

Lemma bit_value_le (c : ascii) : bit_value c <= 1.
Proof. unfold bit_value. destruct (Ascii.eqb c "1"); lia. Qed.

Lemma binary_value_bound (s : str) : binary_value s < 2 ^ length s.
Proof.
  induction s as [|c s IH]; simpl; [lia|].
  pose proof (bit_value_le c).
  assert (bit_value c * 2 ^ length s <= 2 ^ length s) by nia. lia.
Qed.

Lemma map_const_seq (A : Type) (c : A) (start d : nat) :
  map (fun _ => c) (seq start d) = repeat c d.
Proof.
  revert start. induction d as [|d IH]; intros start; simpl; [reflexivity|].
  f_equal. apply IH.
Qed.

Lemma setitem_zeros (d k : nat) :
  k < d ->
  firstn k (np_zeros d) ++ C1 :: skipn (Datatypes.S k) (np_zeros d) =
  map (fun i => if i =? k then C1 else C0) (seq 0 d).
Proof.
  unfold np_zeros. revert k. induction d as [|d IH]; intros k Hk; [lia|].
  destruct k as [|k].
  - cbn [repeat firstn skipn app seq map Nat.eqb]. f_equal.
    rewrite <- seq_shift, map_map. cbn [Nat.eqb].
    symmetry. apply map_const_seq.
  - change (repeat C0 (Datatypes.S d)) with (C0 :: repeat C0 d).
    rewrite firstn_cons, skipn_cons.
    cbn [app seq map Nat.eqb]. f_equal.
    rewrite (IH k) by lia. rewrite <- seq_shift, map_map. reflexivity.
Qed.

Lemma as_column_one_hot (d k : nat) :
  as_column (map (fun i => if i =? k then C1 else C0) (seq 0 d)) = one_hot d k.
Proof. unfold as_column, one_hot, mk_matrix. rewrite map_map. reflexivity. Qed.

(** On an outcome, [bitToVector] returns the one-hot column vector at the
    binary value of the outcome. *)
Lemma bitToVector_one_hot (outcome : str) :
  is_bitstring outcome -> outcome <> [] ->
  bitToVector outcome =
  inr (one_hot (2 ^ length outcome) (binary_value outcome)).
Proof.
  intros Hs Hne. unfold bitToVector.
  rewrite (int2_value Hs Hne). cbn [bind]. unfold setitem.
  pose proof (binary_value_bound outcome) as Hb.
  unfold np_zeros at 1. rewrite repeat_length.
  destruct (Nat.ltb_spec (binary_value outcome) (2 ^ length outcome)); [|lia].
  cbn [bind ret]. rewrite setitem_zeros by exact Hb.
  rewrite as_column_one_hot. reflexivity.
Qed.

Lemma one_hot_shape (d k : nat) : shape d 1 (one_hot d k).
Proof. apply mk_matrix_shape. Qed.

Lemma entry_one_hot (d k i : nat) :
  i < d -> entry (one_hot d k) i 0 = if i =? k then C1 else C0.
Proof.
  intros Hi. unfold one_hot. rewrite entry_mk_matrix by lia. reflexivity.
Qed.

(** ** The global snapshot *)

Lemma INR_pow2 (n : nat) : INR (2 ^ n + 1) = (2 ^ n + 1)%R.
Proof.
  rewrite plus_INR, pow_INR.
  replace (INR 2) with 2%R by (simpl; lra).
  replace (INR 1) with 1%R by reflexivity. reflexivity.
Qed.

Lemma pow2_pos (n : nat) : 0 < 2 ^ n.
Proof. pose proof (Nat.pow_nonzero 2 n). lia. Qed.

(** The rotated ket [Udg . b] is column [k] of [Udg]. *)
Lemma dot_one_hot_shape (d k : nat) (Udg : matrix) :
  shape d d Udg -> 0 < d -> shape d 1 (dot Udg (one_hot d k)).
Proof. intros HU Hd. apply (dot_shape HU (one_hot_shape d k) Hd). Qed.

Lemma entry_dot_one_hot (d k i : nat) (Udg : matrix) :
  shape d d Udg -> k < d -> i < d ->
  entry (dot Udg (one_hot d k)) i 0 = entry Udg i k.
Proof.
  intros HU Hk Hi.
  rewrite (entry_dot HU (one_hot_shape d k)) by lia.
  rewrite (Csum_ext _ (fun j => (entry Udg i j * (if j =? k then C1 else C0))%C)).
  - apply (Csum_indicator (fun j => entry Udg i j)). exact Hk.
  - intros j Hj. rewrite entry_one_hot by exact Hj. reflexivity.
Qed.

Lemma outer_shape (d : nat) (u : matrix) :
  shape d 1 u -> 0 < d -> shape d d (dot u (transpose (conj u))).
Proof.
  intros Hu Hd.
  apply (@dot_shape d 1 d); [exact Hu| |lia].
  apply transpose_shape; [apply conj_shape; exact Hu|exact Hd].
Qed.

Lemma entry_outer (d : nat) (u : matrix) (i j : nat) :
  shape d 1 u -> i < d -> j < d ->
  entry (dot u (transpose (conj u))) i j =
  (entry u i 0 * Cconj (entry u j 0))%C.
Proof.
  intros Hu Hi Hj.
  assert (Hd : 0 < d) by lia.
  assert (Ht : shape 1 d (transpose (conj u)))
    by (apply transpose_shape; [apply conj_shape; exact Hu|exact Hd]).
  rewrite (entry_dot Hu Ht) by lia.
  cbn [Csum].
  rewrite (entry_transpose (conj_shape Hu)) by lia.
  rewrite (entry_conj Hu) by lia. ring.
Qed.

Lemma invM_shape (n : nat) (rho : matrix) :
  shape (2 ^ n) (2 ^ n) rho -> shape (2 ^ n) (2 ^ n) (invM rho n).
Proof.
  intros Hr. unfold invM, np_subtract, scale.
  apply shape_map2; [apply shape_map; exact Hr|apply np_eye_shape].
Qed.

Lemma entry_invM (n : nat) (rho : matrix) (i j : nat) :
  shape (2 ^ n) (2 ^ n) rho -> i < 2 ^ n -> j < 2 ^ n ->
  entry (invM rho n) i j =
  (RtoC (2 ^ n + 1) * entry rho i j - (if i =? j then C1 else C0))%C.
Proof.
  intros Hr Hi Hj. unfold invM, np_subtract, scale.
  rewrite (@entry_map2 Csub (2 ^ n) (2 ^ n))
    by (try apply shape_map; try apply np_eye_shape; assumption).
  rewrite (entry_map _ Hr) by assumption.
  rewrite entry_np_eye by assumption. rewrite INR_pow2. reflexivity.
Qed.

Lemma getSnapshot_shape (n k : nat) (Udg : matrix) :
  shape (2 ^ n) (2 ^ n) Udg ->
  shape (2 ^ n) (2 ^ n) (getSnapshot (one_hot (2 ^ n) k) Udg n).
Proof.
  intros HU. unfold getSnapshot. apply invM_shape.
  apply outer_shape; [|apply pow2_pos].
  apply dot_one_hot_shape; [exact HU|apply pow2_pos].
Qed.

(** Entry [(i, j)] of a global snapshot, in terms of column [k] of [Udg]. *)
Lemma entry_getSnapshot (n k : nat) (Udg : matrix) (i j : nat) :
  shape (2 ^ n) (2 ^ n) Udg -> k < 2 ^ n -> i < 2 ^ n -> j < 2 ^ n ->
  entry (getSnapshot (one_hot (2 ^ n) k) Udg n) i j =
  (RtoC (2 ^ n + 1) * (entry Udg i k * Cconj (entry Udg j k))
   - (if i =? j then C1 else C0))%C.
Proof.
  intros HU Hk Hi Hj. unfold getSnapshot.
  assert (Hu : shape (2 ^ n) 1 (dot Udg (one_hot (2 ^ n) k)))
    by (apply dot_one_hot_shape; [exact HU|apply pow2_pos]).
  rewrite entry_invM; try assumption;
    [|apply outer_shape; [exact Hu|apply pow2_pos]].
  rewrite (entry_outer Hu) by assumption.
  rewrite !(entry_dot_one_hot HU) by assumption. reflexivity.
Qed.

(** C2.  For every [n >= 1], every outcome bitstring of length [n] and every
    [2^n]-by-[2^n] complex matrix [Udg], the snapshot built from the outcome
    by [bitToVector] and [getSnapshot] is exactly
    [(2^n + 1) (Udg b) (Udg b)^dagger - I], where [b] is the one-hot column
    vector of length [2^n] whose 1 sits at the binary value of the outcome;
    entrywise, it is [(2^n + 1) Udg[i,k] conj(Udg[j,k]) - [i = j]] for
    [k] that binary value. *)
Theorem clifford_snapshot_formula (n : nat) (outcome : str) (Udg : matrix) :
  1 <= n -> length outcome = n -> is_bitstring outcome ->
  shape (2 ^ n) (2 ^ n) Udg ->
  let k := binary_value outcome in
  let b := one_hot (2 ^ n) k in
  let expected :=
    np_subtract
      (scale (RtoC (2 ^ n + 1)) (dot (dot Udg b) (adjoint (dot Udg b))))
      (np_eye (2 ^ n)) in
  k < 2 ^ n /\
  clifford_snapshot outcome Udg n = inr expected /\
  shape (2 ^ n) (2 ^ n) expected /\
  forall i j, i < 2 ^ n -> j < 2 ^ n ->
    entry expected i j =
    (RtoC (2 ^ n + 1) * (entry Udg i k * Cconj (entry Udg j k))
     - (if i =? j then C1 else C0))%C.
Proof.
  intros Hn Hlen Hbits HU k b expected.
  assert (Hk : k < 2 ^ n).
  { unfold k. rewrite <- Hlen. apply binary_value_bound. }
  assert (Hne : outcome <> []) by (destruct outcome; simpl in Hlen; [lia|congruence]).
  assert (Hexp : expected = getSnapshot b Udg n).
  { unfold expected, getSnapshot, invM, adjoint. rewrite INR_pow2. reflexivity. }
  split; [exact Hk|]. split; [|split].
  - unfold clifford_snapshot.
    rewrite (bitToVector_one_hot Hbits Hne), Hlen. cbn [bind ret].
    rewrite Hexp. reflexivity.
  - rewrite Hexp. apply getSnapshot_shape. exact HU.
  - intros i j Hi Hj. rewrite Hexp. apply entry_getSnapshot; assumption.
Qed.

Lemma clifford_snapshot_formula_witness :
  let n := 1 in
  let outcome := ["1"%char] in
  let Udg := np_eye 2 in
  (1 <= n /\ length outcome = n /\ is_bitstring outcome /\
   shape (2 ^ n) (2 ^ n) Udg) /\
  clifford_snapshot outcome Udg n =
  inr (np_subtract
         (scale (RtoC (2 ^ n + 1))
            (dot (dot Udg (one_hot (2 ^ n) 1))
               (adjoint (dot Udg (one_hot (2 ^ n) 1)))))
         (np_eye (2 ^ n))).
Proof.
  intros n outcome Udg.
  assert (H1 : 1 <= n) by (unfold n; lia).
  assert (H2 : length outcome = n) by reflexivity.
  assert (H3 : is_bitstring outcome) by (repeat constructor).
  assert (H4 : shape (2 ^ n) (2 ^ n) Udg) by apply np_eye_shape.
  split; [auto|].
  apply (clifford_snapshot_formula H1 H2 H3 H4).
Defined.

(** ** Hermiticity and trace of the global snapshot *)

Lemma unitary_column_norm (d k : nat) (U : matrix) :
  unitary d U -> k < d ->
  Csum (fun i => (entry U i k * Cconj (entry U i k))%C) d = C1.
Proof.
  intros [HU [HUU _]] Hk.
  assert (Hd : 0 < d) by lia.
  assert (He : entry (dot (adjoint U) U) k k = C1).
  { rewrite HUU, entry_np_eye by exact Hk. rewrite Nat.eqb_refl. reflexivity. }
  rewrite (entry_dot (adjoint_shape HU Hd) HU) in He by assumption.
  rewrite <- He. apply Csum_ext. intros i Hi.
  rewrite (entry_adjoint HU) by assumption. ring.
Qed.

Lemma getSnapshot_hermitian (n k : nat) (Udg : matrix) :
  shape (2 ^ n) (2 ^ n) Udg -> k < 2 ^ n ->
  hermitian (getSnapshot (one_hot (2 ^ n) k) Udg n).
Proof.
  intros HU Hk. unfold hermitian.
  pose proof (getSnapshot_shape n k HU) as HS.
  apply (@matrix_ext (2 ^ n) (2 ^ n)).
  - apply adjoint_shape; [exact HS|apply pow2_pos].
  - exact HS.
  - intros i j Hi Hj.
    rewrite (entry_adjoint HS) by assumption.
    rewrite !entry_getSnapshot by assumption.
    rewrite Cconj_sub, !Cconj_mul, Cconj_involutive, Cconj_RtoC.
    rewrite (Nat.eqb_sym j i).
    destruct (i =? j); unfold C1, C0; rewrite Cconj_RtoC; ring.
Qed.

Lemma getSnapshot_trace (n k : nat) (Udg : matrix) :
  unitary (2 ^ n) Udg -> k < 2 ^ n ->
  trace (getSnapshot (one_hot (2 ^ n) k) Udg n) = C1.
Proof.
  intros HUn Hk. pose proof HUn as [HU _].
  unfold trace. rewrite (shape_nrows (getSnapshot_shape n k HU)).
  rewrite (Csum_ext _ (fun i =>
    (RtoC (2 ^ n + 1) * (entry Udg i k * Cconj (entry Udg i k)) - C1)%C)).
  - rewrite Csum_sub, Csum_scale_l, (unitary_column_norm HUn Hk).
    rewrite Csum_const_one, pow_INR.
    replace (INR 2) with 2%R by (simpl; lra).
    apply C_eq; simpl; ring.
  - intros i Hi. rewrite entry_getSnapshot by assumption.
    rewrite Nat.eqb_refl. reflexivity.
Qed.

(** C4, amended.  For every [n >= 1], every outcome bitstring of length [n]
    and every unitary [2^n]-by-[2^n] matrix [Udg], the matrix
    [(2^n + 1) M0 - I] that [getSnapshot] evaluates is, in exact complex
    arithmetic, Hermitian and of trace exactly 1. *)
Theorem clifford_snapshot_hermitian_trace (n : nat) (outcome : str)
  (Udg : matrix) :
  1 <= n -> length outcome = n -> is_bitstring outcome ->
  unitary (2 ^ n) Udg ->
  exists snapshot,
    clifford_snapshot outcome Udg n = inr snapshot /\
    hermitian snapshot /\ trace snapshot = C1.
Proof.
  intros Hn Hlen Hbits HUn. pose proof HUn as [HU _].
  assert (Hk : binary_value outcome < 2 ^ n).
  { rewrite <- Hlen. apply binary_value_bound. }
  assert (Hne : outcome <> []) by (destruct outcome; simpl in Hlen; [lia|congruence]).
  exists (getSnapshot (one_hot (2 ^ n) (binary_value outcome)) Udg n).
  split; [|split].
  - unfold clifford_snapshot.
    rewrite (bitToVector_one_hot Hbits Hne), Hlen. reflexivity.
  - apply getSnapshot_hermitian; assumption.
  - apply getSnapshot_trace; assumption.
Qed.

Ltac matrix_compute :=
  cbv [dot adjoint transpose conj np_eye mk_matrix nrows ncols entry
       np_subtract np_add scale divide np_kron map2 map seq nth hd length
       Csum Nat.eqb Nat.mul Nat.add Nat.pow Nat.div Nat.modulo Nat.divmod
       fst snd Nat.sub one_hot];
  repeat (f_equal; try reflexivity).

Lemma np_eye_unitary_2 : unitary 2 (np_eye 2).
Proof.
  split; [apply np_eye_shape|]. split.
  - matrix_compute. all: apply C_eq; simpl; lra.
  - matrix_compute. all: apply C_eq; simpl; lra.
Defined.

Lemma inv_sqrt2_sqr : (/ sqrt 2 * / sqrt 2 = / 2)%R.
Proof.
  rewrite <- Rinv_mult, sqrt_sqrt by lra. reflexivity.
Qed.

(** Closes the scalar goals that arise from the fixed 2-by-2 matrices: they
    are polynomial in [/ sqrt 2], whose square is [/ 2]. *)
Ltac sqrt2_solve :=
  apply C_eq; simpl; unfold Rdiv;
  generalize inv_sqrt2_sqr; generalize (/ sqrt 2)%R; intros; nra.

Lemma Hmat_shape : shape 2 2 Hmat.
Proof. split; [reflexivity|repeat constructor]. Qed.

Lemma Hmat_unitary : unitary 2 Hmat.
Proof.
  split; [apply Hmat_shape|]. unfold Hmat. split.
  - matrix_compute. all: sqrt2_solve.
  - matrix_compute. all: sqrt2_solve.
Defined.

(** ** Kronecker products *)

Lemma index_split (i b c : nat) :
  0 < c ->
  i / (b * c) = i / c / b /\
  (i mod (b * c)) / c = (i / c) mod b /\
  (i mod (b * c)) mod c = i mod c.
Proof.
  intros Hc. rewrite (Nat.mul_comm b c). repeat split.
  - symmetry. apply Nat.Div0.div_div.
  - rewrite Nat.Div0.mod_mul_r, (Nat.mul_comm c), Nat.div_add by lia.
    rewrite (Nat.div_small (i mod c)) by (apply Nat.mod_upper_bound; lia).
    reflexivity.
  - rewrite Nat.Div0.mod_mul_r, (Nat.mul_comm c), Nat.Div0.mod_add.
    apply Nat.Div0.mod_mod.
Qed.

Lemma index_bounds (i a b : nat) :
  i < a * b -> i / b < a /\ i mod b < b.
Proof.
  intros Hi. assert (Hb : 0 < b) by nia. split.
  - apply Nat.Div0.div_lt_upper_bound. lia.
  - apply Nat.mod_upper_bound. lia.
Qed.

Lemma np_kron_one_l (r c : nat) (M : matrix) :
  shape r c M -> 0 < r -> np_kron [[C1]] M = M.
Proof.
  intros HM Hr.
  assert (H1 : shape 1 1 [[C1]]) by (split; [reflexivity|repeat constructor]).
  pose proof (np_kron_shape H1 HM Nat.lt_0_1 Hr) as HK.
  rewrite !Nat.mul_1_l in HK.
  apply (matrix_ext HK HM). intros i j Hi Hj.
  rewrite (entry_np_kron H1 HM) by lia.
  rewrite !Nat.div_small, !Nat.mod_small by assumption.
  change (entry [[C1]] 0 0) with C1. ring.
Qed.

Lemma np_kron_assoc (a a' b b' c c' : nat) (A B D : matrix) :
  shape a a' A -> shape b b' B -> shape c c' D ->
  0 < a -> 0 < b -> 0 < c ->
  np_kron (np_kron A B) D = np_kron A (np_kron B D).
Proof.
  intros HA HB HD Ha Hb Hc.
  assert (Hab : 0 < a * b) by nia.
  assert (Hbc : 0 < b * c) by nia.
  pose proof (np_kron_shape HA HB Ha Hb) as HAB.
  pose proof (np_kron_shape HB HD Hb Hc) as HBD.
  pose proof (np_kron_shape HAB HD Hab Hc) as HL.
  pose proof (np_kron_shape HA HBD Ha Hbc) as HR.
  rewrite <- !Nat.mul_assoc in HL.
  apply (matrix_ext HL HR). intros i j Hi Hj.
  rewrite (entry_np_kron HAB HD) by (rewrite <- ?Nat.mul_assoc; assumption).
  rewrite (entry_np_kron HA HBD) by assumption.
  assert (Hc' : 0 < c') by nia.
  destruct (index_split i b Hc) as [Hi1 [Hi2 Hi3]].
  destruct (index_split j b' Hc') as [Hj1 [Hj2 Hj3]].
  rewrite Nat.mul_assoc in Hi, Hj.
  destruct (@index_bounds i (a * b) c Hi) as [Hib _].
  destruct (@index_bounds j (a' * b') c' Hj) as [Hjb _].
  rewrite (entry_np_kron HA HB) by assumption.
  rewrite (entry_np_kron HB HD);
    try assumption; try (apply Nat.mod_upper_bound; nia).
  rewrite Hi1, Hi2, Hi3, Hj1, Hj2, Hj3. ring.
Qed.

Lemma trace_np_kron (a b : nat) (A B : matrix) :
  shape a a A -> shape b b B -> 0 < a -> 0 < b ->
  trace (np_kron A B) = (trace A * trace B)%C.
Proof.
  intros HA HB Ha Hb. unfold trace.
  rewrite (shape_nrows (np_kron_shape HA HB Ha Hb)).
  rewrite (shape_nrows HA), (shape_nrows HB).
  rewrite <- (Csum_product (fun x => entry A x x) (fun y => entry B y y)).
  apply Csum_ext. intros i Hi.
  apply (entry_np_kron HA HB); assumption.
Qed.

(** ** The factored snapshot *)

Lemma Smat_Hmat_adjoint : dot Smat Hmat = adjoint (dot Hmat (adjoint Smat)).
Proof. unfold Smat, Hmat. matrix_compute. all: sqrt2_solve. Qed.

Lemma getitem_Udgs (basis : nat) :
  basis <= 2 -> getitem Udgs basis = inr (basis_unitary_dagger basis).
Proof.
  intros Hb. destruct basis as [|[|[|basis]]]; try lia; try reflexivity.
  unfold getitem, Udgs. cbn [nth_error]. rewrite Smat_Hmat_adjoint. reflexivity.
Qed.

Lemma Smat_Hmat_unitary : unitary 2 (dot Smat Hmat).
Proof.
  split; [|split].
  - split; [reflexivity|repeat constructor].
  - unfold Smat, Hmat. matrix_compute. all: sqrt2_solve.
  - unfold Smat, Hmat. matrix_compute. all: sqrt2_solve.
Qed.

Lemma basis_unitary_dagger_unitary (basis : nat) :
  unitary 2 (basis_unitary_dagger basis).
Proof.
  destruct basis as [|[|basis]]; cbn [basis_unitary_dagger].
  - apply Hmat_unitary.
  - rewrite <- Smat_Hmat_adjoint. apply Smat_Hmat_unitary.
  - apply np_eye_unitary_2.
Qed.

Lemma qubit_factor_getSnapshot (basis bit : nat) :
  qubit_factor basis bit =
  getSnapshot (one_hot (2 ^ 1) bit) (basis_unitary_dagger basis) 1.
Proof.
  unfold qubit_factor, getSnapshot, invM, adjoint. rewrite INR_pow2.
  replace (2 ^ 1 + 1)%R with 3%R by (simpl; lra). reflexivity.
Qed.

Lemma qubit_factor_shape (basis bit : nat) : shape 2 2 (qubit_factor basis bit).
Proof.
  rewrite qubit_factor_getSnapshot.
  apply (@getSnapshot_shape 1). apply basis_unitary_dagger_unitary.
Qed.

Lemma qubit_factor_trace (basis bit : nat) :
  bit <= 1 -> trace (qubit_factor basis bit) = C1.
Proof.
  intros Hb. rewrite qubit_factor_getSnapshot.
  apply getSnapshot_trace.
  - apply basis_unitary_dagger_unitary.
  - simpl. lia.
Qed.

Lemma pauli_body_kron (memory : str) (qbases : dict) (snapshot : matrix)
  (bit : nat) :
  is_bitstring memory -> bit < length memory ->
  (exists basis, dict_get qbases bit = inr basis /\ basis <= 2) ->
  pauli_body memory qbases snapshot bit =
  inr (np_kron snapshot
         (qubit_factor (basis_id qbases bit)
            (bit_value (nth bit memory "0"%char)))).
Proof.
  intros Hbits Hbit [basis [Hget Hle]].
  unfold pauli_body, getitem, basis_id.
  rewrite (nth_error_nth' memory "0"%char Hbit). cbn [bind ret].
  assert (Hc : is_bitstring [nth bit memory "0"%char]).
  { constructor; [|constructor].
    unfold is_bitstring in Hbits. rewrite Forall_forall in Hbits.
    apply Hbits. apply nth_In. exact Hbit. }
  rewrite (bitToVector_one_hot Hc) by discriminate. cbn [bind].
  rewrite Hget. cbn [bind].
  fold (getitem Udgs basis). rewrite (getitem_Udgs Hle). cbn [bind ret].
  rewrite qubit_factor_getSnapshot.
  cbn [length binary_value]. rewrite Nat.pow_0_r, Nat.mul_1_r, Nat.add_0_r.
  reflexivity.
Qed.

Lemma pauli_loop_fold (memory : str) (qbases : dict) (bits : list nat)
  (snapshot : matrix) :
  is_bitstring memory ->
  (forall bit, In bit bits ->
     bit < length memory /\
     exists basis, dict_get qbases bit = inr basis /\ basis <= 2) ->
  pauli_loop memory qbases bits snapshot =
  inr (fold_left np_kron
         (map (fun i => qubit_factor (basis_id qbases i)
                          (bit_value (nth i memory "0"%char))) bits)
         snapshot).
Proof.
  intros Hbits. revert snapshot.
  induction bits as [|bit bits IH]; intros snapshot Hall; [reflexivity|].
  cbn [pauli_loop map fold_left].
  destruct (Hall bit (or_introl eq_refl)) as [Hlt Hb].
  rewrite (@pauli_body_kron memory qbases snapshot bit Hbits Hlt Hb). cbn [bind].
  apply IH. intros b Hin. apply Hall. right. exact Hin.
Qed.

Lemma pauli_snapshot_fold (n : nat) (outcome : str) (qbases : dict) :
  length outcome = n -> is_bitstring outcome -> basis_assignment n qbases ->
  pauli_snapshot outcome qbases =
  inr (fold_left np_kron (qubit_factors outcome qbases) [[C1]]).
Proof.
  intros Hlen Hbits Hq. unfold pauli_snapshot, qubit_factors.
  rewrite pauli_loop_fold.
  - rewrite length_rev. reflexivity.
  - apply Forall_rev. exact Hbits.
  - intros bit Hin. apply in_seq in Hin. rewrite length_rev in *.
    split; [lia|]. apply Hq. lia.
Qed.

Lemma kron_all_shape (Ms : list matrix) :
  Forall (shape 2 2) Ms ->
  shape (2 ^ length Ms) (2 ^ length Ms) (kron_all Ms).
Proof.
  induction Ms as [|M Ms IH]; intros HMs.
  - split; [reflexivity|repeat constructor].
  - inversion HMs as [|? ? HM HMs']; subst.
    destruct Ms as [|M' Ms'].
    + exact HM.
    + change (kron_all (M :: M' :: Ms')) with (np_kron M (kron_all (M' :: Ms'))).
      change (length (M :: M' :: Ms')) with (Datatypes.S (length (M' :: Ms'))).
      rewrite Nat.pow_succ_r'.
      apply np_kron_shape; [exact HM|apply IH; exact HMs'|lia|apply pow2_pos].
Qed.

Lemma fold_left_kron_all (Ms : list matrix) (a : nat) (acc : matrix) :
  Forall (shape 2 2) Ms -> Ms <> [] -> shape a a acc -> 0 < a ->
  fold_left np_kron Ms acc = np_kron acc (kron_all Ms).
Proof.
  revert a acc. induction Ms as [|M Ms IH]; intros a acc HMs Hne Hacc Ha;
    [congruence|].
  inversion HMs as [|? ? HM HMs']; subst.
  destruct Ms as [|M' Ms']; [reflexivity|].
  cbn [fold_left] in *.
  rewrite (IH (a * 2) (np_kron acc M)); try assumption; try discriminate;
    try lia; [|apply np_kron_shape; assumption || lia].
  change (kron_all (M :: M' :: Ms')) with (np_kron M (kron_all (M' :: Ms'))).
  apply (np_kron_assoc Hacc HM (kron_all_shape HMs')); try lia.
  apply pow2_pos.
Qed.

Lemma fold_left_kron_from_one (Ms : list matrix) :
  Forall (shape 2 2) Ms -> fold_left np_kron Ms [[C1]] = kron_all Ms.
Proof.
  intros HMs. destruct Ms as [|M Ms]; [reflexivity|].
  rewrite (@fold_left_kron_all (M :: Ms) 1); try assumption;
    try discriminate; try lia; [|split; [reflexivity|repeat constructor]].
  apply (np_kron_one_l (kron_all_shape HMs)). apply pow2_pos.
Qed.

Lemma qubit_factors_shape (outcome : str) (qbases : dict) :
  Forall (shape 2 2) (qubit_factors outcome qbases).
Proof.
  unfold qubit_factors. apply Forall_forall. intros M HM.
  apply in_map_iff in HM. destruct HM as [i [<- _]]. apply qubit_factor_shape.
Qed.



Lemma fold_left_kron_trace (Ms : list matrix) (a : nat) (acc : matrix) :
  Forall (fun M => shape 2 2 M /\ trace M = C1) Ms ->
  shape a a acc -> 0 < a ->
  trace (fold_left np_kron Ms acc) = trace acc.
Proof.
  revert a acc. induction Ms as [|M Ms IH]; intros a acc HMs Hacc Ha;
    [reflexivity|].
  inversion HMs as [|? ? [HM Htr] HMs']; subst. cbn [fold_left].
  rewrite (IH (a * 2) (np_kron acc M) HMs');
    [|apply np_kron_shape; assumption || lia|lia].
  rewrite (trace_np_kron Hacc HM) by lia. rewrite Htr. ring.
Qed.

Lemma qubit_factors_trace (outcome : str) (qbases : dict) :
  Forall (fun M => shape 2 2 M /\ trace M = C1) (qubit_factors outcome qbases).
Proof.
  unfold qubit_factors. apply Forall_forall. intros M HM.
  apply in_map_iff in HM. destruct HM as [i [<- _]]. split.
  - apply qubit_factor_shape.
  - apply qubit_factor_trace. apply bit_value_le.
Qed.

(** C9, amended.  For every [n >= 1], every outcome bitstring of length [n]
    and every basis assignment, in exact complex arithmetic every per-qubit
    factor of the factored snapshot has trace 1 and so has the snapshot
    itself, the trace of a Kronecker product being the product of the
    traces. *)
Theorem pauli_snapshot_trace (n : nat) (outcome : str) (qbases : dict) :
  1 <= n -> length outcome = n -> is_bitstring outcome ->
  basis_assignment n qbases ->
  Forall (fun M => trace M = C1) (qubit_factors outcome qbases) /\
  exists snapshot,
    pauli_snapshot outcome qbases = inr snapshot /\ trace snapshot = C1.
Proof.
  intros Hn Hlen Hbits Hq. split.
  - eapply Forall_impl; [|apply qubit_factors_trace].
    intros M [_ HM]. exact HM.
  - exists (fold_left np_kron (qubit_factors outcome qbases) [[C1]]).
    split; [apply (pauli_snapshot_fold Hlen Hbits Hq)|].
    rewrite (@fold_left_kron_trace _ 1);
      [|apply qubit_factors_trace|split; [reflexivity|repeat constructor]|lia].
    change (trace [[C1]]) with (C0 + C1)%C. ring.
Qed.

Lemma pauli_snapshot_trace_witness :
  let n := 2 in
  let outcome := ["0"%char; "1"%char] in
  let qbases := dict_set 1 1 (dict_set 0 0 []) in
  (1 <= n /\ length outcome = n /\ is_bitstring outcome /\
   basis_assignment n qbases) /\
  exists snapshot,
    pauli_snapshot outcome qbases = inr snapshot /\ trace snapshot = C1.
Proof.
  intros n outcome qbases.
  assert (H1 : 1 <= n) by (unfold n; lia).
  assert (H2 : length outcome = n) by reflexivity.
  assert (H3 : is_bitstring outcome) by (repeat constructor).
  assert (H4 : basis_assignment n qbases).
  { intros q Hq. destruct q as [|[|q]].
    - exists 0. split; [reflexivity|lia].
    - exists 1. split; [reflexivity|lia].
    - unfold n in Hq. lia. }
  split; [auto|].
  exact (proj2 (pauli_snapshot_trace H1 H2 H3 H4)).
Defined.

Lemma clifford_snapshot_hermitian_trace_witness :
  let n := 1 in
  let outcome := ["1"%char] in
  (1 <= n /\ length outcome = n /\ is_bitstring outcome /\
   unitary (2 ^ n) Hmat) /\
  exists snapshot,
    clifford_snapshot outcome Hmat n = inr snapshot /\
    hermitian snapshot /\ trace snapshot = C1.
Proof.
  intros n outcome.
  assert (H1 : 1 <= n) by (unfold n; lia).
  assert (H2 : length outcome = n) by reflexivity.
  assert (H3 : is_bitstring outcome) by (repeat constructor).
  assert (H4 : unitary (2 ^ n) Hmat) by apply Hmat_unitary.
  split; [auto|].
  exact (clifford_snapshot_hermitian_trace H1 H2 H3 H4).
Defined.

(** ** The snapshots in double precision *)

(** C4, as stated, fails on the doubles the code computes.  With [Udg = H],
    the Hadamard matrix of the notebook, unitary in exact arithmetic, and the
    outcome ['1'], the square of the double [1/sqrt(2)] is below [1/2], the
    two diagonal entries of the snapshot are [0.49999999999999956], and its
    trace is [0.9999999999999991], that is [1 - 2^-50]. *)
Lemma clifford_snapshot_trace_rounded :
  let outcome := ["1"%char] in
  (1 <= 1 /\ length outcome = 1 /\ is_bitstring outcome /\
   unitary (2 ^ 1) Hmat) /\
  exists snapshot,
    F64.clifford_snapshot outcome F64.Hmat 1 = inr snapshot /\
    F64.to_R (F64.re (F64.entry snapshot 0 0)) =
      (1 / 2 - 4 / 9007199254740992)%R /\
    F64.to_R (F64.re (F64.trace snapshot)) = (1 - 8 / 9007199254740992)%R /\
    F64.to_R (F64.re (F64.trace snapshot)) <> 1%R.
Proof.
  intros outcome. split.
  - split; [lia|]. split; [reflexivity|].
    split; [solve [repeat constructor]|apply Hmat_unitary].
  - assert (E : exists snapshot,
                  F64.clifford_snapshot outcome F64.Hmat 1 = inr snapshot /\
                  F64.to_R (F64.re (F64.entry snapshot 0 0)) =
                  (9007199254740984 / 18014398509481984)%R /\
                  F64.to_R (F64.re (F64.trace snapshot)) =
                  (9007199254740984 / 9007199254740992)%R).
    { eexists. split; [|split]; reflexivity. }
    destruct E as [snapshot [E [E0 E1]]]. exists snapshot.
    split; [exact E|]. rewrite E0, E1. repeat split; lra.
Qed.

(** C9, as stated, fails on the doubles the code computes.  For one qubit
    measured in the X basis with the outcome ['1'], the factored snapshot is
    the single factor [3 (H b) (H b)^dagger - I_2], of trace
    [0.9999999999999991], that is [1 - 2^-50]; for three qubits measured in
    the X, Y and Z bases with the outcome ['101'] the trace is
    [0.9999999999999982], that is [1 - 2^-49]. *)
Lemma pauli_snapshot_trace_rounded :
  let outcome := ["1"%char] in
  let qbases := dict_set 0 0 [] in
  (1 <= 1 /\ length outcome = 1 /\ is_bitstring outcome /\
   basis_assignment 1 qbases) /\
  (exists snapshot,
     F64.pauli_snapshot outcome qbases = inr snapshot /\
     F64.to_R (F64.re (F64.trace snapshot)) = (1 - 8 / 9007199254740992)%R /\
     F64.to_R (F64.re (F64.trace snapshot)) <> 1%R) /\
  (exists snapshot,
     F64.pauli_snapshot ["1"%char; "0"%char; "1"%char]
       (dict_set 2 2 (dict_set 1 1 (dict_set 0 0 []))) = inr snapshot /\
     F64.to_R (F64.re (F64.trace snapshot)) = (1 - 16 / 9007199254740992)%R).
Proof.
  intros outcome qbases. split; [|split].
  - split; [lia|]. split; [reflexivity|].
    split; [solve [repeat constructor]|].
    intros q Hq. exists 0. destruct q; [split; [reflexivity|lia]|lia].
  - assert (E : exists snapshot,
                  F64.pauli_snapshot outcome qbases = inr snapshot /\
                  F64.to_R (F64.re (F64.trace snapshot)) =
                  (9007199254740984 / 9007199254740992)%R).
    { eexists. split; reflexivity. }
    destruct E as [snapshot [E1 E2]]. exists snapshot.
    split; [exact E1|]. split; [rewrite E2; lra|]. rewrite E2. lra.
  - assert (E : exists snapshot,
                  F64.pauli_snapshot ["1"%char; "0"%char; "1"%char]
                    (dict_set 2 2 (dict_set 1 1 (dict_set 0 0 []))) =
                  inr snapshot /\
                  F64.to_R (F64.re (F64.trace snapshot)) =
                  (9007199254740976 / 9007199254740992)%R).
    { eexists. split; reflexivity. }
    destruct E as [snapshot [E1 E2]]. exists snapshot.
    split; [exact E1|]. rewrite E2. lra.
Qed.

(** ** Sampling the measurement bases *)

(** *** The order of the doubles

    The comparisons of the machine, specified on sign, significand and
    exponent, are the order of the numbers: a finite double is the integer
    [scaled x] times [2^-1074], and comparing two doubles is comparing these
    integers. *)

Section Doubles.

Import SpecFloat.
Local Open Scope Z_scope.

Lemma digits2_pos_bounds (m : positive) :
  2 ^ (Z.pos (digits2_pos m) - 1) <= Z.pos m < 2 ^ Z.pos (digits2_pos m).
Proof.
  induction m as [m IH|m IH|]; cbn [digits2_pos].
  - change PosDef.Pos.succ with Pos.succ. rewrite Pos2Z.inj_succ.
    replace (Z.succ (Z.pos (digits2_pos m)) - 1)
      with (Z.succ (Z.pos (digits2_pos m) - 1)) by lia.
    rewrite !Z.pow_succ_r by lia. lia.
  - change PosDef.Pos.succ with Pos.succ. rewrite Pos2Z.inj_succ.
    replace (Z.succ (Z.pos (digits2_pos m)) - 1)
      with (Z.succ (Z.pos (digits2_pos m) - 1)) by lia.
    rewrite !Z.pow_succ_r by lia. lia.
  - cbn. lia.
Qed.

Lemma valid_finite_bounds (s : bool) (m : positive) (e : Z) :
  valid_binary FloatOps.prec FloatOps.emax (S754_finite s m e) = true ->
  -1074 <= e /\ Z.pos m < 2 ^ 53 /\ (-1074 < e -> 2 ^ 52 <= Z.pos m).
Proof.
  cbn [valid_binary]. unfold bounded, canonical_mantissa, fexp, emin.
  change FloatOps.prec with 53. change FloatOps.emax with 1024.
  intros H. apply andb_true_iff in H. destruct H as [H _].
  apply Z.eqb_eq in H. change IntDef.Z.max with Z.max in H.
  pose proof (digits2_pos_bounds m) as [Hlo Hhi].
  set (d := Z.pos (digits2_pos m)) in *.
  assert (Hd : d <= 53) by lia.
  split; [lia|]. split.
  - assert (2 ^ d <= 2 ^ 53) by (apply Z.pow_le_mono_r; lia). lia.
  - intros He. assert (d = 53) by lia. subst d. rewrite H0 in Hlo.
    exact Hlo.
Qed.

Lemma scaled_order (m1 m2 : positive) (e1 e2 : Z) :
  -1074 <= e1 -> Z.pos m1 < 2 ^ 53 ->
  -1074 < e2 -> 2 ^ 52 <= Z.pos m2 -> e1 < e2 ->
  Z.pos m1 * 2 ^ (e1 + 1074) < Z.pos m2 * 2 ^ (e2 + 1074).
Proof.
  intros H1 Hm1 H2 Hm2 Hlt.
  assert (Hp1 : 0 < 2 ^ (e1 + 1074)) by (apply Z.pow_pos_nonneg; lia).
  assert (E : 2 ^ (e2 + 1074) = 2 ^ (e2 - e1 - 1) * (2 * 2 ^ (e1 + 1074))).
  { rewrite <- Z.pow_succ_r by lia. rewrite <- Z.pow_add_r by lia.
    f_equal. lia. }
  assert (Hq : 1 <= 2 ^ (e2 - e1 - 1))
    by (apply (Z.pow_le_mono_r 2 0); lia).
  rewrite E. change (2 ^ 53) with (2 * 2 ^ 52) in Hm1. nia.
Qed.

Lemma SFcompare_scaled (f1 f2 : spec_float) :
  valid_binary FloatOps.prec FloatOps.emax f1 = true ->
  valid_binary FloatOps.prec FloatOps.emax f2 = true ->
  match f1 with S754_zero _ | S754_finite _ _ _ => True | _ => False end ->
  match f2 with S754_zero _ | S754_finite _ _ _ => True | _ => False end ->
  SFcompare f1 f2 = Some (F64.scaled_of f1 ?= F64.scaled_of f2).
Proof.
  intros V1 V2 F1 F2.
  destruct f1 as [s1| | |s1 m1 e1]; try contradiction;
    destruct f2 as [s2| | |s2 m2 e2]; try contradiction.
  - reflexivity.
  - apply valid_finite_bounds in V2. destruct V2 as [He2 _].
    assert (0 < 2 ^ (e2 + 1074)) by (apply Z.pow_pos_nonneg; lia).
    cbn [SFcompare F64.scaled_of]. f_equal. symmetry.
    destruct s2.
    + apply Z.compare_gt_iff. nia.
    + apply Z.compare_lt_iff. nia.
  - apply valid_finite_bounds in V1. destruct V1 as [He1 _].
    assert (0 < 2 ^ (e1 + 1074)) by (apply Z.pow_pos_nonneg; lia).
    cbn [SFcompare F64.scaled_of]. f_equal. symmetry.
    destruct s1.
    + apply Z.compare_lt_iff. nia.
    + apply Z.compare_gt_iff. nia.
  - apply valid_finite_bounds in V1, V2.
    destruct V1 as [He1 [Hm1 Hn1]]. destruct V2 as [He2 [Hm2 Hn2]].
    assert (Hp1 : 0 < 2 ^ (e1 + 1074)) by (apply Z.pow_pos_nonneg; lia).
    assert (Hp2 : 0 < 2 ^ (e2 + 1074)) by (apply Z.pow_pos_nonneg; lia).
    cbn [SFcompare F64.scaled_of]. f_equal. symmetry.
    change PosDef.Pos.compare_cont with Pos.compare_cont.
    fold (Pos.compare m1 m2).
    destruct s1, s2.
    + destruct (Z.compare_spec e1 e2) as [->|Hlt|Hgt].
      * rewrite <- Pos.compare_antisym.
        destruct (Pos.compare_spec m2 m1) as [->|Hm|Hm].
        -- apply Z.compare_eq_iff. reflexivity.
        -- apply Z.compare_lt_iff. nia.
        -- apply Z.compare_gt_iff. nia.
      * apply Z.compare_gt_iff.
        pose proof (@scaled_order m1 m2 e1 e2). nia.
      * apply Z.compare_lt_iff.
        pose proof (@scaled_order m2 m1 e2 e1). nia.
    + apply Z.compare_lt_iff. nia.
    + apply Z.compare_gt_iff. nia.
    + destruct (Z.compare_spec e1 e2) as [->|Hlt|Hgt].
      * destruct (Pos.compare_spec m1 m2) as [->|Hm|Hm].
        -- apply Z.compare_eq_iff. reflexivity.
        -- apply Z.compare_lt_iff. nia.
        -- apply Z.compare_gt_iff. nia.
      * apply Z.compare_lt_iff.
        pose proof (@scaled_order m1 m2 e1 e2). nia.
      * apply Z.compare_gt_iff.
        pose proof (@scaled_order m2 m1 e2 e1). nia.
Qed.

Lemma F64_scaled_order (x y : F64.float64) :
  F64.finite x -> F64.finite y ->
  F64.lt x y = (F64.scaled x <? F64.scaled y)%Z /\
  F64.le x y = (F64.scaled x <=? F64.scaled y)%Z.
Proof.
  intros Fx Fy. unfold F64.lt, F64.le.
  rewrite FloatAxioms.ltb_spec, FloatAxioms.leb_spec.
  unfold SpecFloat.SFltb, SpecFloat.SFleb.
  rewrite (@SFcompare_scaled (FloatOps.Prim2SF x) (FloatOps.Prim2SF y)
             (FloatAxioms.Prim2SF_valid x) (FloatAxioms.Prim2SF_valid y) Fx Fy).
  fold (F64.scaled x). fold (F64.scaled y).
  unfold Z.ltb, Z.leb.
  destruct (F64.scaled x ?= F64.scaled y)%Z; split; reflexivity.
Qed.

Lemma F64_to_R_scaled (x : F64.float64) :
  F64.finite x -> F64.to_R x = (IZR (F64.scaled x) / IZR (2 ^ 1074))%R.
Proof.
  intros Fx. pose proof (FloatAxioms.Prim2SF_valid x) as V.
  unfold F64.finite in Fx. unfold F64.to_R, F64.scaled, F64.scaled_of.
  assert (HP : (0 < 2 ^ 1074)%Z) by (apply Z.pow_pos_nonneg; lia).
  destruct (FloatOps.Prim2SF x) as [s| | |s m e]; try contradiction.
  - unfold Rdiv. rewrite Rmult_0_l. reflexivity.
  - apply valid_finite_bounds in V. destruct V as [He _].
    set (z := if s then Z.neg m else Z.pos m). cbv zeta.
    destruct (Z.leb_spec 0 e) as [Hpos|Hneg].
    + rewrite Z.pow_add_r by lia. rewrite !mult_IZR.
      assert (IZR (2 ^ 1074) <> 0%R) by (apply not_0_IZR; lia).
      field. assumption.
    + assert (E : (2 ^ 1074 = 2 ^ (e + 1074) * 2 ^ (- e))%Z).
      { rewrite <- Z.pow_add_r by lia. f_equal. lia. }
      assert (H1 : (0 < 2 ^ (e + 1074))%Z) by (apply Z.pow_pos_nonneg; lia).
      assert (H2 : (0 < 2 ^ (- e))%Z) by (apply Z.pow_pos_nonneg; lia).
      rewrite E, !mult_IZR.
      assert (IZR (2 ^ (e + 1074)) <> 0%R) by (apply not_0_IZR; lia).
      assert (IZR (2 ^ (- e)) <> 0%R) by (apply not_0_IZR; lia).
      field. split; assumption.
Qed.

(** On finite doubles the comparisons of the machine are those of the
    numbers the doubles stand for. *)
Lemma F64_order_R (x y : F64.float64) :
  F64.finite x -> F64.finite y ->
  (F64.lt x y = true <-> (F64.to_R x < F64.to_R y)%R) /\
  (F64.le x y = true <-> (F64.to_R x <= F64.to_R y)%R).
Proof.
  intros Fx Fy.
  destruct (@F64_scaled_order x y Fx Fy) as [-> ->].
  rewrite (@F64_to_R_scaled x Fx), (@F64_to_R_scaled y Fy).
  assert (HP : (0 < IZR (2 ^ 1074))%R)
    by (apply IZR_lt; apply Z.pow_pos_nonneg; lia).
  set (P := IZR (2 ^ 1074)) in *.
  assert (HPi : (0 < / P)%R) by (apply Rinv_0_lt_compat; exact HP).
  unfold Rdiv. rewrite Z.ltb_lt, Z.leb_le. split; split; intros H.
  - apply Rmult_lt_compat_r; [exact HPi|apply IZR_lt; exact H].
  - apply lt_IZR. apply (Rmult_lt_reg_r (/ P)); assumption.
  - apply Rmult_le_compat_r; [lra|apply IZR_le; exact H].
  - apply le_IZR. apply (Rmult_le_reg_r (/ P)); assumption.
Qed.

End Doubles.

(** The two constants, as fractions: [6004799503160661 / 2^54], just below
    one third, and [6004799503160661 / 2^53], just below two thirds. *)
Lemma F64_third_value :
  F64.to_R F64.third = (6004799503160661 / 18014398509481984)%R /\
  F64.to_R F64.two_thirds = (6004799503160661 / 9007199254740992)%R.
Proof. split; reflexivity. Qed.

Lemma n_pauli_body_step (qbases : dict) (qc : list instr) (g : rng)
  (qbit : nat) :
  n_pauli_body (qbases, qc, g) qbit =
  (dict_set qbit (basis_of_draw (g 0)) qbases,
   qc ++ basis_gates qbit (basis_of_draw (g 0)),
   fun k => g (Datatypes.S k)).
Proof.
  unfold n_pauli_body, rand, basis_of_draw.
  change (F64.ge (g 0) F64.third) with (F64.le F64.third (g 0)).
  destruct (F64.lt (g 0) F64.third); [reflexivity|].
  destruct (F64.le F64.third (g 0) && F64.lt (g 0) F64.two_thirds);
    cbn [basis_gates].
  - reflexivity.
  - rewrite app_nil_r. reflexivity.
Qed.

Lemma gates_on_basis_gates (q qbit basis : nat) :
  gates_on q (basis_gates qbit basis) =
  if qbit =? q then basis_gates qbit basis else [].
Proof.
  unfold gates_on. destruct basis as [|[|basis]]; cbn [basis_gates filter acts_on];
    destruct (qbit =? q); reflexivity.
Qed.

Lemma gates_on_app (q : nat) (qc1 qc2 : list instr) :
  gates_on q (qc1 ++ qc2) = gates_on q qc1 ++ gates_on q qc2.
Proof. apply filter_app. Qed.

Lemma n_pauli_loop_spec (g : rng) (m : nat) :
  forall (s : nat) (qbases : dict) (qc : list instr) (gs : rng),
  (forall k, gs k = g (s + k)) ->
  let '(qbases', qc', gs') :=
    fold_left n_pauli_body (seq s m) (qbases, qc, gs) in
  (forall k, gs' k = g (s + m + k)) /\
  (forall q, q < s -> dict_get qbases' q = dict_get qbases q) /\
  (forall q, q < s -> gates_on q qc' = gates_on q qc) /\
  (forall q, s <= q < s + m ->
     dict_get qbases' q = inr (basis_of_draw (g q)) /\
     gates_on q qc' = gates_on q qc ++ basis_gates q (basis_of_draw (g q))).
Proof.
  induction m as [|m IH]; intros s qbases qc gs Hgs.
  - cbn [seq fold_left]. repeat split; auto.
    + intros k. rewrite Hgs. f_equal. lia.
    + lia.
    + lia.
  - cbn [seq fold_left]. rewrite n_pauli_body_step.
    specialize (IH (Datatypes.S s)
                  (dict_set s (basis_of_draw (gs 0)) qbases)
                  (qc ++ basis_gates s (basis_of_draw (gs 0)))
                  (fun k => gs (Datatypes.S k))).
    destruct (fold_left n_pauli_body (seq (Datatypes.S s) m) _)
      as [[qbases' qc'] gs'].
    destruct IH as [Hg [Hd [Hc Hin]]].
    { intros k. rewrite Hgs. f_equal. lia. }
    assert (Hs : gs 0 = g s) by (rewrite Hgs; f_equal; lia).
    repeat split.
    + intros k. rewrite Hg. f_equal. lia.
    + intros q Hq. rewrite Hd by lia. cbn [dict_get dict_set].
      destruct (Nat.eqb_spec s q); [lia|reflexivity].
    + intros q Hq. rewrite Hc by lia.
      rewrite gates_on_app, gates_on_basis_gates.
      destruct (Nat.eqb_spec s q); [lia|apply app_nil_r].
    + destruct (Nat.eq_dec q s) as [->|Hne].
      * rewrite Hd by lia. cbn [dict_get dict_set]. rewrite Nat.eqb_refl, Hs.
        reflexivity.
      * apply Hin. lia.
    + destruct (Nat.eq_dec q s) as [->|Hne].
      * rewrite Hc by lia.
        rewrite gates_on_app, gates_on_basis_gates, Nat.eqb_refl, Hs.
        reflexivity.
      * destruct (Hin q) as [_ Hq]; [lia|]. rewrite Hq.
        rewrite gates_on_app, gates_on_basis_gates.
        destruct (Nat.eqb_spec s q); [lia|]. rewrite app_nil_r. reflexivity.
Qed.

Lemma F64_thresholds_finite : F64.finite F64.third /\ F64.finite F64.two_thirds.
Proof. split; exact I. Qed.

Lemma basis_of_draw_cases (r : F64.float64) :
  F64.finite r ->
  let third := (6004799503160661 / 18014398509481984)%R in
  let two_thirds := (6004799503160661 / 9007199254740992)%R in
  (basis_of_draw r = 0 <-> (F64.to_R r < third)%R) /\
  (basis_of_draw r = 1 <-> (third <= F64.to_R r < two_thirds)%R) /\
  (basis_of_draw r = 2 <-> (two_thirds <= F64.to_R r)%R).
Proof.
  intros Fr. cbv zeta.
  destruct F64_thresholds_finite as [F1 F2].
  destruct F64_third_value as [V1 V2].
  destruct (@F64_order_R r F64.third Fr F1) as [Hlt1 _].
  destruct (@F64_order_R F64.third r F1 Fr) as [_ Hle1].
  destruct (@F64_order_R r F64.two_thirds Fr F2) as [Hlt2 _].
  rewrite V1 in Hlt1, Hle1. rewrite V2 in Hlt2.
  unfold basis_of_draw.
  destruct (F64.lt r F64.third);
    [|destruct (F64.le F64.third r); destruct (F64.lt r F64.two_thirds)];
    cbn [andb].
  - assert (F64.to_R r < 6004799503160661 / 18014398509481984)%R
      by (apply Hlt1; reflexivity).
    repeat split; intros; try discriminate; try reflexivity; try lra.
  - assert (6004799503160661 / 18014398509481984 <= F64.to_R r)%R
      by (apply Hle1; reflexivity).
    assert (F64.to_R r < 6004799503160661 / 9007199254740992)%R
      by (apply Hlt2; reflexivity).
    repeat split; intros; try discriminate; try reflexivity; try lra.
  - assert (6004799503160661 / 18014398509481984 <= F64.to_R r)%R
      by (apply Hle1; reflexivity).
    assert (~ (F64.to_R r < 6004799503160661 / 9007199254740992)%R)
      by (intros H'; apply Hlt2 in H'; discriminate H').
    repeat split; intros; try discriminate; try reflexivity; try lra.
  - assert (~ (F64.to_R r < 6004799503160661 / 18014398509481984)%R)
      by (intros H'; apply Hlt1 in H'; discriminate H').
    assert (~ (6004799503160661 / 18014398509481984 <= F64.to_R r)%R)
      by (intros H'; apply Hle1 in H'; discriminate H').
    lra.
  - assert (~ (F64.to_R r < 6004799503160661 / 18014398509481984)%R)
      by (intros H'; apply Hlt1 in H'; discriminate H').
    assert (~ (6004799503160661 / 18014398509481984 <= F64.to_R r)%R)
      by (intros H'; apply Hle1 in H'; discriminate H').
    lra.
Qed.

(** C8, as stated, fails.  The draw [6004799503160661 / 2^53], the double
    [2/3], lies in [1/3, 2/3) and yet gets the basis_id 2 and no gate: the
    code compares it with the double [2/3], which it equals. *)
Lemma n_pauli_circuit_double_two_thirds :
  let r := F64.two_thirds in
  (1 / 3 <= F64.to_R r < 2 / 3)%R /\
  let '(qbases, qc, _) := n_pauli_circuit 1 (fun _ => r) in
  dict_get qbases 0 = inr 2 /\ gates_on 0 qc = [].
Proof.
  intros r. split.
  - unfold r. rewrite (proj2 F64_third_value). lra.
  - vm_compute. split; reflexivity.
Qed.

(** C8, amended.  In [n_pauli_circuit], the draw taken for qubit [qbit] is
    the [qbit]-th of the stream, one draw per qubit, a finite double; the
    thresholds are the doubles [1/3] and [2/3], the fractions
    [6004799503160661 / 2^54] and [6004799503160661 / 2^53], each just below
    the number it is written as.  The basis_id assigned to the qubit is 0,
    with a Hadamard applied, exactly when the draw is below the first
    threshold; 1, with S-dagger then Hadamard applied, exactly when it is at
    least the first and below the second; and 2, with no gate, otherwise.
    The call consumes exactly [n] draws. *)
Theorem n_pauli_circuit_bases (n : nat) (g : rng) (qbit : nat) :
  qbit < n -> F64.finite (g qbit) ->
  let '(qbases, qc, g') := n_pauli_circuit n g in
  let r := F64.to_R (g qbit) in
  let third := (6004799503160661 / 18014398509481984)%R in
  let two_thirds := (6004799503160661 / 9007199254740992)%R in
  (dict_get qbases qbit = inr 0 <-> (r < third)%R) /\
  (dict_get qbases qbit = inr 1 <-> (third <= r < two_thirds)%R) /\
  (dict_get qbases qbit = inr 2 <-> (two_thirds <= r)%R) /\
  ((r < third)%R -> gates_on qbit qc = [h qbit]) /\
  ((third <= r < two_thirds)%R -> gates_on qbit qc = [sdg qbit; h qbit]) /\
  ((two_thirds <= r)%R -> gates_on qbit qc = []) /\
  (forall k, g' k = g (n + k)).
Proof.
  intros Hq Fr. unfold n_pauli_circuit.
  pose proof (@n_pauli_loop_spec g n 0 [] [] g (fun k => eq_refl)) as Hloop.
  destruct (fold_left n_pauli_body (seq 0 n) _) as [[qbases qc] g'].
  destruct Hloop as [Hg [_ [_ Hin]]].
  destruct (Hin qbit) as [Hd Hc]; [lia|].
  cbn [gates_on filter app] in Hc.
  assert (Hgates : gates_on qbit (qc ++ [measure_all]) =
                   basis_gates qbit (basis_of_draw (g qbit))).
  { rewrite gates_on_app. cbn [gates_on filter acts_on].
    rewrite app_nil_r. exact Hc. }
  destruct (@basis_of_draw_cases (g qbit) Fr) as [H0 [H1 H2]].
  cbv zeta in *. rewrite Hd, Hgates.
  split; [|split; [|split; [|split; [|split; [|split]]]]].
  - split; [intros H; apply H0; congruence|intros H; f_equal; apply H0; exact H].
  - split; [intros H; apply H1; congruence|intros H; f_equal; apply H1; exact H].
  - split; [intros H; apply H2; congruence|intros H; f_equal; apply H2; exact H].
  - intros H. apply H0 in H. rewrite H. reflexivity.
  - intros H. apply H1 in H. rewrite H. reflexivity.
  - intros H. apply H2 in H. rewrite H. reflexivity.
  - intros k. rewrite Hg. f_equal.
Qed.

Lemma n_pauli_circuit_bases_witness :
  let g : rng := fun _ => PrimFloat.div (F64.of_int 1) (F64.of_int 2) in
  (1 < 3 /\ F64.finite (g 1)) /\
  let '(qbases, qc, _) := n_pauli_circuit 3 g in
  dict_get qbases 1 = inr 1 /\ gates_on 1 qc = [sdg 1; h 1].
Proof.
  intros g. assert (H : 1 < 3) by lia.
  assert (F : F64.finite (g 1)) by exact I.
  split; [split; [exact H|exact F]|].
  assert (V : F64.to_R (g 1) = (4503599627370496 / 9007199254740992)%R)
    by reflexivity.
  pose proof (@n_pauli_circuit_bases 3 g 1 H F) as T.
  destruct (n_pauli_circuit 3 g) as [[qbases qc] g'].
  cbv zeta in T. rewrite V in T.
  destruct T as [_ [T1 [_ [_ [T2 _]]]]].
  split; [apply T1|apply T2]; lra.
Defined.

(** ** Batches *)

Lemma range0_positive (stop : nat) (step : Z) :
  (0 < step)%Z ->
  range0 stop step =
  inr (map (fun j => j * Z.to_nat step)
         (seq 0 ((stop + Z.to_nat step - 1) / Z.to_nat step))).
Proof.
  intros Hs. unfold range0.
  destruct (Z.eqb_spec step 0); [lia|].
  destruct (Z.ltb_spec step 0); [lia|]. reflexivity.
Qed.

Lemma range0_bound (stop n j : nat) :
  0 < n -> j < (stop + n - 1) / n -> j * n < stop.
Proof.
  intros Hn Hj.
  pose proof (Nat.Div0.mul_div_le (stop + n - 1) n) as Hle.
  assert (n * Datatypes.S j <= n * ((stop + n - 1) / n))
    by (apply Nat.mul_le_mono_l; lia).
  nia.
Qed.

Lemma ceil_div_exact (K m : nat) : 0 < m -> (K * m + m - 1) / m = K.
Proof.
  intros Hm. replace (K * m + m - 1) with (m - 1 + K * m) by lia.
  rewrite Nat.div_add by lia. rewrite Nat.div_small by lia. reflexivity.
Qed.

Lemma chunks_positive (A : Type) (lst : list A) (n : Z) :
  (0 < n)%Z ->
  chunks lst n =
  inr (map (fun j => slice lst (j * Z.to_nat n) (j * Z.to_nat n + Z.to_nat n))
         (seq 0 ((length lst + Z.to_nat n - 1) / Z.to_nat n))).
Proof.
  intros Hn. unfold chunks. rewrite (range0_positive _ Hn). cbn [bind ret].
  rewrite map_map. reflexivity.
Qed.

Lemma slice_length (A : Type) (lst : list A) (i n : nat) :
  length (slice lst i (i + n)) = Nat.min n (length lst - i).
Proof.
  unfold slice. rewrite length_firstn, length_skipn. f_equal. lia.
Qed.

Lemma slice_nonempty (A : Type) (lst : list A) (i n : nat) :
  0 < n -> i < length lst -> slice lst i (i + n) <> [].
Proof.
  intros Hn Hi Hnil. pose proof (slice_length lst i n) as Hl.
  rewrite Hnil in Hl. simpl in Hl. lia.
Qed.

(** ** True division *)

Section TrueDivision.

Local Open Scope Z_scope.

Lemma round_half_even_cases (num den : Z) :
  0 < den ->
  (round_half_even num den = num / den) \/
  (round_half_even num den = num / den + 1 /\ den <= 2 * (num mod den)).
Proof.
  intros Hd. unfold round_half_even.
  destruct (Z.ltb_spec (2 * (num mod den)) den); [left; reflexivity|].
  destruct (Z.ltb_spec den (2 * (num mod den))); [right; split; [reflexivity|lia]|].
  destruct (Z.even (num / den)); [left; reflexivity|right; split; [reflexivity|lia]].
Qed.

Lemma round_half_even_trunc (a b s : Z) :
  0 <= a -> 0 < b -> 0 <= s -> b < 2 ^ (s + 1) ->
  round_half_even (a * 2 ^ s) b / 2 ^ s = a / b.
Proof.
  intros Ha Hb Hs Hlt.
  assert (HP : 0 < 2 ^ s) by (apply Z.pow_pos_nonneg; lia).
  replace (s + 1) with (Z.succ s) in Hlt by lia.
  rewrite Z.pow_succ_r in Hlt by lia.
  set (P := 2 ^ s) in *.
  pose proof (Z.div_mod a b ltac:(lia)) as Ea.
  pose proof (Z.mod_pos_bound a b Hb) as Ba.
  pose proof (Z.div_mod (a * P) b ltac:(lia)) as En.
  pose proof (Z.mod_pos_bound (a * P) b Hb) as Bn.
  pose proof (@round_half_even_cases (a * P) b Hb) as Hc.
  set (m := round_half_even (a * P) b) in *.
  set (n := a / b) in *. set (r0 := a mod b) in *.
  set (q := a * P / b) in *. set (r := (a * P) mod b) in *.
  assert (Hq1 : n * P <= q).
  { apply Z.div_le_lower_bound; [lia|]. nia. }
  assert (Hq2 : q < (n + 1) * P).
  { apply Z.div_lt_upper_bound; [lia|]. nia. }
  assert (Hm : n * P <= m < (n + 1) * P).
  { destruct Hc as [E|[E Hr]]; rewrite E; [lia|].
    split; [lia|].
    assert (q + 1 < (n + 1) * P \/ q + 1 = (n + 1) * P) as [|Hbad] by lia;
      [lia|]. exfalso. nia. }
  symmetry. apply (Z.div_unique_pos _ _ _ (m - n * P)); lia.
Qed.

Lemma log2_quot_spec (a b : Z) :
  0 < a -> 0 < b ->
  let L := log2_quot a b in
  Z.log2 a - Z.log2 b - 1 <= L <= Z.log2 a - Z.log2 b /\
  (0 <= L -> b * 2 ^ L <= a) /\ (L < 0 -> b <= a * 2 ^ (- L)).
Proof.
  intros Ha Hb. unfold log2_quot.
  pose proof (Z.log2_spec a Ha) as [La1 La2].
  pose proof (Z.log2_spec b Hb) as [Lb1 Lb2].
  pose proof (Z.log2_nonneg a) as Na. pose proof (Z.log2_nonneg b) as Nb.
  set (la := Z.log2 a) in *. set (lb := Z.log2 b) in *.
  set (d := la - lb).
  destruct (Z.leb_spec 0 d) as [Hd|Hd].
  - destruct (Z.leb_spec (b * 2 ^ d) a) as [Ht|Ht]; cbv zeta.
    + split; [lia|]. split; [auto|lia].
    + split; [lia|]. split.
      * intros HL.
        assert (E : 2 ^ la = 2 ^ (d - 1) * 2 ^ (Z.succ lb)).
        { rewrite <- Z.pow_add_r by lia. f_equal. unfold d. lia. }
        assert (0 < 2 ^ (d - 1)) by (apply Z.pow_pos_nonneg; lia).
        assert (b * 2 ^ (d - 1) <= 2 ^ Z.succ lb * 2 ^ (d - 1))
          by (apply Z.mul_le_mono_nonneg_r; lia).
        lia.
      * intros HL.
        assert (d = 0) by lia.
        replace (- (d - 1)) with 1 by lia. rewrite Z.pow_1_r.
        assert (Hll : lb = la) by (unfold d in *; lia).
        rewrite Hll, Z.pow_succ_r in Lb2 by lia. lia.
  - destruct (Z.leb_spec b (a * 2 ^ (- d))) as [Ht|Ht]; cbv zeta.
    + split; [lia|]. split; [lia|auto].
    + split; [lia|]. split; [lia|]. intros _.
      assert (E : 2 ^ Z.succ lb = 2 ^ la * 2 ^ (- (d - 1))).
      { rewrite <- Z.pow_add_r by lia. f_equal. unfold d. lia. }
      assert (0 < 2 ^ (- (d - 1))) by (apply Z.pow_pos_nonneg; lia).
      assert (2 ^ la * 2 ^ (- (d - 1)) <= a * 2 ^ (- (d - 1)))
        by (apply Z.mul_le_mono_nonneg_r; lia).
      lia.
Qed.

Lemma div_magnitude_exact (a b : Z) :
  0 <= a < 2 ^ 53 -> 0 < b < 2 ^ 53 ->
  let '(m, s) := div_magnitude a b in
  0 <= s /\ 0 <= m /\ m / 2 ^ s = a / b.
Proof.
  intros [Ha Ha'] [Hb Hb']. unfold div_magnitude.
  destruct (Z.eqb_spec a 0) as [->|Hne].
  - split; [lia|]. split; [lia|]. rewrite Z.div_0_l; [reflexivity|lia].
  - assert (Hapos : 0 < a) by lia.
    destruct (@log2_quot_spec a b Hapos Hb) as [[HL1 HL2] [HLp HLn]].
    set (L := log2_quot a b) in *.
    assert (Hla : Z.log2 a < 53) by (apply Z.log2_lt_pow2; [lia|exact Ha']).
    assert (Hlb : Z.log2 b < 53) by (apply Z.log2_lt_pow2; [lia|exact Hb']).
    pose proof (Z.log2_nonneg a). pose proof (Z.log2_nonneg b).
    assert (Hs : Z.min 1074 (52 - L) = 52 - L) by lia. rewrite Hs.
    assert (Hs0 : 0 <= 52 - L) by lia.
    destruct (Z.leb_spec 0 (52 - L)); [|lia].
    assert (Hb2 : b < 2 ^ (52 - L + 1)).
    { destruct (Z.le_gt_cases 0 L) as [HLs|HLs].
      - specialize (HLp HLs).
        assert (E : 2 ^ 53 = 2 ^ (52 - L + 1) * 2 ^ L).
        { rewrite <- Z.pow_add_r by lia. f_equal. lia. }
        assert (0 < 2 ^ L) by (apply Z.pow_pos_nonneg; lia).
        assert (0 < 2 ^ (52 - L + 1)) by (apply Z.pow_pos_nonneg; lia).
        nia.
      - specialize (HLn HLs).
        assert (E : 2 ^ (52 - L + 1) = 2 ^ 53 * 2 ^ (- L)).
        { rewrite <- Z.pow_add_r by lia. f_equal. lia. }
        assert (0 < 2 ^ (- L)) by (apply Z.pow_pos_nonneg; lia).
        nia. }
    split; [lia|]. split.
    + destruct (@round_half_even_cases (a * 2 ^ (52 - L)) b Hb) as [E|[E _]];
        rewrite E;
        assert (0 <= a * 2 ^ (52 - L) / b)
          by (apply Z.div_pos; [apply Z.mul_nonneg_nonneg; [lia|apply Z.pow_nonneg; lia]|lia]);
        lia.
    + apply round_half_even_trunc; lia.
Qed.

(** On integers a double holds exactly, [N / K] raises nothing when [K] is
    not zero and [int(N/K)] is the exact quotient truncated toward zero. *)
Lemma int_truediv_small (N K : Z) :
  K <> 0 -> Z.abs N < 2 ^ 53 -> Z.abs K < 2 ^ 53 ->
  int_truediv N K = inr (Z.quot N K).
Proof.
  intros HK HN HKb. unfold int_truediv, truediv.
  destruct (Z.eqb_spec K 0) as [|_]; [contradiction|].
  pose proof (@div_magnitude_exact (Z.abs N) (Z.abs K)) as Hex.
  destruct (div_magnitude (Z.abs N) (Z.abs K)) as [m s].
  destruct Hex as [Hs [Hm Hdiv]]; [lia|lia|].
  assert (HP : 0 < 2 ^ s) by (apply Z.pow_pos_nonneg; lia).
  assert (Hover : (s <=? 0) && (2 ^ 1024 <=? m * 2 ^ (- s)) = false).
  { destruct (Z.leb_spec s 0) as [Hs0|]; [|reflexivity].
    assert (s = 0) by lia. subst s.
    change (- 0) with 0. rewrite Z.pow_0_r, Z.mul_1_r.
    rewrite Z.pow_0_r, Z.div_1_r in Hdiv.
    assert (Z.abs N / Z.abs K <= Z.abs N)
      by (apply Z.div_le_upper_bound; nia).
    assert (2 ^ 53 < 2 ^ 1024) by (apply Z.pow_lt_mono_r; lia).
    destruct (Z.leb_spec (2 ^ 1024) m); [lia|reflexivity]. }
  rewrite Hover. unfold bind, ret. f_equal. unfold py_int.
  destruct (Z.leb_spec 0 s); [|lia].
  rewrite (Z.quot_div N K HK), <- Hdiv.
  assert (Hsg : Z.sgn N * Z.sgn K = 1 \/ Z.sgn N * Z.sgn K = -1 \/
                Z.sgn N * Z.sgn K = 0)
    by (destruct N, K; cbn; auto).
  destruct Hsg as [E|[E|E]]; rewrite E.
  - rewrite !Z.mul_1_l. apply Z.quot_div_nonneg; lia.
  - replace (-1 * m) with (- m) by lia.
    rewrite Z.quot_opp_l, Z.quot_div_nonneg by lia. lia.
  - rewrite !Z.mul_0_l. apply Z.quot_0_l. lia.
Qed.

(** Where [int(x)] is positive, [np.floor(x)] is the same integer. *)
Lemma int_truediv_floor (N K size : Z) :
  int_truediv N K = inr size -> 0 < size -> floor_truediv N K = IZR size.
Proof.
  unfold int_truediv, floor_truediv.
  destruct (truediv N K) as [e|[m s]]; unfold bind, ret; [discriminate|].
  intros H Hpos. injection H as <-. f_equal. unfold py_int, np_floor in *.
  destruct (Z.leb_spec 0 s) as [Hs|Hs]; [|reflexivity].
  assert (HP : 0 < 2 ^ s) by (apply Z.pow_pos_nonneg; lia).
  destruct (Z.lt_ge_cases m 0) as [Hm|Hm].
  - exfalso. replace m with (- - m) in Hpos by lia.
    rewrite Z.quot_opp_l in Hpos by lia.
    assert (0 <= Z.quot (- m) (2 ^ s)) by (apply Z.quot_pos; lia). lia.
  - symmetry. apply Z.quot_div_nonneg; lia.
Qed.

End TrueDivision.

(** ** Estimators *)

Lemma reduce_matrix_sum (shade : list matrix) :
  shade <> [] -> reduce np_add shade = inr (matrix_sum shade).
Proof. destruct shade; [congruence|reflexivity]. Qed.

Lemma estimators_loop_map (shades : list (list matrix)) (N K : Z)
  (estimators : list matrix) :
  Forall (fun shade => shade <> []) shades ->
  estimators_loop shades N K estimators =
  inr (estimators ++
       map (fun shade => divide (matrix_sum shade) (floor_truediv N K)) shades).
Proof.
  revert estimators.
  induction shades as [|shade shades IH]; intros estimators Hne.
  - cbn [estimators_loop map]. rewrite app_nil_r. reflexivity.
  - inversion Hne as [|? ? Hs Hne']; subst. cbn [estimators_loop map].
    rewrite (reduce_matrix_sum Hs). cbn [bind].
    rewrite (IH _ Hne'), <- app_assoc. reflexivity.
Qed.

(** What [get_estimators] returns once the chunk size [int(N/K)] is
    positive: one estimator per chunk of [chunks], the short trailing chunk
    included. *)
Lemma get_estimators_positive (shadow : list matrix) (N K size : Z) :
  int_truediv N K = inr size -> (0 < size)%Z ->
  let m := Z.to_nat size in
  get_estimators shadow N K =
  inr (map (fun j =>
              divide (matrix_sum (slice shadow (j * m) (j * m + m)))
                (IZR size))
         (seq 0 ((length shadow + m - 1) / m))).
Proof.
  intros Hsize Hq m. unfold get_estimators. rewrite Hsize. cbn [bind].
  rewrite (chunks_positive _ Hq). cbn [bind]. fold m.
  rewrite estimators_loop_map.
  - cbn [app]. rewrite map_map, (@int_truediv_floor N K size Hsize Hq). reflexivity.
  - apply Forall_forall. intros shade Hin. apply in_map_iff in Hin.
    destruct Hin as [j [<- Hj]]. apply in_seq in Hj.
    apply slice_nonempty; [unfold m; lia|].
    apply range0_bound; [unfold m; lia|lia].
Qed.

Lemma get_estimators_zero_K (shadow : list matrix) (N : Z) :
  get_estimators shadow N 0 = inl ZeroDivisionError.
Proof. reflexivity. Qed.

(** An exception of [N/K] leaves [get_estimators] at its first line. *)
Lemma get_estimators_truediv_error (shadow : list matrix) (N K : Z) (e : exn) :
  truediv N K = inl e -> get_estimators shadow N K = inl e.
Proof.
  intros H. unfold get_estimators, int_truediv. rewrite H. reflexivity.
Qed.

Lemma get_estimators_zero_size (shadow : list matrix) (N K : Z) :
  int_truediv N K = inr 0%Z -> get_estimators shadow N K = inl ValueError.
Proof. intros H. unfold get_estimators. rewrite H. reflexivity. Qed.

Lemma get_estimators_negative_size (shadow : list matrix) (N K size : Z) :
  int_truediv N K = inr size -> (size < 0)%Z ->
  get_estimators shadow N K = inr [].
Proof.
  intros H Hq. unfold get_estimators. rewrite H. cbn [bind].
  unfold chunks, range0.
  destruct (Z.eqb_spec size 0); [lia|].
  destruct (Z.ltb_spec size 0); [|lia]. reflexivity.
Qed.

Lemma quot_floor_positive (N K : Z) :
  (1 <= K)%Z -> (1 <= N / K)%Z -> Z.quot N K = (N / K)%Z.
Proof.
  intros HK Hq. apply Z.quot_div_nonneg; [|lia].
  destruct (Z.lt_ge_cases N 0) as [Hneg|]; [|assumption].
  assert (N / K < 0)%Z by (apply Z.div_lt_upper_bound; lia). lia.
Qed.

(** For positive [N] and [K] a double holds exactly, a quotient
    [floor(N/K) >= 1] is the chunk size. *)
Lemma int_truediv_floor_positive (N K : Z) :
  (0 <= N < 2 ^ 53)%Z -> (1 <= K < 2 ^ 53)%Z -> (1 <= N / K)%Z ->
  int_truediv N K = inr (N / K)%Z.
Proof.
  intros HN HK Hq. rewrite <- (@quot_floor_positive N K) by lia.
  apply int_truediv_small; lia.
Qed.

(** C1, on the input N = 7, K = 2.  The notebook announces K equally-sized
    chunks and K estimators; [chunks] also yields the short trailing chunk, so
    seven snapshots give three estimators, the third being the lone trailing
    snapshot divided by the full batch size 3. *)
Theorem get_estimators_trailing_batch (s0 s1 s2 s3 s4 s5 s6 : matrix) :
  get_estimators [s0; s1; s2; s3; s4; s5; s6] 7 2 =
  inr [divide (np_add (np_add s0 s1) s2) 3;
       divide (np_add (np_add s3 s4) s5) 3;
       divide s6 3].
Proof. reflexivity. Qed.

(** The number of estimators is the number of chunks, [ceil(len / m)]. *)
Lemma get_estimators_length (shadow ests : list matrix) (N K size : Z) :
  int_truediv N K = inr size -> (0 < size)%Z ->
  get_estimators shadow N K = inr ests ->
  let m := Z.to_nat size in
  length ests = (length shadow + m - 1) / m.
Proof.
  intros Hsize Hq Hget m.
  rewrite (@get_estimators_positive shadow N K size Hsize Hq) in Hget.
  injection Hget as <-. rewrite length_map, length_seq. reflexivity.
Qed.

(** The case of the specification's own example N = 503, K = 100: 101
    estimators, not 100. *)
Lemma get_estimators_503_100 (shadow : list matrix) :
  length shadow = 503 ->
  exists ests, get_estimators shadow 503 100 = inr ests /\ length ests = 101.
Proof.
  intros Hlen.
  assert (Hsize : int_truediv 503 100 = inr 5%Z) by reflexivity.
  assert (Hq : (0 < 5)%Z) by lia.
  eexists. split; [apply (@get_estimators_positive shadow _ _ _ Hsize Hq)|].
  rewrite length_map, length_seq, Hlen. reflexivity.
Qed.

(** The batches on every input with [K >= 1] and [m = floor(N/K) >= 1], [N]
    the length of the shadow, a number a double holds exactly, and the
    snapshots all [d]-by-[d]: there are [ceil(N/m) >= K] estimators, exactly
    [K] of them if and only if [N = K * m]; and for [i < K] estimator [i] is
    the arithmetic mean of the full batch [shadow[i*m : (i+1)*m]]. *)
Theorem get_estimators_batches (d : nat) (shadow : list matrix) (K : nat) :
  let N := length shadow in
  let m := N / K in
  Forall (shape d d) shadow -> (Z.of_nat N < 2 ^ 53)%Z ->
  1 <= K -> 1 <= m ->
  exists ests,
    get_estimators shadow (Z.of_nat N) (Z.of_nat K) = inr ests /\
    length ests = (N + m - 1) / m /\
    K <= length ests /\
    (length ests = K <-> N = K * m) /\
    forall i, i < K ->
      length (slice shadow (i * m) ((i + 1) * m)) = m /\
      nth_error ests i = Some (batch_mean (slice shadow (i * m) ((i + 1) * m))).
Proof.
  intros N m _ HN HK Hm.
  assert (Hdiv : (Z.of_nat N / Z.of_nat K)%Z = Z.of_nat m)
    by (unfold m; rewrite Nat2Z.inj_div; reflexivity).
  assert (HKm : K * m <= N) by (unfold m; apply Nat.Div0.mul_div_le).
  assert (Hsize : int_truediv (Z.of_nat N) (Z.of_nat K) = inr (Z.of_nat m)).
  { rewrite <- Hdiv. apply int_truediv_floor_positive; nia. }
  assert (Hq : (0 < Z.of_nat m)%Z) by lia.
  assert (Hfull : K <= (N + m - 1) / m).
  { rewrite <- (@ceil_div_exact K m) at 1 by lia.
    apply Nat.Div0.div_le_mono. lia. }
  pose proof (@get_estimators_positive shadow _ _ _ Hsize Hq) as Hget.
  cbv zeta in Hget. rewrite Nat2Z.id in Hget. fold N in Hget.
  eexists. split; [exact Hget|].
  rewrite length_map, length_seq.
  split; [reflexivity|]. split; [exact Hfull|]. split.
  - split.
    + intros Hlen. destruct (Nat.eq_dec N (K * m)) as [|Hne]; [assumption|].
      assert (Hmore : Datatypes.S K <= (N + m - 1) / m).
      { rewrite <- (Nat.div_mul (Datatypes.S K) m) at 1 by lia.
        apply Nat.Div0.div_le_mono. lia. }
      lia.
    + intros HNeq. replace (N + m - 1) with (K * m + m - 1) by lia.
      apply ceil_div_exact. lia.
  - intros i Hi.
    assert (Hsl : length (slice shadow (i * m) ((i + 1) * m)) = m).
    { replace ((i + 1) * m) with (i * m + m) by lia.
      rewrite slice_length. fold N. nia. }
    split; [exact Hsl|].
    rewrite nth_error_map, nth_error_seq.
    destruct (Nat.ltb_spec i ((N + m - 1) / m)); [|lia].
    cbn [option_map Nat.add].
    unfold batch_mean. rewrite Hsl, <- INR_IZR_INZ.
    replace ((i + 1) * m) with (i * m + m) by lia. reflexivity.
Qed.

Lemma get_estimators_batches_witness :
  let shadow := [np_eye 2; Hmat; Hmat; np_eye 2; Hmat] in
  (Forall (shape 2 2) shadow /\ (Z.of_nat (length shadow) < 2 ^ 53)%Z /\
   1 <= 2 /\ 1 <= length shadow / 2) /\
  exists ests,
    get_estimators shadow 5 2 = inr ests /\ length ests = 3.
Proof.
  intros shadow.
  assert (H0 : Forall (shape 2 2) shadow).
  { repeat (apply Forall_cons;
            [first [apply np_eye_shape | apply Hmat_shape]|]).
    apply Forall_nil. }
  assert (Hb : (Z.of_nat (length shadow) < 2 ^ 53)%Z) by (vm_compute; reflexivity).
  assert (H1 : 1 <= 2) by lia.
  assert (H2 : 1 <= length shadow / 2) by (vm_compute; lia).
  split; [auto|].
  destruct (@get_estimators_batches 2 shadow 2 H0 Hb H1 H2) as [ests [E [L _]]].
  exists ests. split; [exact E|exact L].
Defined.

(** C10, as stated, fails.  [(3*10^17 - 1) / 10^17] rounds to the double
    3.0, so the call with [N = 3*10^17 - 1], [K = 10^17] cuts chunks of three
    snapshots, while the call with [N = 2], [K = 1], of the same floored
    quotient 2, cuts chunks of two. *)
Lemma get_estimators_rounded_quotient :
  ~ (forall (shadow : list matrix) (N K N' K' : Z),
       (0 < N)%Z -> (0 < K)%Z -> (0 < N')%Z -> (0 < K')%Z ->
       (N / K = N' / K')%Z -> (1 <= N / K)%Z ->
       get_estimators shadow N K = get_estimators shadow N' K').
Proof.
  intros Hclaim.
  specialize (Hclaim [np_eye 1; np_eye 1; np_eye 1]
                (3 * 10 ^ 17 - 1)%Z (10 ^ 17)%Z 2%Z 1%Z).
  assert (E1 : get_estimators [np_eye 1; np_eye 1; np_eye 1]
                 (3 * 10 ^ 17 - 1) (10 ^ 17) =
               inr [divide (np_add (np_add (np_eye 1) (np_eye 1)) (np_eye 1))
                      3]) by reflexivity.
  assert (E2 : get_estimators [np_eye 1; np_eye 1; np_eye 1] 2 1 =
               inr [divide (np_add (np_eye 1) (np_eye 1)) 2;
                    divide (np_eye 1) 2]) by reflexivity.
  rewrite E1, E2 in Hclaim.
  assert (H : (0 < 3 * 10 ^ 17 - 1)%Z /\ (0 < 10 ^ 17)%Z /\
              ((3 * 10 ^ 17 - 1) / 10 ^ 17 = 2 / 1)%Z /\
              (1 <= (3 * 10 ^ 17 - 1) / 10 ^ 17)%Z)
    by (vm_compute; repeat split; discriminate).
  destruct H as [H1 [H2 [H3 H4]]].
  specialize (Hclaim H1 H2 ltac:(lia) ltac:(lia) H3 H4).
  discriminate Hclaim.
Qed.

(** C10, amended.  [get_estimators] never compares the length of the shadow
    with [N], and for positive [N], [K], [N'], [K'] that a double holds
    exactly (below [2^53]) it reads them only through [floor(N/K)]: with the
    same quotient [>= 1] and any shadow, of whatever length, the two calls
    return the same; and they raise nothing when the snapshots have one common
    shape. *)
Theorem get_estimators_quotient_only (r c : nat) (shadow : list matrix)
  (N K N' K' : Z) :
  (0 < N < 2 ^ 53)%Z -> (0 < K < 2 ^ 53)%Z ->
  (0 < N' < 2 ^ 53)%Z -> (0 < K' < 2 ^ 53)%Z ->
  (N / K = N' / K')%Z -> (1 <= N / K)%Z ->
  get_estimators shadow N K = get_estimators shadow N' K' /\
  (Forall (shape r c) shadow ->
   exists ests, get_estimators shadow N K = inr ests).
Proof.
  intros HN HK HN' HK' Heq Hq.
  assert (Hsize : int_truediv N K = inr (N / K)%Z)
    by (apply int_truediv_floor_positive; lia).
  assert (Hsize' : int_truediv N' K' = inr (N / K)%Z)
    by (rewrite Heq; apply int_truediv_floor_positive; lia).
  rewrite (@get_estimators_positive shadow N K _ Hsize) by lia.
  rewrite (@get_estimators_positive shadow N' K' _ Hsize') by lia.
  split; [reflexivity|intros _; eexists; reflexivity].
Qed.

Lemma get_estimators_quotient_only_witness :
  let shadow := [np_eye 2; Hmat; Hmat] in
  ((0 < 500 < 2 ^ 53)%Z /\ (0 < 100 < 2 ^ 53)%Z /\
   (0 < 11 < 2 ^ 53)%Z /\ (0 < 2 < 2 ^ 53)%Z /\
   (500 / 100 = 11 / 2)%Z /\ (1 <= 500 / 100)%Z) /\
  get_estimators shadow 500 100 = get_estimators shadow 11 2.
Proof.
  intros shadow.
  assert (H1 : (0 < 500 < 2 ^ 53)%Z) by (split; reflexivity).
  assert (H2 : (0 < 100 < 2 ^ 53)%Z) by (split; reflexivity).
  assert (H3 : (0 < 11 < 2 ^ 53)%Z) by (split; reflexivity).
  assert (H4 : (0 < 2 < 2 ^ 53)%Z) by (split; reflexivity).
  assert (H5 : (500 / 100 = 11 / 2)%Z) by reflexivity.
  assert (H6 : (1 <= 500 / 100)%Z) by (vm_compute; discriminate).
  split; [auto 10|].
  exact (proj1 (@get_estimators_quotient_only 2 2 shadow _ _ _ _
                  H1 H2 H3 H4 H5 H6)).
Defined.

(** C5, as stated, fails: a negative [K] is below 1 and raises nothing. *)
Lemma get_estimators_no_validation :
  ~ (forall (shadow : list matrix) (N K : Z),
       Z.of_nat (length shadow) = N ->
       (K < 1 \/ N / K < 1)%Z ->
       raises (get_estimators shadow N K)).
Proof.
  intros Hclaim.
  destruct (Hclaim (repeat (np_eye 2) 5) 5%Z (-1)%Z eq_refl) as [e He].
  - left. lia.
  - discriminate He.
Qed.

(** C5, amended.  [get_estimators] validates nothing.  It raises
    ZeroDivisionError when [K = 0].  For [N] and [K] that a double holds
    exactly (below [2^53] in absolute value) it raises ValueError, from the
    zero step of [range], when [K <> 0] and [|N| < |K|], which covers
    [K >= 1] with [N >= 0] and [floor(N/K) < 1]; neither error depends on the
    shadow.  For [K <= -1] and [N >= -K] it raises nothing and returns no
    estimator.  For [K >= 1] and [floor(N/K) >= 1] it raises nothing when the
    snapshots have one common shape. *)
Theorem get_estimators_raises (r c : nat) (shadow : list matrix) (N K : Z) :
  (K = 0%Z -> get_estimators shadow N K = inl ZeroDivisionError) /\
  (K <> 0%Z -> (Z.abs N < Z.abs K)%Z -> (Z.abs K < 2 ^ 53)%Z ->
   get_estimators shadow N K = inl ValueError) /\
  ((1 <= K < 2 ^ 53)%Z -> (0 <= N)%Z -> (N / K < 1)%Z ->
   get_estimators shadow N K = inl ValueError) /\
  ((- 2 ^ 53 < K < 0)%Z -> (- K <= N < 2 ^ 53)%Z ->
   get_estimators shadow N K = inr []) /\
  ((1 <= K)%Z -> (1 <= N / K)%Z -> (N < 2 ^ 53)%Z ->
   Forall (shape r c) shadow ->
   ~ raises (get_estimators shadow N K)).
Proof.
  repeat split.
  - intros ->. apply get_estimators_zero_K.
  - intros HK Habs Hb. apply get_estimators_zero_size.
    rewrite int_truediv_small by lia. f_equal.
    apply Z.quot_small_iff; assumption.
  - intros HK HN Hq. apply get_estimators_zero_size.
    assert (N < K)%Z.
    { destruct (Z.lt_ge_cases N K) as [|Hge]; [assumption|].
      assert (1 <= N / K)%Z by (apply Z.div_le_lower_bound; lia). lia. }
    rewrite int_truediv_small by lia. f_equal.
    apply Z.quot_small. lia.
  - intros HK HN.
    apply (@get_estimators_negative_size shadow N K (Z.quot N K)).
    + apply int_truediv_small; lia.
    + replace K with (- - K)%Z by lia.
      rewrite Z.quot_opp_r by lia.
      rewrite Z.quot_div_nonneg by lia.
      assert (0 < N / - K)%Z by (apply Z.div_str_pos; lia). lia.
  - intros HK Hq HN _ [e He].
    assert (0 <= N)%Z.
    { destruct (Z.lt_ge_cases N 0) as [Hneg|]; [|assumption].
      assert (N / K < 0)%Z by (apply Z.div_lt_upper_bound; lia). lia. }
    assert (K <= N)%Z.
    { destruct (Z.lt_ge_cases N K) as [Hlt|]; [|assumption].
      rewrite Z.div_small in Hq by lia. lia. }
    rewrite (@get_estimators_positive shadow N K (N / K)%Z) in He;
      [discriminate|apply int_truediv_floor_positive; lia|lia].
Qed.

(** ** Sorting *)

Section Sorting.

Variable A : Type.
Variable leb : A -> A -> bool.

Lemma insert_by_perm (x : A) (l : list A) :
  Permutation (insert_by leb x l) (x :: l).
Proof.
  induction l as [|y l IH]; cbn [insert_by]; [reflexivity|].
  destruct (leb x y); [reflexivity|].
  rewrite IH. apply perm_swap.
Qed.

Lemma sort_by_perm (l : list A) : Permutation (sort_by leb l) l.
Proof.
  induction l as [|x l IH]; cbn [sort_by]; [reflexivity|].
  rewrite insert_by_perm. constructor. exact IH.
Qed.

Lemma sort_by_length (l : list A) : length (sort_by leb l) = length l.
Proof. apply Permutation_length, sort_by_perm. Qed.

Hypothesis leb_total : forall x y, leb x y = false -> leb y x = true.

Lemma insert_by_sorted (x : A) (l : list A) :
  Sorted (fun a b => leb a b = true) l ->
  Sorted (fun a b => leb a b = true) (insert_by leb x l).
Proof.
  induction l as [|y l IH]; intros Hs; cbn [insert_by].
  - repeat constructor.
  - destruct (leb x y) eqn:E.
    + constructor; [exact Hs|constructor; exact E].
    + inversion Hs as [|? ? Hs' Hhd]; subst.
      constructor; [apply IH; exact Hs'|].
      destruct l as [|z l]; cbn [insert_by].
      * constructor. apply leb_total. exact E.
      * destruct (leb x z); constructor.
        -- apply leb_total. exact E.
        -- inversion Hhd; assumption.
Qed.

Lemma sort_by_sorted (l : list A) :
  Sorted (fun a b => leb a b = true) (sort_by leb l).
Proof.
  induction l as [|x l IH]; cbn [sort_by]; [constructor|].
  apply insert_by_sorted. exact IH.
Qed.

End Sorting.

Lemma Rleb_le (x y : R) : Rleb x y = true <-> (x <= y)%R.
Proof. unfold Rleb. destruct (Rle_dec x y); split; intros; try discriminate; auto. Qed.

Lemma Rleb_gt (x y : R) : Rleb x y = false <-> (y < x)%R.
Proof.
  unfold Rleb. destruct (Rle_dec x y); split; intros; try discriminate;
    try lra; auto.
Qed.

Lemma Rsort_sorted (l : list R) : Sorted Rle (Rsort l).
Proof.
  assert (H : Sorted (fun a b => Rleb a b = true) (Rsort l)).
  { apply sort_by_sorted. intros x y Hxy.
    apply Rleb_gt in Hxy. apply Rleb_le. lra. }
  induction H as [|a s Hs IH Hhd]; constructor; [exact IH|].
  destruct Hhd; constructor. apply Rleb_le. assumption.
Qed.

Lemma Cleb_true (a b : C) :
  Cleb a b = true <->
  (real a < real b \/ (real a = real b /\ imag a <= imag b))%R.
Proof.
  unfold Cleb, Rltb, Reqb, Rleb.
  destruct (Rlt_dec (real a) (real b)), (Req_dec_T (real a) (real b)),
    (Rle_dec (imag a) (imag b)); cbn [orb andb];
    split; intros H; try discriminate; try reflexivity; try lra; auto.
Qed.

Lemma Cleb_real (a b : C) : Cleb a b = true -> (real a <= real b)%R.
Proof. intros H. apply Cleb_true in H. lra. Qed.

Lemma Cleb_total (a b : C) : Cleb a b = false -> Cleb b a = true.
Proof.
  intros H. apply Cleb_true.
  destruct (Rlt_dec (real b) (real a)) as [|Hn]; [left; assumption|].
  destruct (Req_dec_T (real b) (real a)) as [He|Hne].
  - destruct (Rle_dec (imag b) (imag a)) as [|Hi]; [right; split; assumption|].
    assert (Cleb a b = true) by (apply Cleb_true; right; lra). congruence.
  - assert (Cleb a b = true) by (apply Cleb_true; left; lra). congruence.
Qed.

(** Sorting by real part and projecting commutes with projecting and
    sorting. *)
Lemma sort_by_real_map (l : list C) :
  map real (sort_by_real l) = Rsort (map real l).
Proof.
  unfold sort_by_real, Rsort.
  induction l as [|z l IH]; cbn [sort_by map]; [reflexivity|].
  rewrite <- IH. generalize (sort_by (fun a b => Rleb (real a) (real b)) l).
  intros s. induction s as [|a s IHs]; cbn [insert_by map]; [reflexivity|].
  destruct (Rleb (real z) (real a)); cbn [map]; [reflexivity|].
  rewrite IHs. reflexivity.
Qed.

Lemma insert_Cleb_map (z : C) (s : list C) :
  Sorted (fun a b => Cleb a b = true) s ->
  map real (insert_by Cleb z s) = insert_by Rleb (real z) (map real s).
Proof.
  induction s as [|a s IH]; intros Hs; cbn [insert_by map]; [reflexivity|].
  inversion Hs as [|? ? Hs' Hhd]; subst.
  destruct (Cleb z a) eqn:E.
  - apply Cleb_real in E. apply Rleb_le in E. rewrite E. reflexivity.
  - cbn [map]. rewrite (IH Hs').
    destruct (Rleb (real z) (real a)) eqn:E'; [|reflexivity].
    apply Rleb_le in E'. apply Cleb_total, Cleb_real in E.
    assert (Heq : real z = real a) by lra.
    destruct s as [|b s]; cbn [map insert_by].
    + rewrite Heq. reflexivity.
    + inversion Hhd as [|? ? Hab]; subst. apply Cleb_real in Hab.
      assert (Hzb : Rleb (real z) (real b) = true) by (apply Rleb_le; lra).
      rewrite Hzb, Heq. reflexivity.
Qed.

Lemma np_sort_map (l : list C) : map real (np_sort l) = Rsort (map real l).
Proof.
  unfold np_sort, Rsort.
  induction l as [|z l IH]; cbn [sort_by map]; [reflexivity|].
  rewrite insert_Cleb_map, IH; [reflexivity|].
  apply sort_by_sorted. exact Cleb_total.
Qed.

(** ** The median *)

Lemma firstn_skipn_one (A : Type) (d : A) (l : list A) (i : nat) :
  i < length l -> firstn 1 (skipn i l) = [nth i l d].
Proof.
  revert l. induction i as [|i IH]; intros [|a l] Hi; simpl in Hi; try lia.
  - reflexivity.
  - cbn [skipn nth]. apply IH. lia.
Qed.

Lemma firstn_skipn_two (A : Type) (d : A) (l : list A) (i : nat) :
  Datatypes.S i < length l ->
  firstn 2 (skipn i l) = [nth i l d; nth (Datatypes.S i) l d].
Proof.
  revert l. induction i as [|i IH]; intros [|a l] Hi; simpl in Hi; try lia.
  - destruct l as [|b l]; simpl in Hi; [lia|reflexivity].
  - cbn [skipn]. rewrite (IH l) by lia. reflexivity.
Qed.

Lemma mod2_even (n : nat) : (n mod 2 =? 1) = negb (Nat.even n).
Proof.
  destruct (Nat.Even_or_Odd n) as [[k ->]|[k ->]].
  - rewrite Nat.even_mul. rewrite Nat.mul_comm, Nat.Div0.mod_mul. reflexivity.
  - rewrite Nat.even_add, Nat.even_mul.
    rewrite Nat.add_comm, Nat.mul_comm, Nat.Div0.mod_add. reflexivity.
Qed.

Lemma real_nth (l : list C) (i : nat) :
  real (nth i l C0) = nth i (map real l) 0%R.
Proof. symmetry. apply (map_nth real l C0 i). Qed.

Lemma half_bounds (n : nat) :
  0 < n -> n / 2 < n /\ (Nat.even n = true -> 1 <= n / 2).
Proof.
  intros Hn. split.
  - apply Nat.div_lt; lia.
  - intros He. apply Nat.even_spec in He. destruct He as [k ->].
    rewrite Nat.mul_comm, Nat.div_mul by lia. lia.
Qed.

(** The real part of numpy's median is the median of the real parts. *)
Lemma real_np_median (a : list C) :
  np_real (np_median a) = median_R (map real a).
Proof.
  unfold np_median, median_R. rewrite length_map.
  destruct (Nat.eqb_spec (length a) 0) as [|Hne]; [reflexivity|].
  rewrite mod2_even. rewrite <- np_sort_map.
  assert (Hlen : length (np_sort a) = length a) by apply sort_by_length.
  destruct (half_bounds (n := length a)) as [Hhalf Heven]; [lia|].
  destruct (Nat.even (length a)) eqn:E; cbn [negb np_real option_map]; f_equal.
  - specialize (Heven eq_refl). unfold slice.
    replace (length a / 2 + 1 - (length a / 2 - 1)) with 2 by lia.
    rewrite (firstn_skipn_two C0) by lia.
    replace (Datatypes.S (length a / 2 - 1)) with (length a / 2) by lia.
    rewrite <- !real_nth. unfold np_mean. cbn. lra.
  - unfold slice.
    replace (length a / 2 + 1 - length a / 2) with 1 by lia.
    rewrite (firstn_skipn_one C0) by lia.
    rewrite <- real_nth. unfold np_mean. cbn. lra.
Qed.

Lemma real_median_by_real (vals : list C) :
  option_map real (median_by_real vals) = median_R (map real vals).
Proof.
  unfold median_by_real, median_R. rewrite length_map.
  destruct (length vals =? 0); [reflexivity|].
  rewrite <- sort_by_real_map.
  destruct (Nat.even (length vals)); cbn [option_map]; f_equal.
  - rewrite <- !real_nth. reflexivity.
  - rewrite <- real_nth. reflexivity.
Qed.

(** C6.  For every sequence of estimators and every functional, the
    prediction is the real component of the median of the functional values:
    the middle value after sorting by real part, or for an even number of
    values the average of the two middle ones.  No clamping is applied: the
    prediction is that number whatever its size. *)
Theorem get_fidelity_prediction_median (state : Type)
  (state_fidelity : state -> matrix -> C) (estimators : list matrix)
  (psi : state) :
  let predictions := map (fun rho => state_fidelity psi rho) estimators in
  get_fidelity_prediction state_fidelity estimators psi =
  option_map real (median_by_real predictions) /\
  get_fidelity_prediction state_fidelity estimators psi =
  median_R (map real predictions).
Proof.
  intros predictions. unfold get_fidelity_prediction. fold predictions.
  rewrite real_median_by_real, real_np_median. split; reflexivity.
Qed.

(** A prediction above 1 is returned as it is. *)
Lemma get_fidelity_prediction_median_witness :
  get_fidelity_prediction (fun (_ : unit) (rho : matrix) => entry rho 0 0)
    [[[RtoC (5 / 4)]]; [[RtoC (3 / 2)]]; [[RtoC 1]]] tt
  = Some (5 / 4)%R.
Proof.
  rewrite (proj2 (get_fidelity_prediction_median _ _ _)).
  unfold median_R, Rsort.
  cbn [map length Nat.eqb Nat.even Nat.div Nat.divmod fst entry nth real
       RtoC sort_by].
  assert (E1 : Rleb 1 (5/4) = true) by (apply Rleb_le; lra).
  assert (E2 : Rleb (3/2) 1 = false) by (apply Rleb_gt; lra).
  assert (E3 : Rleb (5/4) 1 = false) by (apply Rleb_gt; lra).
  assert (E4 : Rleb (5/4) (3/2) = true) by (apply Rleb_le; lra).
  cbn [insert_by]. rewrite E2. cbn [insert_by]. rewrite E3. cbn [insert_by].
  rewrite E4. reflexivity.
Defined.

(** ** Robustness of the median *)

Lemma count_if_cons (A : Type) (f : A -> bool) (x : A) (l : list A) :
  count_if f (x :: l) = (if f x then 1 else 0) + count_if f l.
Proof. unfold count_if. cbn [filter]. destruct (f x); reflexivity. Qed.

Lemma count_if_perm (A : Type) (f : A -> bool) (l l' : list A) :
  Permutation l l' -> count_if f l = count_if f l'.
Proof.
  intros HP. induction HP as [|x l l' _ IH|x y l|l l' l'' _ IH1 _ IH2].
  - reflexivity.
  - rewrite !count_if_cons, IH. reflexivity.
  - rewrite !count_if_cons. lia.
  - congruence.
Qed.

Lemma count_if_all (A : Type) (f : A -> bool) (l : list A) :
  (forall x, In x l -> f x = true) -> count_if f l = length l.
Proof.
  induction l as [|x l IH]; intros H; [reflexivity|].
  rewrite count_if_cons, (H x (or_introl eq_refl)), IH; [reflexivity|].
  intros y Hy. apply H. right. exact Hy.
Qed.

Lemma count_if_combine_fst (A B : Type) (f : A -> bool) (l : list A)
  (l' : list B) :
  length l' = length l ->
  count_if (fun p => f (fst p)) (combine l l') = count_if f l.
Proof.
  revert l'. induction l as [|x l IH]; intros [|y l'] Hlen; simpl in Hlen;
    try discriminate; [reflexivity|].
  cbn [combine]. rewrite !count_if_cons. cbn [fst]. rewrite IH by lia.
  reflexivity.
Qed.

Lemma count_if_combine_snd (A : Type) (l : list A) (mask : list bool) :
  length mask = length l ->
  count_if (fun p => snd p) (combine l mask) = count_true mask.
Proof.
  unfold count_true.
  revert mask. induction l as [|x l IH]; intros [|y mask] Hlen; simpl in Hlen;
    try discriminate; [reflexivity|].
  cbn [combine]. rewrite !count_if_cons. cbn [snd]. rewrite IH by lia.
  reflexivity.
Qed.

(** If more elements satisfy [f] than satisfy [g], one satisfies [f] and not
    [g]. *)
Lemma count_if_pigeonhole (A : Type) (f g : A -> bool) (l : list A) :
  count_if g l < count_if f l ->
  exists x, In x l /\ f x = true /\ g x = false.
Proof.
  induction l as [|x l IH]; intros H; [unfold count_if in H; simpl in H; lia|].
  rewrite !count_if_cons in H.
  destruct (f x) eqn:Ef, (g x) eqn:Eg.
  - destruct IH as [y [Hy Hfg]]; [lia|]. exists y. split; [right|]; assumption.
  - exists x. split; [left; reflexivity|split; assumption].
  - destruct IH as [y [Hy Hfg]]; [lia|]. exists y. split; [right|]; assumption.
  - destruct IH as [y [Hy Hfg]]; [lia|]. exists y. split; [right|]; assumption.
Qed.

Lemma Rsort_strongly_sorted (l : list R) : StronglySorted Rle (Rsort l).
Proof.
  apply Sorted_StronglySorted; [|apply Rsort_sorted].
  intros x y z. apply Rle_trans.
Qed.

Lemma sorted_count_le (s : list R) (p : nat) :
  StronglySorted Rle s -> p < length s ->
  p + 1 <= count_if (fun x => Rleb x (nth p s 0%R)) s.
Proof.
  intros Hs. revert p. induction Hs as [|a s Hs IH Hall]; intros p Hp;
    simpl in Hp; [lia|].
  rewrite count_if_cons. destruct p as [|p]; cbn [nth].
  - assert (E : Rleb a a = true) by (apply Rleb_le; lra). rewrite E. lia.
  - assert (E : Rleb a (nth p s 0%R) = true).
    { apply Rleb_le. rewrite Forall_forall in Hall. apply Hall.
      apply nth_In. lia. }
    rewrite E. specialize (IH p). lia.
Qed.

Lemma sorted_count_ge (s : list R) (p : nat) :
  StronglySorted Rle s -> p < length s ->
  length s - p <= count_if (fun x => Rleb (nth p s 0%R) x) s.
Proof.
  intros Hs. revert p. induction Hs as [|a s Hs IH Hall]; intros p Hp;
    simpl in Hp; [lia|].
  destruct p as [|p]; cbn [nth].
  - rewrite count_if_all; [lia|]. intros x [<-|Hx]; apply Rleb_le; [lra|].
    rewrite Forall_forall in Hall. apply Hall. exact Hx.
  - rewrite count_if_cons. specialize (IH p). cbn [length]. lia.
Qed.

Lemma sorted_nth_le (s : list R) (i j : nat) :
  StronglySorted Rle s -> i <= j -> j < length s ->
  (nth i s 0 <= nth j s 0)%R.
Proof.
  intros Hs. revert i j. induction Hs as [|a s Hs IH Hall]; intros i j Hij Hj;
    simpl in Hj; [lia|].
  destruct i as [|i], j as [|j]; cbn [nth]; try lia; try lra.
  - rewrite Forall_forall in Hall. apply Hall. apply nth_In. lia.
  - apply IH; lia.
Qed.

Lemma in_combine_nth (xs : list R) (mask : list bool) (x : R) (b : bool) :
  length mask = length xs -> In (x, b) (combine xs mask) ->
  exists i, i < length xs /\ nth i xs 0%R = x /\ nth i mask true = b.
Proof.
  intros Hlen Hin. apply (In_nth _ _ (0%R, true)) in Hin.
  destruct Hin as [i [Hi Hnth]].
  rewrite length_combine, Hlen, Nat.min_id in Hi.
  rewrite combine_nth in Hnth by congruence.
  injection Hnth as Hx Hb. exists i. auto.
Qed.

(** Below position [p] of the sorted list there are more than [p] values, so
    if at most [p] entries are masked one unmasked value lies at or below
    it; and symmetrically above. *)
Lemma unmasked_below (xs : list R) (mask : list bool) (p : nat) :
  length mask = length xs -> p < length xs -> count_true mask <= p ->
  exists i, i < length xs /\ nth i mask true = false /\
            (nth i xs 0 <= nth p (Rsort xs) 0)%R.
Proof.
  intros Hlen Hp Hc.
  set (t := nth p (Rsort xs) 0%R).
  destruct (@count_if_pigeonhole (R * bool)
              (fun pr => Rleb (fst pr) t) (fun pr => snd pr) (combine xs mask))
    as [[x b] [Hin [Hf Hg]]].
  - rewrite (@count_if_combine_fst _ _ (fun x => Rleb x t) xs mask Hlen).
    rewrite (@count_if_combine_snd _ xs mask Hlen).
    rewrite <- (@count_if_perm _ _ _ _ (sort_by_perm Rleb xs)).
    pose proof (@sorted_count_le (Rsort xs) p (Rsort_strongly_sorted xs)) as H.
    unfold Rsort in H at 1. rewrite sort_by_length in H.
    specialize (H Hp). fold (Rsort xs). fold t in H. lia.
  - destruct (@in_combine_nth xs mask x b Hlen Hin) as [i [Hi [Hx Hb]]].
    cbn [fst snd] in Hf, Hg. subst x. rewrite Hg in Hb.
    exists i. split; [exact Hi|]. split; [exact Hb|]. apply Rleb_le. exact Hf.
Qed.

Lemma unmasked_above (xs : list R) (mask : list bool) (p : nat) :
  length mask = length xs -> p < length xs ->
  count_true mask < length xs - p ->
  exists i, i < length xs /\ nth i mask true = false /\
            (nth p (Rsort xs) 0 <= nth i xs 0)%R.
Proof.
  intros Hlen Hp Hc.
  set (t := nth p (Rsort xs) 0%R).
  destruct (@count_if_pigeonhole (R * bool)
              (fun pr => Rleb t (fst pr)) (fun pr => snd pr) (combine xs mask))
    as [[x b] [Hin [Hf Hg]]].
  - rewrite (@count_if_combine_fst _ _ (fun x => Rleb t x) xs mask Hlen).
    rewrite (@count_if_combine_snd _ xs mask Hlen).
    rewrite <- (@count_if_perm _ _ _ _ (sort_by_perm Rleb xs)).
    pose proof (@sorted_count_ge (Rsort xs) p (Rsort_strongly_sorted xs)) as H.
    unfold Rsort in H at 1 2. rewrite sort_by_length in H.
    specialize (H Hp). fold (Rsort xs). fold t in H. lia.
  - destruct (@in_combine_nth xs mask x b Hlen Hin) as [i [Hi [Hx Hb]]].
    cbn [fst snd] in Hf, Hg. subst x. rewrite Hg in Hb.
    exists i. split; [exact Hi|]. split; [exact Hb|]. apply Rleb_le. exact Hf.
Qed.

Lemma parity_half (K : nat) :
  (Nat.even K = true -> K = 2 * (K / 2)) /\
  (Nat.even K = false -> K = 2 * (K / 2) + 1).
Proof.
  pose proof (Nat.div_mod_eq K 2) as Hdm.
  pose proof (Nat.mod_upper_bound K 2) as Hub.
  pose proof (mod2_even K) as Hpar.
  split; intros E; rewrite E in Hpar; cbn [negb] in Hpar.
  - destruct (Nat.eqb_spec (K mod 2) 1); [discriminate|]. lia.
  - destruct (Nat.eqb_spec (K mod 2) 1); [|discriminate]. lia.
Qed.

(** With at most [floor(K/2) - 1] masked entries, the median lies between two
    unmasked values. *)
Lemma median_R_between (xs : list R) (mask : list bool) :
  length mask = length xs ->
  (Z.of_nat (count_true mask) <= Z.of_nat (length xs) / 2 - 1)%Z ->
  exists m, median_R xs = Some m /\
    (exists i, i < length xs /\ nth i mask true = false /\
               (nth i xs 0 <= m)%R) /\
    (exists j, j < length xs /\ nth j mask true = false /\
               (m <= nth j xs 0)%R).
Proof.
  intros Hlen Hc.
  change 2%Z with (Z.of_nat 2) in Hc. rewrite <- Nat2Z.inj_div in Hc.
  assert (Hh : count_true mask + 1 <= length xs / 2) by lia.
  destruct (parity_half (length xs)) as [Heven Hodd].
  pose proof (Rsort_strongly_sorted xs) as Hss.
  assert (Hsl : length (Rsort xs) = length xs) by apply sort_by_length.
  unfold median_R.
  destruct (Nat.eqb_spec (length xs) 0) as [E0|_];
    [rewrite E0 in Hh; simpl in Hh; lia|].
  destruct (Nat.even (length xs)) eqn:E.
  - specialize (Heven eq_refl). eexists. split; [reflexivity|].
    assert (Hmid : (nth (length xs / 2 - 1) (Rsort xs) 0
                    <= nth (length xs / 2) (Rsort xs) 0)%R)
      by (apply sorted_nth_le; [exact Hss|lia|lia]).
    split.
    + destruct (@unmasked_below xs mask (length xs / 2 - 1))
        as [i [Hi [Hm Hle]]]; try lia.
      exists i. repeat split; try assumption. lra.
    + destruct (@unmasked_above xs mask (length xs / 2))
        as [j [Hj [Hm Hle]]]; try lia.
      exists j. repeat split; try assumption. lra.
  - specialize (Hodd eq_refl). eexists. split; [reflexivity|]. split.
    + destruct (@unmasked_below xs mask (length xs / 2))
        as [i [Hi [Hm Hle]]]; try lia.
      exists i. repeat split; assumption.
    + destruct (@unmasked_above xs mask (length xs / 2))
        as [j [Hj [Hm Hle]]]; try lia.
      exists j. repeat split; assumption.
Qed.

Lemma Rmaximum_ge (l : list R) (x : R) : In x l -> (x <= Rmaximum l)%R.
Proof.
  induction l as [|a l IH]; intros Hin; [contradiction|].
  cbn [Rmaximum]. destruct l as [|b l].
  - destruct Hin as [->|[]]. lra.
  - destruct Hin as [->|Hin].
    + apply Rmax_l.
    + eapply Rle_trans; [apply IH; exact Hin|apply Rmax_r].
Qed.

Lemma Rminimum_le (l : list R) (x : R) : In x l -> (Rminimum l <= x)%R.
Proof.
  induction l as [|a l IH]; intros Hin; [contradiction|].
  cbn [Rminimum]. destruct l as [|b l].
  - destruct Hin as [->|[]]. lra.
  - destruct Hin as [->|Hin].
    + apply Rmin_l.
    + eapply Rle_trans; [apply Rmin_r|apply IH; exact Hin].
Qed.

Lemma uncorrupted_In (vals : list C) (mask : list bool) (i : nat) :
  length mask = length vals -> i < length vals ->
  nth i mask true = false ->
  In (nth i vals C0) (uncorrupted vals mask).
Proof.
  intros Hlen Hi Hm. unfold uncorrupted.
  apply (in_map fst _ (nth i vals C0, nth i mask true)).
  apply filter_In. split.
  - rewrite <- combine_nth by congruence. apply nth_In.
    rewrite length_combine, Hlen, Nat.min_id. exact Hi.
  - cbn [snd]. rewrite Hm. reflexivity.
Qed.

(** C7.  For every list of [K] batch values and every corrupted variant in
    which at most [floor(K/2) - 1] entries are replaced by arbitrary values,
    the median prediction of the corrupted list lies between the minimum and
    the maximum of the uncorrupted values, and it differs from the prediction
    of the original list by no more than the largest deviation of an
    uncorrupted value from that prediction. *)
Theorem median_robust (vals corrupted : list C) (mask : list bool) :
  corrupted_variant vals corrupted mask ->
  (Z.of_nat (count_true mask) <= Z.of_nat (length vals) / 2 - 1)%Z ->
  exists pred pred',
    np_real (np_median vals) = Some pred /\
    np_real (np_median corrupted) = Some pred' /\
    (Rminimum (map real (uncorrupted vals mask)) <= pred'
     <= Rmaximum (map real (uncorrupted vals mask)))%R /\
    (Rabs (pred' - pred)
     <= Rmaximum (map (fun v => Rabs (real v - pred))
                    (uncorrupted vals mask)))%R.
Proof.
  intros [Hlc [Hlm Hagree]] Hcount.
  destruct (@median_R_between (map real vals) mask) as [pred [Hpred _]];
    [rewrite length_map; exact Hlm|rewrite length_map; exact Hcount|].
  destruct (@median_R_between (map real corrupted) mask)
    as [pred' [Hpred' [[i [Hi [Hmi Hlo]]] [j [Hj [Hmj Hhi]]]]]];
    [rewrite length_map; congruence|rewrite length_map, Hlc; exact Hcount|].
  rewrite length_map, Hlc in Hi, Hj.
  rewrite <- real_nth, (Hagree i Hi Hmi) in Hlo.
  rewrite <- real_nth, (Hagree j Hj Hmj) in Hhi.
  pose proof (uncorrupted_In vals mask Hlm Hi Hmi) as Hini.
  pose proof (uncorrupted_In vals mask Hlm Hj Hmj) as Hinj.
  exists pred, pred'. rewrite !real_np_median.
  split; [exact Hpred|]. split; [exact Hpred'|]. split; [split|].
  - eapply Rle_trans; [|exact Hlo].
    apply Rminimum_le. apply in_map. exact Hini.
  - eapply Rle_trans; [exact Hhi|].
    apply Rmaximum_ge. apply in_map. exact Hinj.
  - destruct (Rle_dec pred pred') as [Hle|Hgt].
    + eapply Rle_trans;
        [|apply Rmaximum_ge;
          apply (in_map (fun v => Rabs (real v - pred)) _ _ Hinj)].
      rewrite !Rabs_pos_eq by lra. lra.
    + eapply Rle_trans;
        [|apply Rmaximum_ge;
          apply (in_map (fun v => Rabs (real v - pred)) _ _ Hini)].
      rewrite !Rabs_left1 by lra. lra.
Qed.

Lemma median_robust_witness :
  let vals := [RtoC 1; RtoC 2; RtoC 3; RtoC 4] in
  let corrupted := [RtoC 1; RtoC 2; RtoC 3; RtoC 100] in
  let mask := [false; false; false; true] in
  (corrupted_variant vals corrupted mask /\
   (Z.of_nat (count_true mask) <= Z.of_nat (length vals) / 2 - 1)%Z) /\
  exists pred pred',
    np_real (np_median vals) = Some pred /\
    np_real (np_median corrupted) = Some pred' /\
    (Rminimum (map real (uncorrupted vals mask)) <= pred'
     <= Rmaximum (map real (uncorrupted vals mask)))%R /\
    (Rabs (pred' - pred)
     <= Rmaximum (map (fun v => Rabs (real v - pred))
                    (uncorrupted vals mask)))%R.
Proof.
  intros vals corrupted mask.
  assert (H1 : corrupted_variant vals corrupted mask).
  { split; [reflexivity|]. split; [reflexivity|].
    intros i Hi Hm.
    destruct i as [|[|[|[|i]]]]; try reflexivity; discriminate Hm. }
  assert (H2 : (Z.of_nat (count_true mask)
                <= Z.of_nat (length vals) / 2 - 1)%Z)
    by (vm_compute; discriminate).
  split; [auto|]. exact (median_robust H1 H2).
Defined.

Lemma get_estimators_raises_witness :
  get_estimators [np_eye 2; np_eye 2] 2 3 = inl ValueError /\
  get_estimators [np_eye 2; np_eye 2] 2 (-1) = inr [] /\
  ~ raises (get_estimators [np_eye 2; np_eye 2] 2 1).
Proof.
  assert (Hs : Forall (shape 2 2) [np_eye 2; np_eye 2])
    by (repeat (apply Forall_cons; [apply np_eye_shape|]); apply Forall_nil).
  split; [|split].
  - destruct (@get_estimators_raises 2 2 [np_eye 2; np_eye 2] 2 3)
      as [_ [_ [H _]]].
    apply H; [split; [lia|reflexivity]|lia|vm_compute; reflexivity].
  - destruct (@get_estimators_raises 2 2 [np_eye 2; np_eye 2] 2 (-1))
      as [_ [_ [_ [H _]]]].
    apply H; [split; reflexivity|split; [lia|reflexivity]].
  - destruct (@get_estimators_raises 2 2 [np_eye 2; np_eye 2] 2 1)
      as [_ [_ [_ [_ H]]]].
    apply H; [lia|vm_compute; discriminate|reflexivity|exact Hs].
Defined.

(** ** The shadows

    Each loop appends one snapshot per shot, in order. *)

Lemma get_clifford_shadow_loop_map (f : matrix * str -> matrix)
  (shots : list (matrix * str)) (nqubits : nat) (acc : list matrix) :
  (forall Udg memory, In (Udg, memory) shots ->
     clifford_snapshot memory Udg nqubits = inr (f (Udg, memory))) ->
  get_clifford_shadow_loop shots nqubits acc = inr (acc ++ map f shots).
Proof.
  revert acc. induction shots as [|[Udg memory] shots IH]; intros acc Hall.
  - cbn [get_clifford_shadow_loop map]. rewrite app_nil_r. reflexivity.
  - cbn [get_clifford_shadow_loop map].
    rewrite (Hall Udg memory (or_introl eq_refl)). cbn [bind].
    rewrite IH, <- app_assoc; [reflexivity|].
    intros U m Hin. apply Hall. right. exact Hin.
Qed.

Lemma get_clifford_shadow_snapshots (shots : list (matrix * str))
  (nqubits : nat) :
  (forall Udg memory, In (Udg, memory) shots ->
     is_bitstring memory /\ length memory = nqubits) ->
  1 <= nqubits ->
  get_clifford_shadow shots nqubits =
  inr (map (fun shot =>
              getSnapshot (one_hot (2 ^ nqubits) (binary_value (snd shot)))
                (fst shot) nqubits) shots).
Proof.
  intros Hall Hn. unfold get_clifford_shadow.
  rewrite (@get_clifford_shadow_loop_map
             (fun shot =>
                getSnapshot (one_hot (2 ^ nqubits) (binary_value (snd shot)))
                  (fst shot) nqubits)); [reflexivity|].
  intros Udg memory Hin. destruct (Hall Udg memory Hin) as [Hbits Hlen].
  unfold clifford_snapshot.
  rewrite (bitToVector_one_hot Hbits), Hlen; [reflexivity|].
  destruct memory; simpl in Hlen; [lia|discriminate].
Qed.

Lemma get_pauli_shadow_loop_map (f : dict * str -> matrix)
  (shots : list (dict * str)) (acc : list matrix) :
  (forall qbases memory, In (qbases, memory) shots ->
     pauli_snapshot memory qbases = inr (f (qbases, memory))) ->
  get_pauli_shadow_loop shots acc = inr (acc ++ map f shots).
Proof.
  revert acc. induction shots as [|[qbases memory] shots IH]; intros acc Hall.
  - cbn [get_pauli_shadow_loop map]. rewrite app_nil_r. reflexivity.
  - cbn [get_pauli_shadow_loop map].
    rewrite (Hall qbases memory (or_introl eq_refl)). cbn [bind].
    rewrite IH, <- app_assoc; [reflexivity|].
    intros q m Hin. apply Hall. right. exact Hin.
Qed.

Lemma get_pauli_shadow_snapshots (shots : list (dict * str)) :
  (forall qbases memory, In (qbases, memory) shots ->
     is_bitstring memory /\ basis_assignment (length memory) qbases) ->
  get_pauli_shadow shots =
  inr (map (fun shot => kron_all (qubit_factors (snd shot) (fst shot))) shots).
Proof.
  intros Hall. unfold get_pauli_shadow.
  rewrite (@get_pauli_shadow_loop_map
             (fun shot => kron_all (qubit_factors (snd shot) (fst shot))));
    [reflexivity|].
  intros qbases memory Hin. destruct (Hall qbases memory Hin) as [Hbits Hq].
  rewrite (pauli_snapshot_fold eq_refl Hbits Hq).
  rewrite fold_left_kron_from_one by apply qubit_factors_shape.
  reflexivity.
Qed.

(** * Further properties of the notebook's functions *)

(** ** bitToVector *)

Lemma bit_value_inj (c c' : ascii) :
  c = "0"%char \/ c = "1"%char -> c' = "0"%char \/ c' = "1"%char ->
  bit_value c = bit_value c' -> c = c'.
Proof.
  intros [-> | ->] [-> | ->] H; try reflexivity; discriminate H.
Qed.

Lemma binary_value_inj (s s' : str) :
  is_bitstring s -> is_bitstring s' -> length s = length s' ->
  binary_value s = binary_value s' -> s = s'.
Proof.
  revert s'. induction s as [|c s IH]; intros [|c' s'] Hs Hs' Hlen Hv;
    simpl in Hlen; try discriminate; [reflexivity|].
  inversion Hs as [|? ? Hc Hs1]; subst.
  inversion Hs' as [|? ? Hc' Hs1']; subst.
  cbn [binary_value] in Hv.
  assert (Hl : length s = length s') by lia. rewrite Hl in Hv.
  pose proof (binary_value_bound s) as B. rewrite Hl in B.
  pose proof (binary_value_bound s') as B'.
  pose proof (bit_value_le c) as L. pose proof (bit_value_le c') as L'.
  assert (Hbit : bit_value c = bit_value c') by nia.
  rewrite Hbit in Hv.
  f_equal.
  - apply bit_value_inj; assumption.
  - apply IH; try assumption. lia.
Qed.

Lemma one_hot_inner (d k k' : nat) :
  0 < d -> k < d -> k' < d ->
  dot (adjoint (one_hot d k)) (one_hot d k') =
  [[if k =? k' then C1 else C0]].
Proof.
  intros Hd Hk Hk'.
  pose proof (one_hot_shape d k) as Hs.
  pose proof (one_hot_shape d k') as Hs'.
  pose proof (adjoint_shape Hs Hd) as Ha.
  apply (@matrix_ext 1 1).
  - apply (dot_shape Ha Hs' Hd).
  - split; [reflexivity|repeat constructor].
  - intros i j Hi Hj. assert (i = 0) by lia. assert (j = 0) by lia. subst.
    rewrite (entry_dot Ha Hs') by lia.
    rewrite (Csum_ext _ (fun x =>
      (Cconj (entry (one_hot d k) x 0) * (if x =? k' then C1 else C0))%C)).
    + rewrite (Csum_indicator (fun x => Cconj (entry (one_hot d k) x 0)) Hk').
      rewrite entry_one_hot by exact Hk'. rewrite (Nat.eqb_sym k' k).
      change (entry [[if k =? k' then C1 else C0]] 0 0)
        with (if k =? k' then C1 else C0).
      destruct (k =? k'); apply Cconj_RtoC.
    + intros x Hx. rewrite (entry_adjoint Hs) by lia.
      rewrite (entry_one_hot k' Hx). reflexivity.
Qed.

(** The vectors of the outcomes of one length are orthonormal: the inner
    product [b^dagger b'] of the vectors of two outcomes is 1 when the
    outcomes are equal and 0 when they differ. *)
Theorem bitToVector_orthonormal (s s' : str) :
  is_bitstring s -> is_bitstring s' -> s <> [] -> length s = length s' ->
  exists b b',
    bitToVector s = inr b /\ bitToVector s' = inr b' /\
    (s = s' -> dot (adjoint b) b' = [[C1]]) /\
    (s <> s' -> dot (adjoint b) b' = [[C0]]).
Proof.
  intros Hs Hs' Hne Hlen.
  assert (Hne' : s' <> []) by (destruct s, s'; simpl in Hlen; congruence).
  exists (one_hot (2 ^ length s) (binary_value s)),
         (one_hot (2 ^ length s) (binary_value s')).
  split; [apply (bitToVector_one_hot Hs Hne)|].
  split; [rewrite Hlen; apply (bitToVector_one_hot Hs' Hne')|].
  pose proof (binary_value_bound s) as B.
  pose proof (binary_value_bound s') as B'. rewrite <- Hlen in B'.
  rewrite (one_hot_inner (pow2_pos (length s)) B B').
  split.
  - intros <-. rewrite Nat.eqb_refl. reflexivity.
  - intros Hdiff. destruct (Nat.eqb_spec (binary_value s) (binary_value s'))
      as [E|_]; [|reflexivity].
    exfalso. apply Hdiff. apply binary_value_inj; assumption.
Qed.

Lemma bitToVector_orthonormal_witness :
  let s := ["0"%char; "1"%char] in
  let s' := ["1"%char; "0"%char] in
  (is_bitstring s /\ is_bitstring s' /\ s <> [] /\ length s = length s') /\
  exists b b',
    bitToVector s = inr b /\ bitToVector s' = inr b' /\
    dot (adjoint b) b' = [[C0]].
Proof.
  intros s s'.
  assert (H1 : is_bitstring s) by (repeat constructor).
  assert (H2 : is_bitstring s') by (repeat constructor).
  assert (H3 : s <> []) by discriminate.
  assert (H4 : length s = length s') by reflexivity.
  split; [auto|].
  destruct (bitToVector_orthonormal H1 H2 H3 H4) as [b [b' [E [E' [_ Hd]]]]].
  exists b, b'. split; [exact E|]. split; [exact E'|].
  apply Hd. discriminate.
Defined.

(** On a string of binary digits [bitToVector] raises only for the empty
    string, with ValueError; otherwise it returns a column of [2^n] entries,
    [n] the length of the string, whose entries sum to 1. *)
Theorem bitToVector_column (s : str) :
  is_bitstring s ->
  (s = [] /\ bitToVector s = inl ValueError) \/
  (exists b, bitToVector s = inr b /\ shape (2 ^ length s) 1 b /\
             Csum (fun i => entry b i 0) (2 ^ length s) = C1).
Proof.
  intros Hs. destruct s as [|c s]; [left; split; reflexivity|]. right.
  assert (Hne : c :: s <> []) by discriminate.
  exists (one_hot (2 ^ length (c :: s)) (binary_value (c :: s))).
  split; [apply (bitToVector_one_hot Hs Hne)|].
  split; [apply one_hot_shape|].
  rewrite (Csum_ext _ (fun i =>
    (C1 * (if i =? binary_value (c :: s) then C1 else C0))%C)).
  - apply (Csum_indicator (fun _ => C1)). apply binary_value_bound.
  - intros i Hi. rewrite entry_one_hot by exact Hi. ring.
Qed.

Lemma bitToVector_column_witness :
  let s := ["1"%char; "1"%char; "0"%char] in
  is_bitstring s /\
  exists b, bitToVector s = inr b /\ shape 8 1 b.
Proof.
  intros s. assert (H : is_bitstring s) by (repeat constructor).
  split; [exact H|].
  destruct (bitToVector_column H) as [[E _]|[b [E [Hb _]]]];
    [discriminate E|].
  exists b. split; [exact E|exact Hb].
Defined.

(** ** chunks *)

Lemma slice_shift (A : Type) (lst : list A) (m i n : nat) :
  slice lst (m + i) (m + i + n) = slice (skipn m lst) i (i + n).
Proof.
  unfold slice. rewrite skipn_skipn.
  replace (m + i + n - (m + i)) with n by lia.
  replace (i + n - i) with n by lia.
  rewrite (Nat.add_comm i m). reflexivity.
Qed.

Lemma concat_slices (A : Type) (m c : nat) (lst : list A) :
  length lst <= c * m ->
  concat (map (fun j => slice lst (j * m) (j * m + m)) (seq 0 c)) = lst.
Proof.
  revert lst. induction c as [|c IH]; intros lst Hlen.
  - destruct lst; [reflexivity|simpl in Hlen; lia].
  - cbn [seq map concat]. rewrite <- seq_shift, map_map.
    rewrite (map_ext _ (fun j => slice (skipn m lst) (j * m) (j * m + m))).
    + rewrite IH by (rewrite length_skipn; lia).
      unfold slice. cbn [Nat.mul Nat.add skipn].
      replace (m - 0) with m by lia. apply firstn_skipn.
    + intros j. replace (Datatypes.S j * m) with (m + j * m) by lia.
      apply slice_shift.
Qed.

Lemma ceil_div_covers (len m : nat) :
  0 < m -> len <= (len + m - 1) / m * m.
Proof.
  intros Hm.
  pose proof (Nat.mul_succ_div_gt (len + m - 1) m) as H. lia.
Qed.

(** The chunks of a positive size partition the list: put end to end they
    give the list back, with nothing lost, repeated or reordered. *)
Theorem chunks_concat (A : Type) (lst : list A) (n : Z) (cs : list (list A)) :
  (0 < n)%Z -> chunks lst n = inr cs -> concat cs = lst.
Proof.
  intros Hn Hc. rewrite (chunks_positive lst Hn) in Hc. injection Hc as <-.
  apply concat_slices. apply ceil_div_covers. lia.
Qed.

Lemma chunks_concat_witness :
  let lst := [1; 2; 3; 4; 5; 6; 7] in
  (0 < 3)%Z /\ chunks lst 3 = inr [[1; 2; 3]; [4; 5; 6]; [7]] /\
  concat [[1; 2; 3]; [4; 5; 6]; [7]] = lst.
Proof.
  intros lst. assert (H : (0 < 3)%Z) by lia.
  assert (E : chunks lst 3 = inr [[1; 2; 3]; [4; 5; 6]; [7]]) by reflexivity.
  split; [exact H|]. split; [exact E|].
  exact (chunks_concat lst H E).
Defined.

(** For a positive size [n] there are [ceil(len / n)] chunks, none is empty,
    none is longer than [n], and every chunk but the last has exactly [n]
    elements. *)
Theorem chunks_lengths (A : Type) (lst : list A) (n : Z) (cs : list (list A)) :
  (0 < n)%Z -> chunks lst n = inr cs ->
  let m := Z.to_nat n in
  length cs = (length lst + m - 1) / m /\
  forall j, j < length cs ->
    1 <= length (nth j cs []) <= m /\
    (Datatypes.S j < length cs -> length (nth j cs []) = m).
Proof.
  intros Hn Hc m. rewrite (chunks_positive lst Hn) in Hc. injection Hc as <-.
  fold m. rewrite length_map, length_seq. split; [reflexivity|].
  intros j Hj.
  assert (Hm : 0 < m) by (unfold m; lia).
  rewrite (nth_indep _ [] (slice lst (0 * m) (0 * m + m)))
    by (rewrite length_map, length_seq; exact Hj).
  rewrite (map_nth (fun j => slice lst (j * m) (j * m + m))).
  rewrite seq_nth by exact Hj. cbn [Nat.add].
  rewrite slice_length.
  pose proof (@range0_bound (length lst) m j Hm Hj) as Hlt.
  split; [lia|]. intros Hnext.
  pose proof (@range0_bound (length lst) m (Datatypes.S j) Hm Hnext) as Hlt'.
  lia.
Qed.

Lemma chunks_lengths_witness :
  let lst := [1; 2; 3; 4; 5; 6; 7] in
  (0 < 3)%Z /\
  exists cs, chunks lst 3 = inr cs /\ length cs = 3 /\
             length (nth 0 cs []) = 3.
Proof.
  intros lst. assert (H : (0 < 3)%Z) by lia.
  split; [exact H|]. exists [[1; 2; 3]; [4; 5; 6]; [7]].
  assert (E : chunks lst 3 = inr [[1; 2; 3]; [4; 5; 6]; [7]]) by reflexivity.
  split; [exact E|].
  destruct (chunks_lengths lst H E) as [L Hall].
  split; [exact L|]. apply (Hall 0); simpl; lia.
Defined.

(** A chunk size of zero raises ValueError, even on an empty list; a negative
    chunk size raises nothing and yields no chunk at all, whatever the
    list. *)
Theorem chunks_nonpositive (A : Type) (lst : list A) (n : Z) :
  (n <= 0)%Z ->
  (n = 0%Z /\ chunks lst n = inl ValueError) \/
  ((n < 0)%Z /\ chunks lst n = inr []).
Proof.
  intros Hn. unfold chunks, range0.
  destruct (Z.eqb_spec n 0) as [E|E]; [left; split; [exact E|reflexivity]|].
  right. split; [lia|].
  destruct (Z.ltb_spec n 0); [reflexivity|lia].
Qed.

Lemma chunks_nonpositive_witness :
  chunks [1; 2; 3] (-2) = inr [] /\ chunks (@nil nat) 0 = inl ValueError.
Proof.
  split.
  - destruct (@chunks_nonpositive nat [1; 2; 3] (-2)%Z) as [[E _]|[_ E]];
      [lia|discriminate E|exact E].
  - destruct (@chunks_nonpositive nat [] 0%Z) as [[_ E]|[E _]];
      [lia|exact E|lia].
Defined.

(** ** invM on arbitrary arguments *)

Lemma hermitian_entry (d : nat) (A : matrix) (i j : nat) :
  shape d d A -> hermitian A -> i < d -> j < d ->
  entry A i j = Cconj (entry A j i).
Proof.
  intros HA Hh Hi Hj. unfold hermitian in Hh. rewrite <- Hh at 1.
  apply (entry_adjoint HA); assumption.
Qed.

Lemma hermitian_intro (d : nat) (A : matrix) :
  shape d d A -> 0 < d ->
  (forall i j, i < d -> j < d -> entry A i j = Cconj (entry A j i)) ->
  hermitian A.
Proof.
  intros HA Hd Hent. unfold hermitian.
  apply (matrix_ext (adjoint_shape HA Hd) HA). intros i j Hi Hj.
  rewrite (entry_adjoint HA) by assumption. symmetry. apply Hent; assumption.
Qed.

(** The inverse channel keeps Hermitian matrices Hermitian. *)
Theorem invM_hermitian (n : nat) (rho : matrix) :
  shape (2 ^ n) (2 ^ n) rho -> hermitian rho -> hermitian (invM rho n).
Proof.
  intros Hr Hh.
  apply (hermitian_intro (invM_shape n Hr) (pow2_pos n)). intros i j Hi Hj.
  rewrite !entry_invM by assumption.
  rewrite Cconj_sub, Cconj_mul, Cconj_RtoC.
  rewrite <- (hermitian_entry Hr Hh Hi Hj). rewrite (Nat.eqb_sym j i).
  destruct (i =? j); unfold C1, C0; rewrite Cconj_RtoC; reflexivity.
Qed.

Lemma invM_hermitian_witness :
  (shape (2 ^ 1) (2 ^ 1) (np_eye 2) /\ hermitian (np_eye 2)) /\
  hermitian (invM (np_eye 2) 1).
Proof.
  assert (H : shape (2 ^ 1) (2 ^ 1) (np_eye 2)) by apply np_eye_shape.
  assert (Hh : hermitian (np_eye 2)).
  { unfold hermitian. matrix_compute. all: apply C_eq; simpl; lra. }
  split; [auto|]. exact (@invM_hermitian 1 (np_eye 2) H Hh).
Defined.

(** ** n_pauli_circuit: the dict and the circuit it returns *)

Lemma basis_of_draw_le (r : F64.float64) : basis_of_draw r <= 2.
Proof.
  unfold basis_of_draw.
  destruct (F64.lt r F64.third); [lia|].
  destruct (F64.le F64.third r && F64.lt r F64.two_thirds); lia.
Qed.

Lemma count_if_app (A : Type) (f : A -> bool) (l1 l2 : list A) :
  count_if f (l1 ++ l2) = count_if f l1 + count_if f l2.
Proof. unfold count_if. rewrite filter_app, length_app. reflexivity. Qed.

Lemma basis_gates_no_measure (qbit basis : nat) :
  count_if is_measure (basis_gates qbit basis) = 0.
Proof. destruct basis as [|[|basis]]; reflexivity. Qed.

Lemma basis_gates_length (qbit basis : nat) :
  length (basis_gates qbit basis) <= 2.
Proof. destruct basis as [|[|basis]]; simpl; lia. Qed.

Lemma n_pauli_loop_frame (m : nat) :
  forall (s : nat) (qbases : dict) (qc : list instr) (gs : rng),
  let '(qbases', qc', _) :=
    fold_left n_pauli_body (seq s m) (qbases, qc, gs) in
  (forall q, q < s \/ s + m <= q ->
     dict_get qbases' q = dict_get qbases q /\
     gates_on q qc' = gates_on q qc) /\
  count_if is_measure qc' = count_if is_measure qc /\
  length qc' <= length qc + 2 * m.
Proof.
  induction m as [|m IH]; intros s qbases qc gs.
  - cbn [seq fold_left]. repeat split; auto. lia.
  - cbn [seq fold_left]. rewrite n_pauli_body_step.
    specialize (IH (Datatypes.S s)
                  (dict_set s (basis_of_draw (gs 0)) qbases)
                  (qc ++ basis_gates s (basis_of_draw (gs 0)))
                  (fun k => gs (Datatypes.S k))).
    destruct (fold_left n_pauli_body (seq (Datatypes.S s) m) _)
      as [[qbases' qc'] gs'].
    destruct IH as [Hout [Hcount Hlen]].
    split; [|split].
    + intros q Hq. destruct (Hout q) as [Hd Hg]; [lia|].
      rewrite Hd, Hg. cbn [dict_get dict_set].
      destruct (Nat.eqb_spec s q); [lia|].
      rewrite gates_on_app, gates_on_basis_gates.
      destruct (Nat.eqb_spec s q); [lia|]. rewrite app_nil_r. auto.
    + rewrite Hcount, count_if_app, basis_gates_no_measure. lia.
    + rewrite length_app in Hlen.
      pose proof (basis_gates_length s (basis_of_draw (gs 0))). lia.
Qed.

Lemma n_pauli_circuit_assignment (n : nat) (g : rng) :
  basis_assignment n (fst (fst (n_pauli_circuit n g))).
Proof.
  unfold n_pauli_circuit.
  pose proof (@n_pauli_loop_spec g n 0 [] [] g (fun k => eq_refl)) as Hloop.
  destruct (fold_left n_pauli_body (seq 0 n) _) as [[qbases qc] g'].
  destruct Hloop as [_ [_ [_ Hin]]]. cbn [fst].
  intros q Hq. destruct (Hin q) as [Hd _]; [lia|].
  exists (basis_of_draw (g q)). split; [exact Hd|apply basis_of_draw_le].
Qed.

(** The dict [n_pauli_circuit] returns has exactly the keys [0 .. n-1], each
    bound to a basis_id among 0, 1, 2: a lookup of any other qubit raises
    KeyError. *)
Theorem n_pauli_circuit_keys (n : nat) (g : rng) :
  let '(qbases, _, _) := n_pauli_circuit n g in
  (forall q, q < n ->
     exists basis, dict_get qbases q = inr basis /\ basis <= 2) /\
  (forall q, n <= q -> dict_get qbases q = inl KeyError).
Proof.
  pose proof (@n_pauli_circuit_assignment n g) as Hin.
  unfold n_pauli_circuit in *.
  pose proof (@n_pauli_loop_frame n 0 [] [] g) as Hframe.
  destruct (fold_left n_pauli_body (seq 0 n) _) as [[qbases qc] g'].
  cbn [fst] in Hin. destruct Hframe as [Hout _].
  split; [exact Hin|].
  intros q Hq. destruct (Hout q) as [Hd _]; [lia|]. rewrite Hd. reflexivity.
Qed.

(** The circuit [n_pauli_circuit] returns ends with its only measurement,
    carries no gate on a qubit outside [0 .. n-1], and holds at most two
    gates per qubit. *)
Theorem n_pauli_circuit_shape (n : nat) (g : rng) :
  let '(_, qc, _) := n_pauli_circuit n g in
  (exists gates, qc = gates ++ [measure_all] /\
                 count_if is_measure gates = 0 /\ length gates <= 2 * n) /\
  (forall q, n <= q -> gates_on q qc = []).
Proof.
  unfold n_pauli_circuit.
  pose proof (@n_pauli_loop_frame n 0 [] [] g) as Hframe.
  destruct (fold_left n_pauli_body (seq 0 n) _) as [[qbases qc] g'].
  destruct Hframe as [Hout [Hcount Hlen]].
  split.
  - exists qc. split; [reflexivity|]. split; [exact Hcount|exact Hlen].
  - intros q Hq. destruct (Hout q) as [_ Hg]; [lia|].
    rewrite gates_on_app, Hg. reflexivity.
Qed.

(** ** The factored snapshot: failures, shape, Hermiticity *)

Lemma dict_get_error (d : dict) (k : nat) (e : exn) :
  dict_get d k = inl e -> e = KeyError.
Proof.
  induction d as [|[k' v] d IH]; cbn [dict_get]; intros H.
  - injection H as <-. reflexivity.
  - destruct (k' =? k); [discriminate H|apply IH; exact H].
Qed.

Lemma getitem_Udgs_out (basis : nat) :
  2 < basis -> getitem Udgs basis = inl IndexError.
Proof.
  intros Hb. destruct basis as [|[|[|basis]]]; try lia.
  destruct basis; reflexivity.
Qed.

(** One step of the inner loop: what it returns, by the state of the dict. *)
Lemma pauli_body_cases (memory : str) (qbases : dict) (snapshot : matrix)
  (bit : nat) :
  is_bitstring memory -> bit < length memory ->
  match dict_get qbases bit with
  | inl _ => pauli_body memory qbases snapshot bit = inl KeyError
  | inr basis =>
      if basis <=? 2 then
        pauli_body memory qbases snapshot bit =
        inr (np_kron snapshot
               (qubit_factor basis (bit_value (nth bit memory "0"%char))))
      else pauli_body memory qbases snapshot bit = inl IndexError
  end.
Proof.
  intros Hbits Hbit.
  destruct (dict_get qbases bit) as [e|basis] eqn:Hget.
  - pose proof (dict_get_error _ _ Hget) as ->.
    unfold pauli_body, getitem.
    rewrite (nth_error_nth' memory "0"%char Hbit). cbn [bind ret].
    assert (Hc : is_bitstring [nth bit memory "0"%char]).
    { constructor; [|constructor].
      unfold is_bitstring in Hbits. rewrite Forall_forall in Hbits.
      apply Hbits. apply nth_In. exact Hbit. }
    rewrite (bitToVector_one_hot Hc) by discriminate. cbn [bind].
    rewrite Hget. reflexivity.
  - destruct (Nat.leb_spec basis 2) as [Hle|Hgt].
    + rewrite (@pauli_body_kron memory qbases snapshot bit Hbits Hbit)
        by (exists basis; auto).
      unfold basis_id. rewrite Hget. reflexivity.
    + unfold pauli_body, getitem.
      rewrite (nth_error_nth' memory "0"%char Hbit). cbn [bind ret].
      assert (Hc : is_bitstring [nth bit memory "0"%char]).
      { constructor; [|constructor].
        unfold is_bitstring in Hbits. rewrite Forall_forall in Hbits.
        apply Hbits. apply nth_In. exact Hbit. }
      rewrite (bitToVector_one_hot Hc) by discriminate. cbn [bind].
      rewrite Hget. cbn [bind].
      fold (getitem Udgs basis). rewrite (getitem_Udgs_out Hgt). reflexivity.
Qed.

Lemma pauli_loop_app (memory : str) (qbases : dict) (bits1 bits2 : list nat) :
  forall snapshot,
  pauli_loop memory qbases (bits1 ++ bits2) snapshot =
  (snapshot' <- pauli_loop memory qbases bits1 snapshot ;;
   pauli_loop memory qbases bits2 snapshot').
Proof.
  induction bits1 as [|bit bits1 IH]; intros snapshot;
    cbn [app pauli_loop bind ret]; [reflexivity|].
  destruct (pauli_body memory qbases snapshot bit) as [e|M]; cbn [bind];
    [reflexivity|apply IH].
Qed.

Lemma pauli_loop_prefix (memory : str) (qbases : dict) (bits : list nat) :
  is_bitstring memory ->
  (forall bit, In bit bits ->
     bit < length memory /\
     exists basis, dict_get qbases bit = inr basis /\ basis <= 2) ->
  forall snapshot,
  exists M, pauli_loop memory qbases bits snapshot = inr M.
Proof.
  intros Hbits. induction bits as [|bit bits IH]; intros Hall snapshot.
  - eexists. reflexivity.
  - destruct (Hall bit (or_introl eq_refl)) as [Hbit Hex].
    cbn [pauli_loop].
    rewrite (@pauli_body_kron memory qbases snapshot bit Hbits Hbit Hex).
    cbn [bind]. apply IH. intros b Hb. apply Hall. right. exact Hb.
Qed.

(** On a bitstring, the first qubit in the order of the loop that the dict
    does not bind to 0, 1 or 2 decides how the call ends: KeyError if the
    qubit has no binding, IndexError if its basis_id is larger than 2. *)
Theorem pauli_snapshot_first_error (memory : str) (qbases : dict) (q : nat) :
  is_bitstring memory -> q < length memory ->
  (forall p, p < q ->
     exists basis, dict_get qbases p = inr basis /\ basis <= 2) ->
  (dict_get qbases q = inl KeyError ->
   pauli_snapshot memory qbases = inl KeyError) /\
  (forall basis, dict_get qbases q = inr basis -> 2 < basis ->
     pauli_snapshot memory qbases = inl IndexError).
Proof.
  intros Hbits Hq Hbefore.
  assert (Hrev : is_bitstring (rev memory)) by (apply Forall_rev; exact Hbits).
  assert (Hq' : q < length (rev memory)) by (rewrite length_rev; exact Hq).
  unfold pauli_snapshot.
  replace (length (rev memory)) with (q + Datatypes.S (length (rev memory) - q - 1))
    by lia.
  rewrite seq_app, pauli_loop_app. cbn [Nat.add seq].
  destruct (@pauli_loop_prefix (rev memory) qbases (seq 0 q) Hrev) with
    (snapshot := [[C1]]) as [M HM].
  { intros bit Hin. apply in_seq in Hin. split; [lia|apply Hbefore; lia]. }
  rewrite HM. cbn [bind pauli_loop].
  pose proof (@pauli_body_cases (rev memory) qbases M q Hrev Hq') as Hcase.
  split.
  - intros Hget. rewrite Hget in Hcase. rewrite Hcase. reflexivity.
  - intros basis Hget Hgt. rewrite Hget in Hcase.
    destruct (Nat.leb_spec basis 2); [lia|]. rewrite Hcase. reflexivity.
Qed.

Lemma pauli_snapshot_first_error_witness :
  let memory := ["0"%char; "1"%char] in
  let qbases := dict_set 0 0 [] in
  (is_bitstring memory /\ 1 < length memory /\
   (forall p, p < 1 ->
      exists basis, dict_get qbases p = inr basis /\ basis <= 2) /\
   dict_get qbases 1 = inl KeyError) /\
  pauli_snapshot memory qbases = inl KeyError.
Proof.
  intros memory qbases.
  assert (H1 : is_bitstring memory) by (repeat constructor).
  assert (H2 : 1 < length memory) by (simpl; lia).
  assert (H3 : forall p, p < 1 ->
                 exists basis, dict_get qbases p = inr basis /\ basis <= 2).
  { intros p Hp. exists 0. destruct p; [split; [reflexivity|lia]|lia]. }
  assert (H4 : dict_get qbases 1 = inl KeyError) by reflexivity.
  split; [auto|].
  exact (proj1 (@pauli_snapshot_first_error memory qbases 1 H1 H2 H3) H4).
Defined.

Lemma np_kron_hermitian (a b : nat) (A B : matrix) :
  shape a a A -> shape b b B -> 0 < a -> 0 < b ->
  hermitian A -> hermitian B -> hermitian (np_kron A B).
Proof.
  intros HA HB Ha Hb HhA HhB.
  assert (Hab : 0 < a * b) by nia.
  apply (hermitian_intro (np_kron_shape HA HB Ha Hb) Hab). intros i j Hi Hj.
  rewrite !(entry_np_kron HA HB) by assumption.
  destruct (@index_bounds i a b Hi) as [Hi1 Hi2].
  destruct (@index_bounds j a b Hj) as [Hj1 Hj2].
  rewrite Cconj_mul.
  rewrite <- (hermitian_entry HA HhA Hi1 Hj1).
  rewrite <- (hermitian_entry HB HhB Hi2 Hj2). reflexivity.
Qed.

Lemma qubit_factor_hermitian (basis bit : nat) :
  bit <= 1 -> hermitian (qubit_factor basis bit).
Proof.
  intros Hb. rewrite qubit_factor_getSnapshot.
  apply getSnapshot_hermitian.
  - apply basis_unitary_dagger_unitary.
  - simpl. lia.
Qed.

Lemma fold_left_kron_hermitian (Ms : list matrix) :
  Forall (fun M => shape 2 2 M /\ hermitian M) Ms ->
  forall (a : nat) (acc : matrix),
  shape a a acc -> 0 < a -> hermitian acc ->
  shape (a * 2 ^ length Ms) (a * 2 ^ length Ms) (fold_left np_kron Ms acc) /\
  hermitian (fold_left np_kron Ms acc).
Proof.
  induction 1 as [|M Ms [HM HhM] _ IH]; intros a acc Hacc Ha Hh.
  - cbn [fold_left length Nat.pow]. rewrite Nat.mul_1_r. auto.
  - cbn [fold_left length]. rewrite Nat.pow_succ_r', Nat.mul_assoc.
    apply IH.
    + apply np_kron_shape; assumption || lia.
    + lia.
    + apply (np_kron_hermitian Hacc HM); assumption || lia.
Qed.

Lemma qubit_factors_hermitian (outcome : str) (qbases : dict) :
  Forall (fun M => shape 2 2 M /\ hermitian M) (qubit_factors outcome qbases).
Proof.
  unfold qubit_factors. apply Forall_forall. intros M HM.
  apply in_map_iff in HM. destruct HM as [i [<- _]]. split.
  - apply qubit_factor_shape.
  - apply qubit_factor_hermitian. apply bit_value_le.
Qed.

Lemma unit_matrix_hermitian : hermitian [[C1]].
Proof. unfold hermitian. matrix_compute. apply C_eq; simpl; lra. Qed.

Lemma pauli_snapshot_valid (n : nat) (outcome : str) (qbases : dict) :
  length outcome = n -> is_bitstring outcome -> basis_assignment n qbases ->
  exists M,
    pauli_snapshot outcome qbases = inr M /\
    shape (2 ^ n) (2 ^ n) M /\ hermitian M /\ trace M = C1.
Proof.
  intros Hlen Hbits Hq.
  assert (H1 : shape 1 1 [[C1]]) by (split; [reflexivity|repeat constructor]).
  exists (fold_left np_kron (qubit_factors outcome qbases) [[C1]]).
  split; [apply (pauli_snapshot_fold Hlen Hbits Hq)|].
  destruct (fold_left_kron_hermitian (qubit_factors_hermitian outcome qbases)
              H1 Nat.lt_0_1 unit_matrix_hermitian) as [Hs Hh].
  unfold qubit_factors in Hs at 1 2.
  rewrite length_map, length_seq, Hlen, Nat.mul_1_l in Hs.
  split; [exact Hs|]. split; [exact Hh|].
  rewrite (@fold_left_kron_trace _ 1);
    [|apply qubit_factors_trace|exact H1|lia].
  change (trace [[C1]]) with (C0 + C1)%C. ring.
Qed.

(** On a bitstring of length [n] and a basis assignment for [n] qubits, the
    factored snapshot is a Hermitian [2^n]-by-[2^n] matrix. *)
Theorem pauli_snapshot_hermitian (n : nat) (outcome : str) (qbases : dict) :
  length outcome = n -> is_bitstring outcome -> basis_assignment n qbases ->
  exists M,
    pauli_snapshot outcome qbases = inr M /\
    shape (2 ^ n) (2 ^ n) M /\ hermitian M.
Proof.
  intros Hlen Hbits Hq.
  destruct (pauli_snapshot_valid Hlen Hbits Hq) as [M [E [Hs [Hh _]]]].
  exists M. auto.
Qed.

Lemma pauli_snapshot_hermitian_witness :
  let outcome := ["0"%char; "1"%char] in
  let qbases := dict_set 1 2 (dict_set 0 1 []) in
  (length outcome = 2 /\ is_bitstring outcome /\ basis_assignment 2 qbases) /\
  exists M, pauli_snapshot outcome qbases = inr M /\ hermitian M.
Proof.
  intros outcome qbases.
  assert (H1 : length outcome = 2) by reflexivity.
  assert (H2 : is_bitstring outcome) by (repeat constructor).
  assert (H3 : basis_assignment 2 qbases).
  { intros q Hq. destruct q as [|[|q]].
    - exists 1. split; [reflexivity|lia].
    - exists 2. split; [reflexivity|lia].
    - lia. }
  split; [auto|].
  destruct (pauli_snapshot_hermitian H1 H2 H3) as [M [E [_ Hh]]].
  exists M. auto.
Defined.

(** [n_pauli_circuit] and the snapshot loop fit together: whatever the draws,
    the dict returned for [n] qubits lets the loop build, from every
    bitstring of length [n], a Hermitian [2^n]-by-[2^n] snapshot; no KeyError
    or IndexError can occur. *)
Theorem n_pauli_circuit_snapshot (n : nat) (g : rng) (memory : str) :
  length memory = n -> is_bitstring memory ->
  let '(qbases, _, _) := n_pauli_circuit n g in
  exists M,
    pauli_snapshot memory qbases = inr M /\
    shape (2 ^ n) (2 ^ n) M /\ hermitian M.
Proof.
  intros Hlen Hbits.
  pose proof (@n_pauli_circuit_assignment n g) as Hq.
  destruct (n_pauli_circuit n g) as [[qbases qc] g']. cbn [fst] in Hq.
  destruct (pauli_snapshot_valid Hlen Hbits Hq) as [M [E [Hs [Hh _]]]].
  exists M. auto.
Qed.

Lemma n_pauli_circuit_snapshot_witness :
  let g : rng := fun k => PrimFloat.div (F64.of_int (Z.of_nat k)) (F64.of_int 2) in
  let memory := ["1"%char; "0"%char; "1"%char] in
  (length memory = 3 /\ is_bitstring memory) /\
  let '(qbases, _, _) := n_pauli_circuit 3 g in
  exists M, pauli_snapshot memory qbases = inr M /\ hermitian M.
Proof.
  intros g memory.
  assert (H1 : length memory = 3) by reflexivity.
  assert (H2 : is_bitstring memory) by (repeat constructor).
  split; [auto|].
  pose proof (@n_pauli_circuit_snapshot 3 g memory H1 H2) as T.
  destruct (n_pauli_circuit 3 g) as [[qbases qc] g'].
  destruct T as [M [E [_ Hh]]]. exists M. auto.
Defined.

(** ** The shadow loops *)

(** With [N] well-formed shots (a bitstring of [n >= 1] bits and a
    [2^n]-by-[2^n] matrix [Udg] each), [get_clifford_shadow] raises nothing
    and returns [N] snapshots, each a [2^n]-by-[2^n] matrix, the [i]-th one
    built from the [i]-th shot. *)
Theorem get_clifford_shadow_valid (shots : list (matrix * str)) (n : nat) :
  1 <= n ->
  (forall Udg memory, In (Udg, memory) shots ->
     is_bitstring memory /\ length memory = n /\ shape (2 ^ n) (2 ^ n) Udg) ->
  exists shadow,
    get_clifford_shadow shots n = inr shadow /\
    length shadow = length shots /\
    Forall (shape (2 ^ n) (2 ^ n)) shadow /\
    forall i Udg memory, nth_error shots i = Some (Udg, memory) ->
      exists M, clifford_snapshot memory Udg n = inr M /\
                nth_error shadow i = Some M.
Proof.
  intros Hn Hall. eexists. split; [|split; [|split]].
  - apply get_clifford_shadow_snapshots; [|exact Hn].
    intros Udg memory Hin. destruct (Hall Udg memory Hin) as [H1 [H2 _]]. auto.
  - apply length_map.
  - apply Forall_forall. intros M HM. apply in_map_iff in HM.
    destruct HM as [[Udg memory] [<- Hin]]. cbn [fst snd].
    destruct (Hall Udg memory Hin) as [Hbits [Hlen HU]].
    apply getSnapshot_shape; exact HU.
  - intros i Udg memory Hi.
    destruct (Hall Udg memory (nth_error_In _ _ Hi)) as [Hbits [Hlen _]].
    eexists. split.
    + unfold clifford_snapshot.
      rewrite (bitToVector_one_hot Hbits), Hlen; [reflexivity|].
      destruct memory; simpl in Hlen; [lia|discriminate].
    + rewrite nth_error_map, Hi. reflexivity.
Qed.

Lemma get_clifford_shadow_valid_witness :
  let shots := [(Hmat, ["1"%char]); (np_eye 2, ["0"%char])] in
  (1 <= 1 /\
   forall Udg memory, In (Udg, memory) shots ->
     is_bitstring memory /\ length memory = 1 /\ shape (2 ^ 1) (2 ^ 1) Udg) /\
  exists shadow, get_clifford_shadow shots 1 = inr shadow /\ length shadow = 2.
Proof.
  intros shots.
  assert (H1 : 1 <= 1) by lia.
  assert (H2 : forall Udg memory, In (Udg, memory) shots ->
     is_bitstring memory /\ length memory = 1 /\ shape (2 ^ 1) (2 ^ 1) Udg).
  { intros Udg memory [E|[E|[]]]; injection E as <- <-.
    - split; [solve [repeat constructor]|].
      split; [reflexivity|apply Hmat_shape].
    - split; [solve [repeat constructor]|].
      split; [reflexivity|apply np_eye_shape]. }
  split; [auto|].
  destruct (get_clifford_shadow_valid shots H1 H2) as [shadow [E [L _]]].
  exists shadow. auto.
Defined.

Lemma get_clifford_shadow_loop_error (good rest : list (matrix * str))
  (Udg : matrix) (memory : str) (n : nat) (e : exn) :
  (forall U m, In (U, m) good -> exists M, clifford_snapshot m U n = inr M) ->
  clifford_snapshot memory Udg n = inl e ->
  forall acc,
  get_clifford_shadow_loop (good ++ (Udg, memory) :: rest) n acc = inl e.
Proof.
  intros Hgood Hbad. induction good as [|[U m] good IH]; intros acc.
  - cbn [app get_clifford_shadow_loop]. rewrite Hbad. reflexivity.
  - cbn [app get_clifford_shadow_loop].
    destruct (Hgood U m (or_introl eq_refl)) as [M ->]. cbn [bind].
    apply IH. intros U' m' Hin. apply Hgood. right. exact Hin.
Qed.

Lemma is_other_digit_digit2 (c : ascii) :
  is_other_digit c = true -> digit2 c = None.
Proof.
  unfold is_other_digit, digit2. intros H.
  apply andb_true_iff in H. destruct H as [H1 H2].
  apply Nat.leb_le in H1.
  destruct (Ascii.eqb_spec c "0"%char) as [->|_]; [vm_compute in H1; lia|].
  destruct (Ascii.eqb_spec c "1"%char) as [->|_]; [vm_compute in H1; lia|].
  reflexivity.
Qed.

Lemma int2_digits_rejects (s : str) (acc : nat) :
  (exists c, In c s /\ is_other_digit c = true) ->
  int2_digits s acc = inl ValueError.
Proof.
  revert acc. induction s as [|a s IH]; intros acc [c [Hin Hc]];
    [contradiction|].
  cbn [int2_digits]. destruct (digit2 a) as [b|] eqn:Ea; [|reflexivity].
  apply IH. destruct Hin as [->|Hin].
  - rewrite (is_other_digit_digit2 _ Hc) in Ea. discriminate Ea.
  - exists c. auto.
Qed.

Lemma int2_rejects (s : str) :
  s = [] \/ (exists c, In c s /\ is_other_digit c = true) ->
  int2 s = inl ValueError.
Proof.
  intros [->|H]; [reflexivity|].
  destruct s as [|a s]; [reflexivity|].
  unfold int2. apply int2_digits_rejects. exact H.
Qed.

(** A shot whose outcome is empty or holds a digit from 2 to 9 aborts
    [get_clifford_shadow] with ValueError, after any number of well-formed
    shots: the snapshots already built are not returned and the later shots
    are not looked at. *)
Theorem get_clifford_shadow_aborts (good rest : list (matrix * str))
  (Udg : matrix) (memory : str) (n : nat) :
  1 <= n ->
  (forall U m, In (U, m) good ->
     is_bitstring m /\ length m = n /\ shape (2 ^ n) (2 ^ n) U) ->
  memory = [] \/ (exists c, In c memory /\ is_other_digit c = true) ->
  get_clifford_shadow (good ++ (Udg, memory) :: rest) n = inl ValueError.
Proof.
  intros Hn Hgood Hbad. unfold get_clifford_shadow.
  apply get_clifford_shadow_loop_error.
  - intros U m Hin. destruct (Hgood U m Hin) as [Hb [Hlen _]].
    assert (Hne : m <> []) by (destruct m; simpl in Hlen; [lia|discriminate]).
    unfold clifford_snapshot. rewrite (bitToVector_one_hot Hb Hne).
    eexists. reflexivity.
  - unfold clifford_snapshot, bitToVector. rewrite (int2_rejects Hbad).
    reflexivity.
Qed.

Lemma get_clifford_shadow_aborts_witness :
  let good := [(Hmat, ["1"%char])] in
  let rest := [(Hmat, ["0"%char])] in
  let memory := ["2"%char] in
  (1 <= 1 /\
   (forall U m, In (U, m) good ->
      is_bitstring m /\ length m = 1 /\ shape (2 ^ 1) (2 ^ 1) U) /\
   (memory = [] \/ exists c, In c memory /\ is_other_digit c = true)) /\
  get_clifford_shadow (good ++ (Hmat, memory) :: rest) 1 = inl ValueError.
Proof.
  intros good rest memory.
  assert (H0 : 1 <= 1) by lia.
  assert (H1 : forall U m, In (U, m) good ->
            is_bitstring m /\ length m = 1 /\ shape (2 ^ 1) (2 ^ 1) U).
  { intros U m [E|[]]. injection E as <- <-.
    split; [solve [repeat constructor]|]. split; [reflexivity|apply Hmat_shape]. }
  assert (H2 : memory = [] \/ exists c, In c memory /\ is_other_digit c = true).
  { right. exists "2"%char. split; [left; reflexivity|reflexivity]. }
  split; [auto|].
  exact (@get_clifford_shadow_aborts good rest Hmat memory 1 H0 H1 H2).
Defined.

(** With [N] well-formed shots (a bitstring of [n] bits and a basis
    assignment for [n] qubits each), [get_pauli_shadow] raises nothing and
    returns [N] snapshots, each a Hermitian [2^n]-by-[2^n] matrix, the [i]-th
    one built from the [i]-th shot. *)
Theorem get_pauli_shadow_valid (shots : list (dict * str)) (n : nat) :
  (forall qbases memory, In (qbases, memory) shots ->
     is_bitstring memory /\ length memory = n /\ basis_assignment n qbases) ->
  exists shadow,
    get_pauli_shadow shots = inr shadow /\
    length shadow = length shots /\
    Forall (fun M => shape (2 ^ n) (2 ^ n) M /\ hermitian M) shadow /\
    forall i qbases memory, nth_error shots i = Some (qbases, memory) ->
      exists M, pauli_snapshot memory qbases = inr M /\
                nth_error shadow i = Some M.
Proof.
  intros Hall. eexists. split; [|split; [|split]].
  - apply get_pauli_shadow_snapshots.
    intros qbases memory Hin.
    destruct (Hall qbases memory Hin) as [H1 [H2 H3]]. rewrite H2. auto.
  - apply length_map.
  - apply Forall_forall. intros M HM. apply in_map_iff in HM.
    destruct HM as [[qbases memory] [<- Hin]]. cbn [fst snd].
    destruct (Hall qbases memory Hin) as [Hbits [Hlen Hq]].
    destruct (pauli_snapshot_valid Hlen Hbits Hq) as [M [E [Hs [Hh _]]]].
    rewrite (pauli_snapshot_fold Hlen Hbits Hq) in E.
    rewrite fold_left_kron_from_one in E by apply qubit_factors_shape.
    injection E as <-. auto.
  - intros i qbases memory Hi.
    destruct (Hall qbases memory (nth_error_In _ _ Hi)) as [Hbits [Hlen Hq]].
    eexists. split.
    + rewrite (pauli_snapshot_fold Hlen Hbits Hq).
      rewrite fold_left_kron_from_one by apply qubit_factors_shape.
      reflexivity.
    + rewrite nth_error_map, Hi. reflexivity.
Qed.

Lemma get_pauli_shadow_valid_witness :
  let shots := [(dict_set 0 1 [], ["1"%char]); (dict_set 0 2 [], ["0"%char])] in
  (forall qbases memory, In (qbases, memory) shots ->
     is_bitstring memory /\ length memory = 1 /\ basis_assignment 1 qbases) /\
  exists shadow, get_pauli_shadow shots = inr shadow /\ length shadow = 2.
Proof.
  intros shots.
  assert (H : forall qbases memory, In (qbases, memory) shots ->
     is_bitstring memory /\ length memory = 1 /\ basis_assignment 1 qbases).
  { intros qbases memory [E|[E|[]]]; injection E as <- <-.
    - split; [solve [repeat constructor]|]. split; [reflexivity|].
      intros q Hq. exists 1. destruct q; [split; [reflexivity|lia]|lia].
    - split; [solve [repeat constructor]|]. split; [reflexivity|].
      intros q Hq. exists 2. destruct q; [split; [reflexivity|lia]|lia]. }
  split; [exact H|].
  destruct (get_pauli_shadow_valid shots H) as [shadow [E [L _]]].
  exists shadow. auto.
Defined.

(** ** Estimators keep the shape and the Hermiticity of the snapshots *)

Lemma np_add_shape (r c : nat) (A B : matrix) :
  shape r c A -> shape r c B -> shape r c (np_add A B).
Proof. apply shape_map2. Qed.

Lemma entry_np_add (r c : nat) (A B : matrix) (i j : nat) :
  shape r c A -> shape r c B -> i < r -> j < c ->
  entry (np_add A B) i j = (entry A i j + entry B i j)%C.
Proof. apply entry_map2. Qed.

Lemma divide_shape (r c : nat) (A : matrix) (x : R) :
  shape r c A -> shape r c (divide A x).
Proof. apply shape_map. Qed.

Lemma np_add_hermitian (d : nat) (A B : matrix) :
  shape d d A -> shape d d B -> 0 < d ->
  hermitian A -> hermitian B -> hermitian (np_add A B).
Proof.
  intros HA HB Hd HhA HhB.
  apply (hermitian_intro (np_add_shape HA HB) Hd). intros i j Hi Hj.
  rewrite !(entry_np_add HA HB) by assumption.
  rewrite (hermitian_entry HA HhA Hi Hj), (hermitian_entry HB HhB Hi Hj).
  generalize (entry A j i), (entry B j i). csolve.
Qed.

Lemma divide_hermitian (d : nat) (A : matrix) (x : R) :
  shape d d A -> 0 < d -> hermitian A -> hermitian (divide A x).
Proof.
  intros HA Hd Hh.
  apply (hermitian_intro (divide_shape x HA) Hd). intros i j Hi Hj.
  unfold divide. rewrite !(entry_map _ HA) by assumption.
  rewrite (hermitian_entry HA Hh Hi Hj).
  generalize (entry A j i). intros z. destruct z. apply C_eq; simpl; lra.
Qed.

Lemma fold_np_add_hermitian (d : nat) (xs : list matrix) :
  0 < d -> Forall (hermitian_matrix d) xs ->
  forall acc,
  hermitian_matrix d acc -> hermitian_matrix d (fold_left np_add xs acc).
Proof.
  intros Hd. induction 1 as [|x xs [Hx Hhx] _ IH]; intros acc [Hacc Hh].
  - cbn [fold_left]. split; assumption.
  - cbn [fold_left]. apply IH. split.
    + apply (np_add_shape Hacc Hx).
    + apply (np_add_hermitian Hacc Hx); assumption.
Qed.

Lemma matrix_sum_hermitian (d : nat) (batch : list matrix) :
  0 < d -> Forall (hermitian_matrix d) batch -> batch <> [] ->
  hermitian_matrix d (matrix_sum batch).
Proof.
  intros Hd Hall Hne. destruct batch as [|x xs]; [congruence|].
  inversion Hall as [|? ? Hx Hxs]; subst.
  unfold matrix_sum. cbn [hd tl].
  apply (@fold_np_add_hermitian d xs Hd Hxs x Hx).
Qed.

Lemma Forall_slice (A : Type) (P : A -> Prop) (lst : list A) (i j : nat) :
  Forall P lst -> Forall P (slice lst i j).
Proof.
  intros H. unfold slice.
  rewrite <- (firstn_skipn i lst) in H. apply Forall_app in H.
  destruct H as [_ H].
  rewrite <- (firstn_skipn (j - i) (skipn i lst)) in H.
  apply Forall_app in H. tauto.
Qed.

(** If every snapshot of the shadow is a Hermitian [d]-by-[d] matrix, so is
    every estimator, the one of a short trailing chunk included; [N], the
    length of the shadow, is a number a double holds exactly. *)
Theorem get_estimators_hermitian (d : nat) (shadow : list matrix) (K : nat) :
  let N := length shadow in
  let m := N / K in
  0 < d -> 1 <= K -> 1 <= m -> (Z.of_nat N < 2 ^ 53)%Z ->
  Forall (hermitian_matrix d) shadow ->
  exists ests,
    get_estimators shadow (Z.of_nat N) (Z.of_nat K) = inr ests /\
    length ests = (N + m - 1) / m /\
    Forall (hermitian_matrix d) ests.
Proof.
  intros N m Hd HK Hm HN Hall.
  assert (Hdiv : (Z.of_nat N / Z.of_nat K)%Z = Z.of_nat m)
    by (unfold m; rewrite Nat2Z.inj_div; reflexivity).
  assert (HKm : K * m <= N) by (unfold m; apply Nat.Div0.mul_div_le).
  assert (Hsize : int_truediv (Z.of_nat N) (Z.of_nat K) = inr (Z.of_nat m)).
  { rewrite <- Hdiv. apply int_truediv_floor_positive; nia. }
  assert (Hq : (0 < Z.of_nat m)%Z) by lia.
  pose proof (@get_estimators_positive shadow _ _ _ Hsize Hq) as Hget.
  cbv zeta in Hget. rewrite Nat2Z.id in Hget. fold N in Hget.
  eexists. split; [exact Hget|].
  rewrite length_map, length_seq. split; [reflexivity|].
  apply Forall_forall. intros M HM. apply in_map_iff in HM.
  destruct HM as [j [<- Hj]]. apply in_seq in Hj.
  assert (Hlt : j * m < N) by (apply range0_bound; [lia|lia]).
  destruct (@matrix_sum_hermitian d (slice shadow (j * m) (j * m + m)) Hd)
    as [Hs Hh].
  - apply Forall_slice. exact Hall.
  - apply slice_nonempty; [lia|exact Hlt].
  - split; [apply divide_shape; exact Hs|].
    apply (divide_hermitian _ Hs Hd Hh).
Qed.

Lemma get_estimators_hermitian_witness :
  let shadow := [np_eye 1; np_eye 1; np_eye 1] in
  (0 < 1 /\ 1 <= 2 /\ 1 <= length shadow / 2 /\
   (Z.of_nat (length shadow) < 2 ^ 53)%Z /\
   Forall (hermitian_matrix 1) shadow) /\
  exists ests, get_estimators shadow 3 2 = inr ests /\ length ests = 3.
Proof.
  intros shadow.
  assert (H1 : 0 < 1) by lia.
  assert (H2 : 1 <= 2) by lia.
  assert (H3 : 1 <= length shadow / 2) by (vm_compute; lia).
  assert (Hb : (Z.of_nat (length shadow) < 2 ^ 53)%Z) by (vm_compute; reflexivity).
  assert (Hn : hermitian_matrix 1 (np_eye 1)).
  { split; [apply np_eye_shape|].
    unfold hermitian. matrix_compute. apply C_eq; simpl; lra. }
  assert (H4 : Forall (hermitian_matrix 1) shadow)
    by (repeat (apply Forall_cons; [exact Hn|]); apply Forall_nil).
  split; [auto 10|].
  destruct (@get_estimators_hermitian 1 shadow 2 H1 H2 H3 Hb H4)
    as [ests [E [L _]]].
  exists ests. split; [exact E|exact L].
Defined.

(** ** The single-qubit snapshot in double precision *)

(** What the cells return for one qubit, on doubles: in the Z basis the
    snapshot has trace exactly 1; in the X and in the Y basis, where the
    double [1/sqrt(2)] enters, its trace is [1 - 2^-50], for either
    outcome. *)
Theorem pauli_snapshot_one_qubit_doubles (basis : nat) (c : ascii) :
  basis <= 2 -> c = "0"%char \/ c = "1"%char ->
  exists snapshot,
    F64.pauli_snapshot [c] (dict_set 0 basis []) = inr snapshot /\
    F64.to_R (F64.re (F64.trace snapshot)) =
      (if basis =? 2 then 1 else 1 - 8 / 9007199254740992)%R /\
    F64.to_R (F64.im (F64.trace snapshot)) = 0%R.
Proof.
  intros Hb Hc.
  assert (Hrounded : forall snapshot,
            F64.to_R (F64.re (F64.trace snapshot)) =
              (9007199254740984 / 9007199254740992)%R ->
            F64.to_R (F64.re (F64.trace snapshot)) =
              (1 - 8 / 9007199254740992)%R)
    by (intros snapshot ->; lra).
  assert (Hexact : forall snapshot,
            F64.to_R (F64.re (F64.trace snapshot)) =
              (4503599627370496 / 4503599627370496)%R ->
            F64.to_R (F64.re (F64.trace snapshot)) = 1%R)
    by (intros snapshot ->; lra).
  destruct basis as [|[|[|basis]]]; [| | |lia];
    destruct Hc as [->| ->]; eexists;
    (split; [reflexivity|]); cbn [Nat.eqb];
    (split; [first [apply Hrounded; reflexivity|apply Hexact; reflexivity]
            |reflexivity]).
Qed.

Lemma pauli_snapshot_one_qubit_doubles_witness :
  (1 <= 2 /\ ("1"%char = "0"%char \/ "1"%char = "1"%char)) /\
  exists snapshot,
    F64.pauli_snapshot ["1"%char] (dict_set 0 1 []) = inr snapshot /\
    F64.to_R (F64.re (F64.trace snapshot)) = (1 - 8 / 9007199254740992)%R.
Proof.
  assert (H1 : 1 <= 2) by lia.
  assert (H2 : "1"%char = "0"%char \/ "1"%char = "1"%char)
    by (right; reflexivity).
  split; [auto|].
  destruct (@pauli_snapshot_one_qubit_doubles 1 "1"%char H1 H2)
    as [snapshot [E [T _]]].
  exists snapshot. auto.
Defined.

(** ** The quotient N/K of get_estimators *)

(** For [K <> 0] and [N], [K] below [2^53] in absolute value, numbers a
    double holds exactly, the chunk size [int(N/K)] is the exact quotient
    truncated toward zero, and [N/K] raises nothing. *)
Theorem int_truediv_exact (N K : Z) :
  K <> 0%Z -> (Z.abs N < 2 ^ 53)%Z -> (Z.abs K < 2 ^ 53)%Z ->
  int_truediv N K = inr (Z.quot N K).
Proof. apply int_truediv_small. Qed.

Lemma int_truediv_exact_witness :
  (2%Z <> 0%Z /\ (Z.abs (-7) < 2 ^ 53)%Z /\ (Z.abs 2 < 2 ^ 53)%Z) /\
  int_truediv (-7) 2 = inr (-3)%Z.
Proof.
  assert (H1 : 2%Z <> 0%Z) by discriminate.
  assert (H2 : (Z.abs (-7) < 2 ^ 53)%Z) by reflexivity.
  assert (H3 : (Z.abs 2 < 2 ^ 53)%Z) by reflexivity.
  split; [auto|]. exact (@int_truediv_exact (-7) 2 H1 H2 H3).
Defined.

(** Beyond [2^53] the rounding of [N/K] decides: [(10^17 - 1) / 10^17] is
    the double 1.0, so with [N = 10^17 - 1 < K = 10^17] the chunk size is 1,
    no ValueError is raised, and each snapshot of the shadow is an
    estimator. *)
Theorem get_estimators_rounds_to_one (s0 s1 : matrix) :
  get_estimators [s0; s1] (10 ^ 17 - 1) (10 ^ 17) =
  inr [divide s0 1; divide s1 1].
Proof. reflexivity. Qed.

(** A quotient beyond the range of the doubles: [10^400 / 1] raises
    OverflowError, whatever the shadow. *)
Theorem get_estimators_overflow (shadow : list matrix) :
  get_estimators shadow (10 ^ 400) 1 = inl OverflowError.
Proof. apply get_estimators_truediv_error. vm_compute. reflexivity. Qed.

(** ** The prediction *)

Lemma sorted_perm_unique (l l' : list R) :
  StronglySorted Rle l -> StronglySorted Rle l' -> Permutation l l' -> l = l'.
Proof.
  intros Hs. revert l'. induction Hs as [|a l Hs IH Ha]; intros l' Hs' HP.
  - apply Permutation_nil in HP. congruence.
  - destruct Hs' as [|b l' Hs' Hb].
    + apply Permutation_sym, Permutation_nil in HP. discriminate HP.
    + rewrite Forall_forall in Ha, Hb.
      assert (Hab : a = b).
      { assert (Hin : In a (b :: l'))
          by (apply (Permutation_in _ HP); left; reflexivity).
        assert (Hin' : In b (a :: l))
          by (apply (Permutation_in _ (Permutation_sym HP)); left; reflexivity).
        destruct Hin as [E|Hin]; [congruence|].
        destruct Hin' as [E|Hin']; [congruence|].
        apply Rle_antisym; [apply Ha; exact Hin'|apply Hb; exact Hin]. }
      subst b. f_equal. apply IH; [exact Hs'|].
      apply (Permutation_cons_inv HP).
Qed.

Lemma Rsort_perm (l l' : list R) : Permutation l l' -> Rsort l = Rsort l'.
Proof.
  intros HP. apply sorted_perm_unique; try apply Rsort_strongly_sorted.
  unfold Rsort. rewrite !sort_by_perm. exact HP.
Qed.

Lemma median_R_perm (l l' : list R) :
  Permutation l l' -> median_R l = median_R l'.
Proof.
  intros HP. unfold median_R.
  rewrite (Rsort_perm HP), (Permutation_length HP). reflexivity.
Qed.

Lemma Rsort_nth_In (xs : list R) (i : nat) :
  i < length xs -> In (nth i (Rsort xs) 0%R) xs.
Proof.
  intros Hi. apply (Permutation_in _ (sort_by_perm Rleb xs)).
  apply nth_In. unfold Rsort. rewrite sort_by_length. exact Hi.
Qed.

(** The median lies between two of the values. *)
Lemma median_R_range (xs : list R) :
  xs <> [] ->
  exists p a b, median_R xs = Some p /\ In a xs /\ In b xs /\ (a <= p <= b)%R.
Proof.
  intros Hne.
  assert (Hlen : 0 < length xs) by (destruct xs; [congruence|simpl; lia]).
  destruct (half_bounds Hlen) as [Hhalf Heven].
  assert (Hsl : length (Rsort xs) = length xs) by apply sort_by_length.
  unfold median_R.
  destruct (Nat.eqb_spec (length xs) 0) as [|_]; [lia|].
  destruct (Nat.even (length xs)) eqn:E.
  - specialize (Heven eq_refl).
    assert (Hmid : (nth (length xs / 2 - 1) (Rsort xs) 0
                    <= nth (length xs / 2) (Rsort xs) 0)%R)
      by (apply sorted_nth_le; [apply Rsort_strongly_sorted|lia|lia]).
    eexists. exists (nth (length xs / 2 - 1) (Rsort xs) 0%R),
                    (nth (length xs / 2) (Rsort xs) 0%R).
    split; [reflexivity|].
    split; [apply Rsort_nth_In; lia|]. split; [apply Rsort_nth_In; lia|]. lra.
  - eexists. exists (nth (length xs / 2) (Rsort xs) 0%R),
                    (nth (length xs / 2) (Rsort xs) 0%R).
    split; [reflexivity|].
    split; [apply Rsort_nth_In; lia|]. split; [apply Rsort_nth_In; lia|]. lra.
Qed.

(** The prediction does not depend on the order of the estimators. *)
Theorem get_fidelity_prediction_permutation (state : Type)
  (state_fidelity : state -> matrix -> C) (estimators estimators' : list matrix)
  (psi : state) :
  Permutation estimators estimators' ->
  get_fidelity_prediction state_fidelity estimators psi =
  get_fidelity_prediction state_fidelity estimators' psi.
Proof.
  intros HP. unfold get_fidelity_prediction. rewrite !real_np_median.
  apply median_R_perm. do 2 apply Permutation_map. exact HP.
Qed.

Lemma get_fidelity_prediction_permutation_witness :
  let f := fun (_ : unit) (rho : matrix) => entry rho 0 0 in
  let a := [[RtoC 1]] in
  let b := [[RtoC 2]] in
  let c := [[Ci]] in
  Permutation [a; b; c] [c; a; b] /\
  get_fidelity_prediction f [a; b; c] tt =
  get_fidelity_prediction f [c; a; b] tt.
Proof.
  intros f a b c.
  assert (H : Permutation [a; b; c] [c; a; b]).
  { apply Permutation_sym. apply (Permutation_cons_app [a; b] [] c).
    rewrite app_nil_r. apply Permutation_refl. }
  split; [exact H|]. exact (get_fidelity_prediction_permutation f tt H).
Defined.

(** The prediction is [nan] exactly for an empty list of estimators;
    otherwise it lies between the real parts of the functional values of two
    of the estimators, so within the range of the batch values and equal to
    their common real part when they agree. *)
Theorem get_fidelity_prediction_range (state : Type)
  (state_fidelity : state -> matrix -> C) (estimators : list matrix)
  (psi : state) :
  (estimators = [] /\
   get_fidelity_prediction state_fidelity estimators psi = None) \/
  (exists p rho1 rho2,
     get_fidelity_prediction state_fidelity estimators psi = Some p /\
     In rho1 estimators /\ In rho2 estimators /\
     (real (state_fidelity psi rho1) <= p
      <= real (state_fidelity psi rho2))%R).
Proof.
  destruct estimators as [|rho estimators]; [left; split; reflexivity|].
  right. unfold get_fidelity_prediction. rewrite real_np_median.
  destruct (@median_R_range
              (map real (map (fun rho => state_fidelity psi rho)
                           (rho :: estimators))))
    as [p [a [b [Hp [Ha [Hb Hab]]]]]]; [discriminate|].
  rewrite map_map in Ha, Hb. apply in_map_iff in Ha, Hb.
  destruct Ha as [rho1 [<- H1]]. destruct Hb as [rho2 [<- H2]].
  exists p, rho1, rho2. auto.
Qed.

(** ** get_estimators, then get_fidelity_prediction *)

(** An empty shadow is not rejected.  [get_estimators] then ends as [N/K]
    alone decides: with the exception of [N/K] if it raises one, with
    ValueError if [int(N/K)] is zero, and with no estimator otherwise; the
    prediction computed from that empty list is [nan]. *)
Theorem get_estimators_empty_shadow (state : Type)
  (state_fidelity : state -> matrix -> C) (psi : state) (N K : Z) :
  match int_truediv N K with
  | inl e => get_estimators [] N K = inl e
  | inr size =>
      if (size =? 0)%Z then get_estimators [] N K = inl ValueError
      else get_estimators [] N K = inr []
  end /\
  get_fidelity_prediction state_fidelity [] psi = None.
Proof.
  split; [|reflexivity].
  destruct (int_truediv N K) as [e|size] eqn:Hsize.
  - unfold get_estimators. rewrite Hsize. reflexivity.
  - destruct (Z.eqb_spec size 0) as [->|Hne].
    + apply get_estimators_zero_size. exact Hsize.
    + destruct (Z.lt_ge_cases size 0) as [Hneg|Hpos].
      * apply (@get_estimators_negative_size [] N K size Hsize Hneg).
      * rewrite (@get_estimators_positive [] N K size Hsize) by lia.
        cbn [length Nat.add].
        rewrite Nat.div_small by lia. reflexivity.
Qed.
